(** * Archive listing to directory tree: [parseZipAsTree]

    A shallow embedding of the zip service of the office viewer
    (the module that exports [parseZipAsTree] and the helper [sum]).

    JavaScript objects are shared by reference, and the function relies on
    that: a synthesized folder is stored in [folderMap], later pushed into
    [files] or into another folder's [children], and finally mutated in
    place.  The model therefore keeps an explicit object store ([heap]);
    every array holds references into it.

    Conventions.
    - Strings are byte strings.  The only character the code inspects is
      the separator (code 47), which never occurs inside a multi-byte
      sequence, so splitting bytes agrees with splitting code units.
    - Numbers are modelled as [Z].  The sizes are unsigned 32-bit header
      fields and the only arithmetic is addition, which is exact in double
      precision below 2^53.
    - [prettyBytes], [format], [basename] and [localeCompare] are
      collaborators that live outside the module; they are the fields of
      the class [Host]. *)

From Stdlib Require Import ZArith Ascii String List Sorted.
From stdpp Require Import base tactics option list strings numbers pretty.

Local Open Scope string_scope.
Local Open Scope list_scope.
Local Open Scope Z_scope.

(** ** Outcomes of a run *)

Inductive failure :=
| TypeError   (* a JavaScript exception: a method call on [undefined] *)
| BadRef      (* a reference outside the store *)
| OutOfFuel.  (* the recursion budget of [sum] is spent *)

Inductive result (A : Type) :=
| Ok (a : A)
| Fail (e : failure).
Arguments Ok {A} a.
Arguments Fail {A} e.

Definition rbind {A B} (m : result A) (k : A -> result B) : result B :=
  match m with
  | Ok a => k a
  | Fail e => Fail e
  end.

Notation "'let*' x ':=' m 'in' k" := (rbind m (fun x => k))
  (at level 10, x pattern, m at level 100, k at level 200).

Definition from_result {A} (d : A) (m : result A) : A :=
  match m with
  | Ok a => a
  | Fail _ => d
  end.

Definition of_option {A} (e : failure) (o : option A) : result A :=
  match o with
  | Some a => Ok a
  | None => Fail e
  end.

(** ** Strings: [split('/')], [pop], [join('/')] *)

Definition is_slash (c : ascii) : bool := Ascii.eqb c "/"%char.

(** [s.split('/')]: never empty; the empty string splits into one empty
    segment. *)
Fixpoint split (s : string) : list string :=
  match s with
  | EmptyString => [EmptyString]
  | String c s' =>
      if is_slash c then EmptyString :: split s'
      else match split s' with
           | seg :: rest => String c seg :: rest
           | [] => [String c EmptyString]
           end
  end.

(** [paths.pop()]: the array without its last element. *)
Definition pop (paths : list string) : list string := removelast paths.

(** [paths.join('/')]. *)
Fixpoint join (paths : list string) : string :=
  match paths with
  | [] => ""
  | [x] => x
  | x :: rest => (x ++ "/" ++ join rest)%string
  end.

(** ** Plain objects used as maps

    [fileMap] and [folderMap] are object literals.  Their own properties
    are kept in creation order.  Two features of plain objects are
    visible to the code and are modelled: properties inherited from
    [Object.prototype] answer a read, and own keys are enumerated with
    array indices first. *)

Definition jsobj (V : Type) := list (string * V).

Fixpoint lookup_own {V} (k : string) (m : jsobj V) : option V :=
  match m with
  | [] => None
  | (k', v) :: m' => if String.eqb k k' then Some v else lookup_own k m'
  end.

Fixpoint assign_own {V} (k : string) (v : V) (m : jsobj V) : jsobj V :=
  match m with
  | [] => [(k, v)]
  | (k', v') :: m' =>
      if String.eqb k k' then (k, v) :: m' else (k', v') :: assign_own k v m'
  end.

(** Property names every plain object inherits. *)
Definition prototype_names : list string :=
  [ "constructor"; "__defineGetter__"; "__defineSetter__"; "hasOwnProperty";
    "__lookupGetter__"; "__lookupSetter__"; "isPrototypeOf";
    "propertyIsEnumerable"; "toString"; "valueOf"; "__proto__";
    "toLocaleString" ].

Definition inherited (k : string) : bool :=
  existsb (String.eqb k) prototype_names.

(** The value of [m[k]]: an own property, an inherited (truthy) function
    or object, or [undefined]. *)
Inductive property (V : Type) :=
| Own (v : V)
| Inherited
| Undefined.
Arguments Own {V} v.
Arguments Inherited {V}.
Arguments Undefined {V}.

Definition get_prop {V} (k : string) (m : jsobj V) : property V :=
  match lookup_own k m with
  | Some v => Own v
  | None => if inherited k then Inherited else Undefined
  end.

(** [m[k] = v]: assigning an object to ["__proto__"] replaces the
    prototype and creates no own property. *)
Definition set_prop {V} (k : string) (v : V) (m : jsobj V) : jsobj V :=
  if String.eqb k "__proto__" then m else assign_own k v m.

Definition digit_value (c : ascii) : option N :=
  let n := N_of_ascii c in
  if ((48 <=? n) && (n <=? 57))%N then Some (n - 48)%N else None.

Fixpoint digits_value (acc : N) (s : string) : option N :=
  match s with
  | EmptyString => Some acc
  | String c s' =>
      match digit_value c with
      | Some d => digits_value (acc * 10 + d)%N s'
      | None => None
      end
  end.

(** A key is an array index when it is the canonical decimal form of an
    integer below 2^32 - 1. *)
Definition array_index (k : string) : option N :=
  match k with
  | EmptyString => None
  | String c rest =>
      if Ascii.eqb c "0"%char && negb (String.eqb rest "") then None
      else match digits_value 0 k with
           | Some n => if (n <? 4294967295)%N then Some n else None
           | None => None
           end
  end.

(** ** A stable sort

    [Array.prototype.sort] is stable.  [cmp a b] is the comparator's
    result; an element goes in front of the first element it does not
    exceed. *)
Section Sort.
Context {A : Type} (cmp : A -> A -> Z).

Fixpoint insert_sorted (x : A) (l : list A) : list A :=
  match l with
  | [] => [x]
  | y :: l' => if (cmp x y <=? 0) then x :: y :: l' else y :: insert_sorted x l'
  end.

Fixpoint sort (l : list A) : list A :=
  match l with
  | [] => []
  | x :: l' => insert_sorted x (sort l')
  end.
End Sort.

(** [Object.keys(m)] and [for (key in m)]: array indices in ascending
    numeric order, then the other keys in creation order. *)
Definition index_keys {V} (m : jsobj V) : list (N * string) :=
  omap (fun kv => match array_index (fst kv) with
                  | Some n => Some (n, fst kv)
                  | None => None
                  end) m.

Definition name_keys {V} (m : jsobj V) : list string :=
  omap (fun kv => match array_index (fst kv) with
                  | Some _ => None
                  | None => Some (fst kv)
                  end) m.

Definition own_keys {V} (m : jsobj V) : list string :=
  map snd (sort (fun a b => Z.of_N (fst a) - Z.of_N (fst b)) (index_keys m))
  ++ name_keys m.

(** ** Records of the archive and objects of the store *)

Module Header.
Record t := mk { size : Z; compressedSize : Z; time : Z }.
End Header.

(** What the archive reader hands over for one record. *)
Module Origin.
Record t := mk {
  isDirectory : bool;
  name : string;
  entryName : string;
  header : option Header.t
}.
End Origin.

(** A reference is an index into the store. *)
Abbreviation ref := nat (only parsing).

(** An object of the store.  The source unions three shapes by property
    presence: the reader's own record (used as is for directories), the
    copy made for a file, and the synthesized folder.  An absent property
    is [None]; [modifyDateTime] may also be present and [null]. *)
Record ZipEntry := mkZipEntry {
  isDirectory : bool;
  name : string;
  entryName : string;
  header : option Header.t;
  originFileSize : option Z;
  originCompressedSize : option Z;
  fileSize : option string;
  compressedSize : option string;
  modifyDateTime : option (option string);
  children : option (list ref)
}.

Definition of_origin (o : Origin.t) : ZipEntry :=
  {| isDirectory := Origin.isDirectory o;
     name := Origin.name o;
     entryName := Origin.entryName o;
     header := Origin.header o;
     originFileSize := None;
     originCompressedSize := None;
     fileSize := None;
     compressedSize := None;
     modifyDateTime := None;
     children := None |}.

Definition set_children (cs : list ref) (o : ZipEntry) : ZipEntry :=
  {| isDirectory := isDirectory o; name := name o; entryName := entryName o;
     header := header o; originFileSize := originFileSize o;
     originCompressedSize := originCompressedSize o;
     fileSize := fileSize o; compressedSize := compressedSize o;
     modifyDateTime := modifyDateTime o; children := Some cs |}.

Definition set_fileSize (s : string) (o : ZipEntry) : ZipEntry :=
  {| isDirectory := isDirectory o; name := name o; entryName := entryName o;
     header := header o; originFileSize := originFileSize o;
     originCompressedSize := originCompressedSize o;
     fileSize := Some s; compressedSize := compressedSize o;
     modifyDateTime := modifyDateTime o; children := children o |}.

Definition set_compressedSize (s : string) (o : ZipEntry) : ZipEntry :=
  {| isDirectory := isDirectory o; name := name o; entryName := entryName o;
     header := header o; originFileSize := originFileSize o;
     originCompressedSize := originCompressedSize o;
     fileSize := fileSize o; compressedSize := Some s;
     modifyDateTime := modifyDateTime o; children := children o |}.

(** The local variables [files], [fileMap], [folderMap] and the store. *)
Record State := mkState {
  heap : list ZipEntry;
  files : list ref;
  fileMap : jsobj ref;
  folderMap : jsobj ref
}.

Definition with_heap (h : list ZipEntry) (st : State) : State :=
  {| heap := h; files := files st; fileMap := fileMap st; folderMap := folderMap st |}.

Definition with_files (fs : list ref) (st : State) : State :=
  {| heap := heap st; files := fs; fileMap := fileMap st; folderMap := folderMap st |}.

Definition with_fileMap (m : jsobj ref) (st : State) : State :=
  {| heap := heap st; files := files st; fileMap := m; folderMap := folderMap st |}.

Definition with_folderMap (m : jsobj ref) (st : State) : State :=
  {| heap := heap st; files := files st; fileMap := fileMap st; folderMap := m |}.

(** ** The collaborators *)

Class Host := {
  prettyBytes : option Z -> string;
  format : string -> Z -> string;
  basename : string -> string;
  localeCompare : string -> string -> Z
}.

(** ** [sum] *)

(** [sum(array, prop)], with [prop] given as the projection it selects.
    The recursion follows [children] through the store; [fuel] bounds its
    depth. *)
Fixpoint sum (fuel : nat) (h : list ZipEntry) (array : list ref)
    (prop : ZipEntry -> option Z) : result Z :=
  match fuel with
  | O => Fail OutOfFuel
  | S fuel' =>
      fold_left (fun (acc : result Z) (r : ref) =>
        let* res := acc in
        let* item := of_option BadRef (h !! r) in
        let value := default 0 (prop item) in
        let* childSize :=
          match children item with
          | Some cs => sum fuel' h cs prop
          | None => Ok 0
          end in
        Ok (res + value + childSize)) array (Ok 0)
  end.

Section Program.
Context `{Host}.

(** The object literal built for a file record. *)
Definition wrap (origin : ZipEntry) : ZipEntry :=
  {| isDirectory := isDirectory origin;
     name := name origin;
     entryName := entryName origin;
     header := header origin;
     originFileSize := Header.size <$> header origin;
     originCompressedSize := Header.compressedSize <$> header origin;
     fileSize := Some (prettyBytes (Header.size <$> header origin));
     compressedSize := Some (prettyBytes (Header.compressedSize <$> header origin));
     modifyDateTime :=
       Some (match header origin with
             | Some hd => Some (format "yyyy-MM-dd hh:mm:ss" (Header.time hd))
             | None => None
             end);
     children := None |}.

(** The object literal built for a parent path seen for the first time;
    the source writes it with [children: [entry]]. *)
Definition new_folder (children : list ref) (parentPath : string) : ZipEntry :=
  {| isDirectory := true;
     name := basename parentPath;
     entryName := parentPath;
     header := None;
     originFileSize := None;
     originCompressedSize := None;
     fileSize := None;
     compressedSize := None;
     modifyDateTime := None;
     children := Some children |}.

(** [folderMap[parentPath].children.push(entry)]. *)
Definition push_child (folder entry : ref) (st : State) : result State :=
  let* f := of_option BadRef (heap st !! folder) in
  let* cs := of_option TypeError (children f) in
  Ok (with_heap (<[folder := set_children (cs ++ [entry]) f]> (heap st)) st).

(** [if (!entry.isDirectory) fileMap[entry.entryName] = entry]. *)
Definition register_file (entry : ref) (e : ZipEntry) (st : State) : State :=
  if isDirectory e then st
  else with_fileMap (set_prop (entryName e) entry (fileMap st)) st.

(** The first statement of the loop body: a directory record is used
    as it is, a file record is copied into a new object. *)
Definition make_entry (st : State) (origin : ref) : result (ref * ZipEntry * State) :=
  let* o := of_option BadRef (heap st !! origin) in
  Ok (if isDirectory o then (origin, o, st)
      else (length (heap st), wrap o, with_heap (heap st ++ [wrap o]) st)).

(** The rest of the loop body: [entry] goes to [files] or to the
    folder registered for its parent path. *)
Definition place_entry (st : State) (entry : ref) (e : ZipEntry) : result State :=
  let paths := pop (split (entryName e)) in
  if (length paths =? 0)%nat then
    Ok (register_file entry e (with_files (files st ++ [entry]) st))
  else
    let parentPath := join paths in
    match get_prop parentPath (folderMap st) with
    | Own folder =>
        let* st := push_child folder entry st in
        Ok (register_file entry e st)
    | Inherited => Fail TypeError
    | Undefined =>
        let folder := length (heap st) in
        Ok (with_folderMap (assign_own parentPath folder (folderMap st))
              (with_heap (heap st ++ [new_folder [entry] parentPath]) st))
    end.

(** One iteration of the loop of [parseFlatItems]. *)
Definition parseFlatItem (st : State) (origin : ref) : result State :=
  let* made := make_entry st origin in
  let '(entry, e, st) := made in
  place_entry st entry e.

Fixpoint parseFlatItems (st : State) (entrys : list ref) : result State :=
  match entrys with
  | [] => Ok st
  | origin :: rest =>
      let* st := parseFlatItem st origin in
      parseFlatItems st rest
  end.

(** [Object.keys(folderMap).map(k => folderMap[k])]. *)
Definition folder_values (m : jsobj ref) : list ref :=
  omap (fun k => lookup_own k m) (own_keys m).

(** [sortFiles]. *)
Definition sortFiles (a b : ZipEntry) : Z :=
  if isDirectory a && isDirectory b then localeCompare (name a) (name b)
  else if isDirectory a then -1
  else if isDirectory b then 1
  else localeCompare (name a) (name b).

(** [array.sort(sortFiles)] on an array of references: the comparator
    reads the objects behind them. *)
Fixpoint resolve (h : list ZipEntry) (rs : list ref) : result (list (ref * ZipEntry)) :=
  match rs with
  | [] => Ok []
  | r :: rs' =>
      let* o := of_option BadRef (h !! r) in
      let* tl := resolve h rs' in
      Ok ((r, o) :: tl)
  end.

Definition sort_refs (h : list ZipEntry) (rs : list ref) : result (list ref) :=
  let* items := resolve h rs in
  Ok (map fst (sort (fun a b => sortFiles (snd a) (snd b)) items)).

(** The three statements of the body of the [for (key in folderMap)] loop. *)
Definition finalize_folder (fuel : nat) (st : State) (key : string) : result State :=
  let* element := of_option BadRef (lookup_own key (folderMap st)) in
  let* o := of_option BadRef (heap st !! element) in
  let* cs := of_option TypeError (children o) in
  let* sorted := sort_refs (heap st) cs in
  let o1 := set_children sorted o in
  let h1 := <[element := o1]> (heap st) in
  let* raw := sum fuel h1 sorted originFileSize in
  let o2 := set_fileSize (prettyBytes (Some raw)) o1 in
  let h2 := <[element := o2]> h1 in
  let* compressed := sum fuel h2 sorted originCompressedSize in
  let o3 := set_compressedSize (prettyBytes (Some compressed)) o2 in
  Ok (with_heap (<[element := o3]> h2) st).

Fixpoint finalize_folders (fuel : nat) (st : State) (keys : list string) : result State :=
  match keys with
  | [] => Ok st
  | key :: rest =>
      let* st := finalize_folder fuel st key in
      finalize_folders fuel st rest
  end.

(** The two calls of [parseFlatItems]. *)
Definition build (zipEntries : list Origin.t) : result State :=
  let st0 := {| heap := map of_origin zipEntries; files := [];
                fileMap := []; folderMap := [] |} in
  let* st1 := parseFlatItems st0 (seq 0 (length zipEntries)) in
  parseFlatItems st1 (folder_values (folderMap st1)).

(** The loop over [folderMap] and the sort of [files]. *)
Definition finalize (fuel : nat) (st : State) : result State :=
  let* st := finalize_folders fuel st (own_keys (folderMap st)) in
  let* sorted := sort_refs (heap st) (files st) in
  Ok (with_files sorted st).

(** [parseZipAsTree], from the entries the reader returns. *)
Definition parseZipAsTree (fuel : nat) (zipEntries : list Origin.t) : result State :=
  let* st := build zipEntries in
  finalize fuel st.
End Program.

(** ** A concrete host, to run the program *)

(** [path.posix.basename]: trailing separators are ignored and the last
    remaining segment is returned. *)
Definition posix_basename (p : string) : string :=
  List.last (List.filter (fun seg => negb (String.eqb seg "")) (split p)) "".

Definition codeUnitCompare (a b : string) : Z :=
  match String.compare a b with
  | Lt => -1
  | Eq => 0
  | Gt => 1
  end.

Definition sample_host : Host :=
  {| prettyBytes := fun n => match n with
                             | Some z => (pretty z ++ " B")%string
                             | None => "NaN"
                             end;
     format := fun _ t => pretty t;
     basename := posix_basename;
     localeCompare := codeUnitCompare |}.

Definition file (path base : string) (sz csz : Z) : Origin.t :=
  Origin.mk false base path (Some (Header.mk sz csz 0)).

Definition dir (path : string) : Origin.t :=
  Origin.mk true "" path (Some (Header.mk 0 0 0)).

(** The state a run of the sample host ends in (the empty state when it
    throws). *)
Definition run (fuel : nat) (zipEntries : list Origin.t) : State :=
  from_result {| heap := []; files := []; fileMap := []; folderMap := [] |}
    (@parseZipAsTree sample_host fuel zipEntries).

(** * Properties *)

(** ** Splitting and joining paths *)

Lemma split_nonempty (s : string) : split s <> [].
Proof.
  destruct s as [|c s]; simpl; [discriminate|].
  destruct (is_slash c); [discriminate|].
  destruct (split s); discriminate.
Qed.

Lemma join_cons (x : string) (l : list string) :
  l <> [] -> join (x :: l) = (x ++ "/" ++ join l)%string.
Proof. destruct l; [congruence|reflexivity]. Qed.

Lemma string_app_cons (c : ascii) (a b : string) :
  (String c a ++ b)%string = String c (a ++ b)%string.
Proof. reflexivity. Qed.

Lemma string_app_assoc (a b c : string) :
  ((a ++ b) ++ c)%string = (a ++ b ++ c)%string.
Proof.
  induction a as [|x a IH]; [reflexivity|].
  rewrite !string_app_cons. by rewrite IH.
Qed.

Lemma string_app_length (a b : string) :
  String.length (a ++ b) = (String.length a + String.length b)%nat.
Proof.
  induction a as [|x a IH]; [reflexivity|].
  rewrite string_app_cons. simpl. by rewrite IH.
Qed.

Lemma join_split (s : string) : join (split s) = s.
Proof.
  induction s as [|c s IH]; [reflexivity|].
  simpl. destruct (is_slash c) eqn:Hc.
  - rewrite join_cons by apply split_nonempty.
    rewrite IH. unfold is_slash in Hc. apply Ascii.eqb_eq in Hc.
    subst c. reflexivity.
  - destruct (split s) as [|seg rest] eqn:Hs; [by destruct (split_nonempty s)|].
    rewrite <- IH. destruct rest; reflexivity.
Qed.

Lemma join_snoc (l : list string) (x : string) :
  l <> [] -> join (l ++ [x]) = (join l ++ "/" ++ x)%string.
Proof.
  induction l as [|a l IH]; [congruence|]. intros _.
  destruct l as [|b l]; [reflexivity|].
  change ((a :: b :: l) ++ [x]) with (a :: ((b :: l) ++ [x])).
  rewrite (join_cons a ((b :: l) ++ [x])) by done.
  rewrite IH by done.
  rewrite (join_cons a (b :: l)) by done.
  by rewrite !string_app_assoc.
Qed.

Lemma pop_snoc (l : list string) (x : string) : pop (l ++ [x]) = l.
Proof. apply removelast_last. Qed.

Lemma split_pop_last (s : string) :
  split s = pop (split s) ++ [List.last (split s) ""].
Proof. apply app_removelast_last, split_nonempty. Qed.

(** A path with a parent is its parent path, a separator and a last
    segment. *)
Lemma parent_decompose (s : string) :
  pop (split s) <> [] ->
  s = (join (pop (split s)) ++ "/" ++ List.last (split s) "")%string.
Proof.
  intros Hne. rewrite <- join_snoc by done.
  rewrite <- split_pop_last. symmetry. apply join_split.
Qed.

Lemma parent_shorter (s : string) :
  pop (split s) <> [] ->
  (String.length (join (pop (split s))) < String.length s)%nat.
Proof.
  intros Hne. rewrite (parent_decompose s Hne) at 2.
  rewrite !string_app_length. simpl. lia.
Qed.

(** A trailing separator adds one empty segment. *)
Lemma split_trailing_slash (p : string) :
  split (p ++ "/") = split p ++ [""].
Proof.
  induction p as [|c p IH]; [reflexivity|].
  rewrite string_app_cons. simpl. rewrite IH.
  destruct (is_slash c); [reflexivity|].
  destruct (split p) eqn:Hp; [by destruct (split_nonempty p)|reflexivity].
Qed.

Lemma parent_of_trailing_slash (p : string) :
  pop (split (p ++ "/")) = split p /\ join (pop (split (p ++ "/"))) = p.
Proof.
  rewrite split_trailing_slash, pop_snoc. split; [done|apply join_split].
Qed.

(** ** Plain objects used as maps *)

Definition keys {V} (m : jsobj V) : list string := map fst m.

Lemma lookup_own_None {V} (k : string) (m : jsobj V) :
  lookup_own k m = None <-> k ∉ keys m.
Proof.
  induction m as [|[k' v] m IH]; simpl.
  - split; [intros _; apply not_elem_of_nil|done].
  - destruct (String.eqb_spec k k') as [->|Hne].
    + split; [done|]. intros Hn. destruct Hn. left.
    + rewrite IH. rewrite not_elem_of_cons. tauto.
Qed.

Lemma lookup_own_Some_elem {V} (k : string) (v : V) (m : jsobj V) :
  lookup_own k m = Some v -> (k, v) ∈ m.
Proof.
  induction m as [|[k' v'] m IH]; simpl; [done|].
  destruct (String.eqb_spec k k') as [->|Hne].
  - intros [= ->]. left.
  - intros Hl. right. auto.
Qed.

Lemma lookup_own_is_Some {V} (k : string) (m : jsobj V) :
  k ∈ keys m <-> is_Some (lookup_own k m).
Proof.
  destruct (lookup_own k m) eqn:Hl.
  - split; [eauto|]. intros _.
    apply lookup_own_Some_elem in Hl.
    unfold keys. apply list_elem_of_fmap. by exists (k, v).
  - apply lookup_own_None in Hl. split; [done|]. by intros [? [=]].
Qed.

Lemma elem_lookup_own {V} (k : string) (v : V) (m : jsobj V) :
  NoDup (keys m) -> (k, v) ∈ m -> lookup_own k m = Some v.
Proof.
  induction m as [|[k' v'] m IH]; simpl; intros Hnd Hin.
  - by apply elem_of_nil in Hin.
  - apply NoDup_cons in Hnd as [Hk Hnd].
    apply elem_of_cons in Hin as [[= -> ->]|Hin].
    + by rewrite String.eqb_refl.
    + destruct (String.eqb_spec k k') as [->|Hne]; [|auto].
      destruct Hk. apply list_elem_of_fmap. by exists (k', v).
Qed.

Lemma lookup_assign_eq {V} (k : string) (v : V) (m : jsobj V) :
  lookup_own k (assign_own k v m) = Some v.
Proof.
  induction m as [|[k' v'] m IH]; simpl.
  - by rewrite String.eqb_refl.
  - destruct (String.eqb_spec k k') as [->|Hne]; simpl.
    + by rewrite String.eqb_refl.
    + by destruct (String.eqb_spec k k').
Qed.

Lemma lookup_assign_ne {V} (k k' : string) (v : V) (m : jsobj V) :
  k <> k' -> lookup_own k' (assign_own k v m) = lookup_own k' m.
Proof.
  intros Hne. induction m as [|[k0 v0] m IH]; simpl.
  - by destruct (String.eqb_spec k' k); [congruence|].
  - destruct (String.eqb_spec k k0) as [->|Hne0]; simpl.
    + by destruct (String.eqb_spec k' k0); [congruence|].
    + by rewrite IH.
Qed.

(** A key that is not there yet is created last. *)
Lemma assign_fresh {V} (k : string) (v : V) (m : jsobj V) :
  lookup_own k m = None -> assign_own k v m = m ++ [(k, v)].
Proof.
  induction m as [|[k' v'] m IH]; simpl; [done|].
  destruct (String.eqb_spec k k'); [done|]. intros Hl. by rewrite IH.
Qed.

(** Assignment keeps the keys that exist, in place. *)
Lemma keys_assign_present {V} (k : string) (v : V) (m : jsobj V) :
  is_Some (lookup_own k m) -> keys (assign_own k v m) = keys m.
Proof.
  induction m as [|[k' v'] m IH]; simpl; [by intros [? [=]]|].
  destruct (String.eqb_spec k k') as [->|Hne]; [done|].
  intros Hl. simpl. by rewrite IH.
Qed.

Lemma keys_assign_elem {V} (k k' : string) (v : V) (m : jsobj V) :
  k' ∈ keys (assign_own k v m) <-> k' = k \/ k' ∈ keys m.
Proof.
  rewrite !lookup_own_is_Some.
  destruct (decide (k = k')) as [->|Hne].
  - rewrite lookup_assign_eq. split; [auto|eauto].
  - rewrite lookup_assign_ne by done. split; [auto|by intros [->|?]].
Qed.

Lemma keys_assign_NoDup {V} (k : string) (v : V) (m : jsobj V) :
  NoDup (keys m) -> NoDup (keys (assign_own k v m)).
Proof.
  intros Hnd. destruct (lookup_own k m) eqn:Hl.
  - by rewrite keys_assign_present by eauto.
  - rewrite assign_fresh by done. unfold keys. rewrite map_app. simpl.
    apply NoDup_app. split_and!; [done| |apply NoDup_singleton].
    intros x Hx Hx'. apply list_elem_of_singleton in Hx' as ->.
    by apply lookup_own_None in Hl.
Qed.

Lemma keys_set_prop_elem {V} (k k' : string) (v : V) (m : jsobj V) :
  k' ∈ keys m -> k' ∈ keys (set_prop k v m).
Proof.
  unfold set_prop. destruct (String.eqb k "__proto__"); [done|].
  rewrite keys_assign_elem. auto.
Qed.

Lemma keys_set_prop_NoDup {V} (k : string) (v : V) (m : jsobj V) :
  NoDup (keys m) -> NoDup (keys (set_prop k v m)).
Proof.
  unfold set_prop. destruct (String.eqb k "__proto__"); [done|].
  apply keys_assign_NoDup.
Qed.

(** ** The stable sort *)

Section SortFacts.
Context {A : Type} (cmp : A -> A -> Z).

Lemma insert_sorted_perm (x : A) (l : list A) : insert_sorted cmp x l ≡ₚ x :: l.
Proof.
  induction l as [|y l IH]; simpl; [done|].
  destruct (cmp x y <=? 0); [done|].
  rewrite IH. apply Permutation_swap.
Qed.

Lemma sort_perm (l : list A) : sort cmp l ≡ₚ l.
Proof.
  induction l as [|x l IH]; simpl; [done|].
  by rewrite insert_sorted_perm, IH.
Qed.

(** Consecutive elements are in order. *)
Definition ordered : list A -> Prop := Sorted (fun a b => cmp a b <= 0).

Definition total_comparator : Prop := forall a b, 0 < cmp a b -> cmp b a <= 0.

Lemma insert_sorted_ordered (x : A) (l : list A) :
  total_comparator -> ordered l -> ordered (insert_sorted cmp x l).
Proof.
  intros Htot. induction l as [|y l IH]; simpl; intros Hl.
  - by repeat constructor.
  - destruct (Z.leb_spec (cmp x y) 0) as [Hle|Hgt].
    + constructor; [done|]. by constructor.
    + apply Sorted_inv in Hl as [Hl Hhd]. constructor; [by apply IH|].
      destruct l as [|z l]; simpl.
      * constructor. by apply Htot.
      * destruct (Z.leb_spec (cmp x z) 0).
        -- constructor. by apply Htot.
        -- constructor. by apply HdRel_inv in Hhd.
Qed.

Lemma sort_ordered (l : list A) : total_comparator -> ordered (sort cmp l).
Proof.
  intros Htot. induction l as [|x l IH]; simpl; [constructor|].
  by apply insert_sorted_ordered.
Qed.

(** Sorting a sorted array changes nothing. *)
Lemma sort_ordered_id (l : list A) : ordered l -> sort cmp l = l.
Proof.
  induction l as [|x l IH]; simpl; [done|]. intros Hl.
  apply Sorted_inv in Hl as [Hl Hhd]. rewrite IH by done.
  destruct l as [|y l]; simpl; [done|].
  apply HdRel_inv in Hhd. by destruct (Z.leb_spec (cmp x y) 0); [|lia].
Qed.
End SortFacts.

Lemma sort_map_key {A B : Type} (f : A -> B) (cmp : B -> B -> Z) (l : list A) :
  map f (sort (fun a b => cmp (f a) (f b)) l) = sort cmp (map f l).
Proof.
  induction l as [|x l IH]; simpl; [done|]. rewrite <- IH.
  generalize (sort (fun a b => cmp (f a) (f b)) l). intros s.
  induction s as [|y s IHs]; simpl; [done|].
  destruct (cmp (f x) (f y) <=? 0); simpl; [done|]. by rewrite IHs.
Qed.

Lemma own_keys_perm {V} (m : jsobj V) : own_keys m ≡ₚ keys m.
Proof.
  unfold own_keys.
  rewrite (sort_perm _ (index_keys m)).
  unfold index_keys, name_keys, keys.
  induction m as [|[k v] m IH]; simpl; [done|].
  destruct (array_index k); simpl.
  - by rewrite IH.
  - rewrite <- IH. by rewrite Permutation_middle.
Qed.

Lemma own_keys_elem {V} (k : string) (m : jsobj V) :
  k ∈ own_keys m <-> k ∈ keys m.
Proof. by rewrite own_keys_perm. Qed.

Lemma own_keys_NoDup {V} (m : jsobj V) : NoDup (keys m) -> NoDup (own_keys m).
Proof. by rewrite own_keys_perm. Qed.

(** ** The result monad *)

Lemma rbind_Ok {A B} (m : result A) (k : A -> result B) (b : B) :
  rbind m k = Ok b -> exists a, m = Ok a /\ k a = Ok b.
Proof. destruct m; simpl; [eauto|discriminate]. Qed.

Lemma of_option_Ok {A} (e : failure) (o : option A) (a : A) :
  of_option e o = Ok a -> o = Some a.
Proof. destruct o; simpl; congruence. Qed.

Ltac inv_ok :=
  repeat match goal with
  | H : rbind _ _ = Ok _ |- _ =>
      let a := fresh "a" in
      let Ha := fresh "Ha" in
      apply rbind_Ok in H as (a & Ha & H)
  | H : of_option _ _ = Ok _ |- _ => apply of_option_Ok in H
  | H : Ok _ = Ok _ |- _ => injection H as H
  end.

(** ** The loop body, case by case *)

Section Build.
Context `{Host}.

Lemma make_entry_inv (st : State) (origin entry : ref) (e : ZipEntry) (st0 : State) :
  make_entry st origin = Ok (entry, e, st0) ->
  exists o, heap st !! origin = Some o /\
    ((isDirectory o = true /\ entry = origin /\ e = o /\ st0 = st) \/
     (isDirectory o = false /\ entry = length (heap st) /\ e = wrap o /\
      st0 = with_heap (heap st ++ [wrap o]) st)).
Proof.
  unfold make_entry. intros Hm. inv_ok. exists a. split; [done|].
  destruct (isDirectory a); simplify_eq; auto.
Qed.

(** The parent path of an entry name, when it has one. *)
Definition parent_path (entryName : string) : option string :=
  let paths := pop (split entryName) in
  if (length paths =? 0)%nat then None else Some (join paths).

Lemma parent_path_None (s : string) :
  parent_path s = None <-> pop (split s) = [].
Proof.
  unfold parent_path. destruct (pop (split s)); simpl; split; congruence.
Qed.

Lemma parent_path_Some (s p : string) :
  parent_path s = Some p <-> pop (split s) <> [] /\ join (pop (split s)) = p.
Proof.
  unfold parent_path. destruct (pop (split s)) eqn:E; simpl.
  - split; [congruence|]. by intros [? _].
  - split; [intros [= <-]; by split|]. by intros [_ ->].
Qed.

Lemma parent_path_length (s p : string) :
  parent_path s = Some p -> (String.length p < String.length s)%nat.
Proof.
  intros [Hne <-]%parent_path_Some. by apply parent_shorter.
Qed.

Lemma place_entry_inv (st : State) (entry : ref) (e : ZipEntry) (st' : State) :
  place_entry st entry e = Ok st' ->
  (parent_path (entryName e) = None /\
   st' = register_file entry e (with_files (files st ++ [entry]) st)) \/
  (exists p folder f cs,
     parent_path (entryName e) = Some p /\
     lookup_own p (folderMap st) = Some folder /\
     heap st !! folder = Some f /\ children f = Some cs /\
     st' = register_file entry e
             (with_heap (<[folder := set_children (cs ++ [entry]) f]> (heap st)) st)) \/
  (exists p,
     parent_path (entryName e) = Some p /\
     lookup_own p (folderMap st) = None /\ inherited p = false /\
     st' = with_folderMap (assign_own p (length (heap st)) (folderMap st))
             (with_heap (heap st ++ [new_folder [entry] p]) st)).
Proof.
  unfold place_entry, parent_path.
  destruct (length (pop (split (entryName e))) =? 0)%nat eqn:Hlen.
  - intros [= <-]. by left.
  - right. unfold get_prop in *.
    destruct (lookup_own _ (folderMap st)) as [folder|] eqn:Hl.
    + left. unfold push_child in *. inv_ok. subst.
      by exists (join (pop (split (entryName e)))), folder, a0, a1.
    + right. destruct (inherited _) eqn:Hinh; [done|].
      injection H0 as <-. by eexists.
Qed.
End Build.

(** ** The invariant of the two passes *)

Section Invariant.
Context `{Host} (es : list Origin.t).

(** The copy made for a file record of the archive. *)
Definition file_copy (o : ZipEntry) : Prop :=
  exists e, e ∈ es /\ Origin.isDirectory e = false /\ o = wrap (of_origin e).

(** An object without [children]: a record of the archive or a copy. *)
Definition leaf_of (o : ZipEntry) : Prop :=
  (exists e, e ∈ es /\ o = of_origin e) \/ file_copy o.

(** [c] refers to an object whose parent path is [p]. *)
Definition child_of (h : list ZipEntry) (p : string) (c : ref) : Prop :=
  exists oc, h !! c = Some oc /\ parent_path (entryName oc) = Some p.

Record wf (st : State) : Prop := {
  wf_origins : forall i e, es !! i = Some e -> heap st !! i = Some (of_origin e);
  wf_leaves : forall r o, heap st !! r = Some o -> children o = None -> leaf_of o;
  wf_folders : forall r o cs,
    heap st !! r = Some o -> children o = Some cs ->
    o = new_folder cs (entryName o) /\
    lookup_own (entryName o) (folderMap st) = Some r /\
    NoDup cs /\
    forall c, c ∈ cs -> child_of (heap st) (entryName o) c;
  wf_folderMap : forall k r,
    lookup_own k (folderMap st) = Some r ->
    inherited k = false /\
    exists o, heap st !! r = Some o /\ entryName o = k /\ is_Some (children o);
  wf_folder_keys : NoDup (keys (folderMap st));
  wf_file_keys : NoDup (keys (fileMap st));
  wf_fileMap : forall k r,
    lookup_own k (fileMap st) = Some r ->
    exists e, e ∈ es /\ Origin.isDirectory e = false /\
              Origin.entryName e = k /\ heap st !! r = Some (wrap (of_origin e));
  wf_files_NoDup : NoDup (files st);
  wf_files : forall r, r ∈ files st ->
    exists o, heap st !! r = Some o /\ parent_path (entryName o) = None
}.

(** [r] already sits in [files] or in some [children]. *)
Definition placed (st : State) (r : ref) : Prop :=
  r ∈ files st \/
  exists f o cs, heap st !! f = Some o /\ children o = Some cs /\ r ∈ cs.

Lemma placed_valid (st : State) (r : ref) :
  wf st -> placed st r -> (r < length (heap st))%nat.
Proof.
  intros Hwf [Hr|(f & o & cs & Hf & Hcs & Hr)].
  - destruct (wf_files _ Hwf r Hr) as (o & Ho & _). by eapply lookup_lt_Some.
  - destruct (wf_folders _ Hwf f o cs Hf Hcs) as (_ & _ & _ & Hch).
    destruct (Hch r Hr) as (oc & Hoc & _). by eapply lookup_lt_Some.
Qed.

Lemma leaf_children (o : ZipEntry) : leaf_of o -> children o = None.
Proof. by intros [(e & _ & ->)|(e & _ & _ & ->)]. Qed.

Lemma child_of_mono (h h' : list ZipEntry) (p : string) (c : ref) :
  (forall r o, h !! r = Some o ->
     exists o', h' !! r = Some o' /\ entryName o' = entryName o) ->
  child_of h p c -> child_of h' p c.
Proof.
  intros Hh (oc & Hoc & Hp). destruct (Hh c oc Hoc) as (o' & Ho' & He).
  exists o'. by rewrite He.
Qed.

Lemma child_of_app (h : list ZipEntry) (o : ZipEntry) (p : string) (c : ref) :
  child_of h p c -> child_of (h ++ [o]) p c.
Proof.
  apply child_of_mono. intros r o0 Hr. exists o0.
  split; [by apply lookup_app_l_Some|done].
Qed.

Lemma child_of_insert (h : list ZipEntry) (f : ref) (o o' : ZipEntry) (p : string) (c : ref) :
  h !! f = Some o -> entryName o' = entryName o ->
  child_of h p c -> child_of (<[f := o']> h) p c.
Proof.
  intros Hf He. apply child_of_mono. intros r o0 Hr.
  destruct (decide (f = r)) as [->|Hne].
  - exists o'. rewrite list_lookup_insert_eq by (by eapply lookup_lt_Some).
    split; [done|]. by simplify_eq.
  - exists o0. by rewrite list_lookup_insert_ne.
Qed.

(** A folder is never its own child, nor a record of the archive. *)
Lemma parent_path_irrefl (s : string) : parent_path s <> Some s.
Proof. intros Hs%parent_path_length. lia. Qed.

(** *** Allocating the copy of a file record *)
Lemma wf_alloc (st : State) (o : ZipEntry) :
  wf st -> leaf_of o -> wf (with_heap (heap st ++ [o]) st).
Proof.
  intros Hwf Hleaf. pose proof (leaf_children o Hleaf) as Hnone.
  constructor; simpl.
  - intros i e Hi. apply lookup_app_l_Some. by apply Hwf.
  - intros r o0 [[_ Hr]|[_ <-]]%lookup_snoc_Some Hc; [|done].
    by eapply wf_leaves.
  - intros r o0 cs [[_ Hr]|[_ <-]]%lookup_snoc_Some Hc; [|congruence].
    destruct (wf_folders _ Hwf r o0 cs Hr Hc) as (? & ? & ? & Hch).
    split_and!; [done..|]. intros c Hin. by apply child_of_app, Hch.
  - intros k r Hk. destruct (wf_folderMap _ Hwf k r Hk) as (? & o0 & ? & ? & ?).
    split; [done|]. exists o0. split; [by apply lookup_app_l_Some|done].
  - apply Hwf.
  - apply Hwf.
  - intros k r Hk. destruct (wf_fileMap _ Hwf k r Hk) as (e & ? & ? & ? & ?).
    exists e. split_and!; [done..|]. by apply lookup_app_l_Some.
  - apply Hwf.
  - intros r Hr. destruct (wf_files _ Hwf r Hr) as (o0 & ? & ?).
    exists o0. split; [by apply lookup_app_l_Some|done].
Qed.

(** *** [files.push(entry)] *)
Lemma wf_push_root (st : State) (entry : ref) (e : ZipEntry) :
  wf st -> heap st !! entry = Some e -> parent_path (entryName e) = None ->
  entry ∉ files st ->
  wf (with_files (files st ++ [entry]) st).
Proof.
  intros Hwf He Hp Hnin. constructor; simpl; try apply Hwf.
  - apply NoDup_app. split_and!; [apply Hwf| |apply NoDup_singleton].
    intros x Hx ->%list_elem_of_singleton. done.
  - intros r [Hr| ->%list_elem_of_singleton]%elem_of_app.
    + by apply Hwf.
    + by exists e.
Qed.

(** *** [fileMap[entry.entryName] = entry] *)
Lemma wf_register (st : State) (entry : ref) (e : ZipEntry) :
  wf st -> heap st !! entry = Some e ->
  (isDirectory e = false -> file_copy e) ->
  wf (register_file entry e st).
Proof.
  intros Hwf He Hcopy. unfold register_file.
  destruct (isDirectory e) eqn:Hd; [done|].
  destruct (Hcopy eq_refl) as (e0 & Hin & Hfile & ->).
  constructor; simpl; try apply Hwf.
  - apply keys_set_prop_NoDup, Hwf.
  - intros k r. unfold set_prop.
    destruct (String.eqb _ "__proto__"); [apply Hwf|].
    destruct (decide (Origin.entryName e0 = k)) as [<-|Hne].
    + rewrite lookup_assign_eq. intros [= <-]. by exists e0.
    + rewrite lookup_assign_ne by done. apply Hwf.
Qed.

(** *** [folderMap[parentPath].children.push(entry)] *)
Lemma wf_push_child (st : State) (folder entry : ref) (f e : ZipEntry) (cs : list ref) :
  wf st -> heap st !! folder = Some f -> children f = Some cs ->
  heap st !! entry = Some e -> parent_path (entryName e) = Some (entryName f) ->
  entry ∉ cs ->
  wf (with_heap (<[folder := set_children (cs ++ [entry]) f]> (heap st)) st).
Proof.
  intros Hwf Hf Hcs He Hp Hnin.
  assert (Hlt : (folder < length (heap st))%nat) by (by eapply lookup_lt_Some).
  destruct (wf_folders _ Hwf folder f cs Hf Hcs) as (Hshape & Hreg & Hnd & Hch).
  assert (Hkeep : forall p c, child_of (heap st) p c ->
            child_of (<[folder := set_children (cs ++ [entry]) f]> (heap st)) p c).
  { intros p c. by apply child_of_insert with (o := f). }
  constructor; simpl; try apply Hwf.
  - intros i e0 Hi. pose proof (wf_origins _ Hwf i e0 Hi) as Ho.
    rewrite list_lookup_insert_ne; [done|]. intros ->. by simplify_eq.
  - intros r o [(-> & <- & _)|[Hne Hr]]%list_lookup_insert_Some Hc; [done|].
    by eapply wf_leaves.
  - intros r o cs' [(-> & <- & _)|[Hne Hr]]%list_lookup_insert_Some Hc.
    + simpl in Hc. injection Hc as <-. simpl. split_and!.
      * by rewrite Hshape at 1.
      * done.
      * apply NoDup_app. split_and!; [done| |apply NoDup_singleton].
        intros x Hx ->%list_elem_of_singleton. done.
      * intros c [Hc| ->%list_elem_of_singleton]%elem_of_app.
        -- by apply Hkeep, Hch.
        -- apply Hkeep. by exists e.
    + destruct (wf_folders _ Hwf r o cs' Hr Hc) as (? & ? & ? & Hch').
      split_and!; [done..|]. intros c Hin. by apply Hkeep, Hch'.
  - intros k r Hk. destruct (wf_folderMap _ Hwf k r Hk) as (? & o0 & Ho0 & ? & ?).
    split; [done|]. destruct (decide (folder = r)) as [->|Hne].
    + exists (set_children (cs ++ [entry]) f).
      rewrite list_lookup_insert_eq by done. simplify_eq. by split_and!.
    + exists o0. by rewrite list_lookup_insert_ne.
  - intros k r Hk. destruct (wf_fileMap _ Hwf k r Hk) as (e0 & ? & ? & ? & Hr).
    exists e0. split_and!; [done..|].
    rewrite list_lookup_insert_ne; [done|]. intros ->. by simplify_eq.
  - intros r Hr. destruct (wf_files _ Hwf r Hr) as (o0 & Ho0 & Hp0).
    destruct (decide (folder = r)) as [->|Hne].
    + exists (set_children (cs ++ [entry]) f).
      rewrite list_lookup_insert_eq by done. by simplify_eq.
    + exists o0. by rewrite list_lookup_insert_ne.
Qed.

(** *** [folderMap[parentPath] = { ..., children: [entry] }] *)
Lemma wf_new_folder (st : State) (p : string) (entry : ref) (e : ZipEntry) :
  wf st -> lookup_own p (folderMap st) = None -> inherited p = false ->
  heap st !! entry = Some e -> parent_path (entryName e) = Some p ->
  wf (with_folderMap (assign_own p (length (heap st)) (folderMap st))
        (with_heap (heap st ++ [new_folder [entry] p]) st)).
Proof.
  intros Hwf Hnone Hinh He Hp.
  constructor; simpl; try apply Hwf.
  - intros i e0 Hi. apply lookup_app_l_Some. by apply Hwf.
  - intros r o [[_ Hr]|[_ <-]]%lookup_snoc_Some Hc; [|done].
    by eapply wf_leaves.
  - intros r o cs [[_ Hr]|[-> <-]]%lookup_snoc_Some Hc.
    + destruct (wf_folders _ Hwf r o cs Hr Hc) as (? & Hreg & ? & Hch).
      split_and!; [done| |done|].
      * rewrite lookup_assign_ne; [done|]. intros Heq. congruence.
      * intros c Hin. by apply child_of_app, Hch.
    + simpl in Hc. injection Hc as <-. simpl. split_and!.
      * done.
      * apply lookup_assign_eq.
      * apply NoDup_singleton.
      * intros c ->%list_elem_of_singleton. apply child_of_app. by exists e.
  - intros k r. destruct (decide (p = k)) as [<-|Hne].
    + rewrite lookup_assign_eq. intros [= <-]. split; [done|].
      exists (new_folder [entry] p). rewrite lookup_app_r by done.
      rewrite Nat.sub_diag. by split_and!.
    + rewrite lookup_assign_ne by done. intros Hk.
      destruct (wf_folderMap _ Hwf k r Hk) as (? & o0 & ? & ? & ?).
      split; [done|]. exists o0. split; [by apply lookup_app_l_Some|done].
  - apply keys_assign_NoDup, Hwf.
  - intros k r Hk. destruct (wf_fileMap _ Hwf k r Hk) as (e0 & ? & ? & ? & ?).
    exists e0. split_and!; [done..|]. by apply lookup_app_l_Some.
  - intros r Hr. destruct (wf_files _ Hwf r Hr) as (o0 & ? & ?).
    exists o0. split; [by apply lookup_app_l_Some|done].
Qed.
(** *** What a step never undoes *)

Definition grows (st st' : State) : Prop :=
  (forall r o, heap st !! r = Some o ->
     match children o with
     | None => heap st' !! r = Some o
     | Some cs => exists cs', heap st' !! r = Some (set_children cs' o) /\ cs ⊆ cs'
     end) /\
  (forall k r, lookup_own k (folderMap st) = Some r ->
               lookup_own k (folderMap st') = Some r) /\
  (forall k, k ∈ keys (fileMap st) -> k ∈ keys (fileMap st')) /\
  (forall r, r ∈ files st -> r ∈ files st').

Lemma set_children_id (o : ZipEntry) (cs : list ref) :
  children o = Some cs -> set_children cs o = o.
Proof. destruct o; simpl; by intros ->. Qed.

Lemma grows_heap (st st' : State) :
  (forall r o, heap st !! r = Some o -> heap st' !! r = Some o) ->
  forall r o, heap st !! r = Some o ->
    match children o with
    | None => heap st' !! r = Some o
    | Some cs => exists cs', heap st' !! r = Some (set_children cs' o) /\ cs ⊆ cs'
    end.
Proof.
  intros Hh r o Hr. destruct (children o) as [cs|] eqn:Hc; [|auto].
  exists cs. rewrite set_children_id by done. auto.
Qed.

Lemma grows_refl (st : State) : grows st st.
Proof. split_and!; [by apply grows_heap|done..]. Qed.

Lemma grows_trans (st1 st2 st3 : State) :
  grows st1 st2 -> grows st2 st3 -> grows st1 st3.
Proof.
  intros (Hh1 & Hf1 & Hk1 & Hr1) (Hh2 & Hf2 & Hk2 & Hr2). split_and!; [|by auto..].
  intros r o Hr. specialize (Hh1 r o Hr).
  destruct (children o) as [cs|] eqn:Hc.
  - destruct Hh1 as (cs' & Hr' & Hsub). specialize (Hh2 _ _ Hr'). simpl in Hh2.
    destruct Hh2 as (cs'' & Hr'' & Hsub'). exists cs''. split; [done|by etrans].
  - specialize (Hh2 _ _ Hh1). by rewrite Hc in Hh2.
Qed.

Lemma grows_length (st st' : State) :
  grows st st' -> (length (heap st) <= length (heap st'))%nat.
Proof.
  intros (Hh & _). destruct (heap st) as [|o0 h] eqn:E using rev_ind; [simpl; lia|].
  clear IHh. assert (Hl : (h ++ [o0]) !! length h = Some o0).
  { by rewrite lookup_app_r, Nat.sub_diag. }
  specialize (Hh _ _ Hl). rewrite length_app. simpl.
  destruct (children o0).
  - destruct Hh as (? & Hh%lookup_lt_Some & _). lia.
  - apply lookup_lt_Some in Hh. lia.
Qed.

Lemma grows_alloc (st : State) (o : ZipEntry) :
  grows st (with_heap (heap st ++ [o]) st).
Proof.
  split_and!; [|done..]. apply grows_heap. intros r o0 Hr.
  by apply lookup_app_l_Some.
Qed.

Lemma grows_register (st : State) (entry : ref) (e : ZipEntry) :
  grows st (register_file entry e st).
Proof.
  unfold register_file. destruct (isDirectory e); [apply grows_refl|].
  split_and!; [by apply grows_heap|done| |done].
  intros k Hk. by apply keys_set_prop_elem.
Qed.

Lemma grows_push_root (st : State) (entry : ref) :
  grows st (with_files (files st ++ [entry]) st).
Proof.
  split_and!; [by apply grows_heap|done..|].
  intros r Hr. simpl. apply elem_of_app. auto.
Qed.

Lemma grows_push_child (st : State) (folder entry : ref) (f : ZipEntry) (cs : list ref) :
  heap st !! folder = Some f -> children f = Some cs ->
  grows st (with_heap (<[folder := set_children (cs ++ [entry]) f]> (heap st)) st).
Proof.
  intros Hf Hcs. split_and!; [|done..]. intros r o Hr. simpl.
  destruct (decide (folder = r)) as [->|Hne].
  - simplify_eq. rewrite Hcs. exists (cs ++ [entry]).
    rewrite list_lookup_insert_eq by (by eapply lookup_lt_Some).
    split; [done|]. by apply list_subseteq_app_l.
  - destruct (children o) as [cs0|] eqn:Hc.
    + exists cs0. rewrite list_lookup_insert_ne by done.
      by rewrite set_children_id.
    + by rewrite list_lookup_insert_ne.
Qed.

Lemma grows_new_folder (st : State) (p : string) (o : ZipEntry) :
  lookup_own p (folderMap st) = None ->
  grows st (with_folderMap (assign_own p (length (heap st)) (folderMap st))
              (with_heap (heap st ++ [o]) st)).
Proof.
  intros Hnone. split_and!; [|simpl|done..].
  - apply grows_heap. intros r o0 Hr. by apply lookup_app_l_Some.
  - intros k r Hk. rewrite lookup_assign_ne; [done|]. intros ->. congruence.
Qed.

Lemma placed_ext (st st' : State) (x : ref) :
  heap st' = heap st -> files st' = files st -> placed st' x <-> placed st x.
Proof. unfold placed. by intros -> ->. Qed.

Lemma placed_register (st : State) (entry : ref) (e : ZipEntry) (x : ref) :
  placed (register_file entry e st) x <-> placed st x.
Proof.
  apply placed_ext; unfold register_file; by destruct (isDirectory e).
Qed.

(** *** The first statement of the body *)

(** What the loop is run on: a record of the archive or a folder. *)
Definition origin_ok (st : State) (origin : ref) : Prop :=
  (origin < length es)%nat \/
  exists o, heap st !! origin = Some o /\ is_Some (children o).

Lemma make_entry_step (st : State) (origin entry : ref) (e : ZipEntry) (st0 : State) :
  wf st -> origin_ok st origin -> make_entry st origin = Ok (entry, e, st0) ->
  wf st0 /\ grows st st0 /\
  heap st0 !! entry = Some e /\
  (isDirectory e = false -> file_copy e) /\
  (forall x, placed st0 x <-> placed st x) /\
  files st0 = files st /\ fileMap st0 = fileMap st /\ folderMap st0 = folderMap st /\
  (exists o, heap st !! origin = Some o /\ entryName e = entryName o /\
             isDirectory e = isDirectory o /\
             ((entry = origin /\ e = o /\ isDirectory o = true) \/
              (entry = length (heap st) /\ e = wrap o /\ isDirectory o = false))).
Proof.
  intros Hwf Hok (o & Ho & [(Hd & -> & -> & ->)|(Hd & -> & -> & ->)])%make_entry_inv.
  - split_and!; try done; [apply grows_refl|congruence|]. exists o. split_and!; auto.
  - assert (Hcopy : file_copy (wrap o)).
    { destruct Hok as [Hlt|(o' & Ho' & Hc)].
      - destruct (lookup_lt_is_Some_2 es origin Hlt) as [e0 He0].
        pose proof (wf_origins _ Hwf _ _ He0) as Ho0.
        exists e0. split_and!.
        + by eapply list_elem_of_lookup_2.
        + simplify_eq. done.
        + by simplify_eq.
      - assert (o' = o) as -> by congruence. destruct Hc as [cs Hc].
        destruct (wf_folders _ Hwf _ _ _ Ho Hc) as (Hshape & _).
        rewrite Hshape in Hd. done. }
    split_and!; simpl; try done.
    + apply wf_alloc; [done|]. by right.
    + apply grows_alloc.
    + by rewrite lookup_app_r, Nat.sub_diag.
    + intros x. unfold placed. simpl. split.
      * intros [?|(f & o' & cs & [[_ Hf]|[_ <-]]%lookup_snoc_Some & Hc & Hx)];
          [by left| |done]. right. by exists f, o', cs.
      * intros [?|(f & o' & cs & Hf & Hc & Hx)]; [by left|].
        right. exists f, o', cs. split; [by apply lookup_app_l_Some|done].
    + exists o. split_and!; auto.
Qed.

(** *** The rest of the body *)
Lemma place_entry_step (st : State) (entry : ref) (e : ZipEntry) (st' : State) :
  wf st -> heap st !! entry = Some e ->
  (isDirectory e = false -> file_copy e) ->
  ~ placed st entry ->
  place_entry st entry e = Ok st' ->
  wf st' /\ grows st st' /\
  placed st' entry /\
  (forall x, placed st' x -> placed st x \/ x = entry) /\
  (forall p, parent_path (entryName e) = Some p ->
             is_Some (lookup_own p (folderMap st'))) /\
  (isDirectory e = false -> entryName e <> "__proto__" ->
   (forall p, parent_path (entryName e) = Some p ->
              is_Some (lookup_own p (folderMap st))) ->
   lookup_own (entryName e) (fileMap st') = Some entry).
Proof.
  assert (Hreg : forall st0, isDirectory e = false -> entryName e <> "__proto__" ->
            lookup_own (entryName e) (fileMap (register_file entry e st0)) = Some entry).
  { intros st0 Hd Hk. unfold register_file, set_prop. rewrite Hd. simpl.
    apply String.eqb_neq in Hk. rewrite Hk. apply lookup_assign_eq. }
  intros Hwf He Hcopy Hnp
    [(Hp & ->)|[(p & folder & f & cs & Hp & Hl & Hf & Hcs & ->)
               |(p & Hp & Hl & Hinh & ->)]]%place_entry_inv.
  - split_and!.
    + apply wf_register; [|done..]. apply wf_push_root with (e := e); try done.
      intros Hin. apply Hnp. by left.
    + eapply grows_trans; [apply grows_push_root|apply grows_register].
    + apply placed_register. left. simpl. apply elem_of_app. right. left.
    + intros x Hx%placed_register. destruct Hx as [Hx|Hx]; simpl in Hx.
      * apply elem_of_app in Hx as [Hx| ->%list_elem_of_singleton]; [|by right].
        left. by left.
      * left. by right.
    + intros p. by rewrite Hp.
    + intros Hd Hk _. by apply Hreg.
  - destruct (wf_folderMap _ Hwf _ _ Hl) as (_ & f' & Hf' & Hname & _).
    assert (f' = f) as -> by congruence.
    assert (Hne : folder <> entry).
    { intros ->. simplify_eq. by apply parent_path_irrefl in Hp. }
    assert (Hlt : (folder < length (heap st))%nat) by (by eapply lookup_lt_Some).
    split_and!.
    + apply wf_register; [|simpl; by rewrite list_lookup_insert_ne|done].
      apply wf_push_child with (e := e); try done; [congruence|].
      intros Hin. apply Hnp. right. by exists folder, f, cs.
    + eapply grows_trans; [by apply grows_push_child|apply grows_register].
    + apply placed_register. right.
      exists folder, (set_children (cs ++ [entry]) f), (cs ++ [entry]). simpl.
      rewrite list_lookup_insert_eq by done. split_and!; [done..|].
      apply elem_of_app. right. left.
    + intros x Hx%placed_register.
      destruct Hx as [Hx|(g & o & cs' & Hg & Hc & Hx)]; simpl in *; [left; by left|].
      apply list_lookup_insert_Some in Hg as [(<- & <- & _)|[Hne' Hg]].
      * simpl in Hc. injection Hc as <-.
        apply elem_of_app in Hx as [Hx| ->%list_elem_of_singleton]; [|by right].
        left. right. by exists folder, f, cs.
      * left. right. by exists g, o, cs'.
    + intros p' Hp'. simpl. assert (p' = p) as -> by congruence. unfold register_file.
      destruct (isDirectory e); simpl; by rewrite Hl.
    + intros Hd Hk _. by apply Hreg.
  - split_and!.
    + by apply wf_new_folder with (e := e).
    + by apply grows_new_folder.
    + right. exists (length (heap st)), (new_folder [entry] p), [entry]. simpl.
      rewrite lookup_app_r, Nat.sub_diag by done. split_and!; [done..|left].
    + intros x [Hx|(g & o & cs' & Hg & Hc & Hx)]; simpl in *; [left; by left|].
      apply lookup_snoc_Some in Hg as [[_ Hg]|[_ <-]].
      * left. right. by exists g, o, cs'.
      * simpl in Hc. injection Hc as <-. apply list_elem_of_singleton in Hx. by right.
    + intros p' Hp'. simpl. assert (p' = p) as -> by congruence.
      rewrite lookup_assign_eq. eauto.
    + intros _ _ Hreg'. destruct (Hreg' p Hp) as [? ?]. congruence.
Qed.

(** *** One iteration *)
Lemma parseFlatItem_step (st : State) (origin : ref) (st' : State) :
  wf st -> origin_ok st origin -> ~ placed st origin ->
  parseFlatItem st origin = Ok st' ->
  wf st' /\ grows st st' /\
  exists entry o,
    heap st !! origin = Some o /\
    ((entry = origin /\ isDirectory o = true) \/
     (entry = length (heap st) /\ isDirectory o = false /\
      heap st' !! entry = Some (wrap o))) /\
    placed st' entry /\
    (forall x, placed st' x -> placed st x \/ x = entry) /\
    (forall p, parent_path (entryName o) = Some p ->
               is_Some (lookup_own p (folderMap st'))) /\
    (isDirectory o = false -> entryName o <> "__proto__" ->
     (forall p, parent_path (entryName o) = Some p ->
                is_Some (lookup_own p (folderMap st))) ->
     lookup_own (entryName o) (fileMap st') = Some entry).
Proof.
  intros Hwf Hok Hnp Hstep. unfold parseFlatItem in Hstep.
  apply rbind_Ok in Hstep as ([[entry e] st0] & Hmake & Hplace).
  destruct (make_entry_step _ _ _ _ _ Hwf Hok Hmake)
    as (Hwf0 & Hg0 & He & Hcopy & Hpl & Hfiles & HfM & HFM & o & Ho & Hname & Hdir & Hcase).
  assert (Hnp0 : ~ placed st0 entry).
  { rewrite Hpl. destruct Hcase as [(-> & _)|(-> & _)]; [done|].
    intros Hx%placed_valid; [lia|done]. }
  destruct (place_entry_step _ _ _ _ Hwf0 He Hcopy Hnp0 Hplace)
    as (Hwf' & Hg' & Hplaced & Honly & Hparent & Hreg).
  split_and!; [done|by eapply grows_trans|].
  exists entry, o. split_and!; try done.
  - destruct Hcase as [(-> & -> & Hd)|(-> & -> & Hd)]; [by left|right].
    split_and!; [done..|]. destruct Hg' as (Hh & _). by apply (Hh _ _ He).
  - intros x Hx. destruct (Honly x Hx) as [Hx'|]; [|by right]. left. by apply Hpl.
  - by rewrite <- Hname.
  - rewrite <- Hname, <- Hdir, <- HFM. done.
Qed.
(** *** The loop *)

(** The references still to be visited are distinct and none of them
    has been put anywhere yet. *)
Definition todo_ok (st : State) (todo : list ref) : Prop :=
  NoDup todo /\ forall r, r ∈ todo -> origin_ok st r /\ ~ placed st r.

Lemma origin_ok_valid (st : State) (r : ref) :
  wf st -> origin_ok st r -> (r < length (heap st))%nat.
Proof.
  intros Hwf [Hlt|(o & Ho & _)]; [|by eapply lookup_lt_Some].
  destruct (lookup_lt_is_Some_2 es r Hlt) as [e He].
  eapply lookup_lt_Some. by apply (wf_origins _ Hwf).
Qed.

Lemma origin_ok_grows (st st' : State) (r : ref) :
  grows st st' -> origin_ok st r -> origin_ok st' r.
Proof.
  intros (Hh & _) [Hlt|(o & Ho & [cs Hc])]; [by left|right].
  specialize (Hh _ _ Ho). rewrite Hc in Hh. destruct Hh as (cs' & Hr & _).
  eexists. split; [done|]. simpl. eauto.
Qed.

Lemma parseFlatItems_app (st : State) (l1 l2 : list ref) (st' : State) :
  parseFlatItems st (l1 ++ l2) = Ok st' <->
  exists sta, parseFlatItems st l1 = Ok sta /\ parseFlatItems sta l2 = Ok st'.
Proof.
  revert st. induction l1 as [|x l1 IH]; intros st; simpl.
  - split; [eauto|]. by intros (sta & [= ->] & ?).
  - destruct (parseFlatItem st x) as [stx|]; simpl; [apply IH|].
    split; [done|]. by intros (? & ? & _).
Qed.

Lemma parseFlatItems_wf (st : State) (l1 l2 : list ref) (sta : State) :
  wf st -> todo_ok st (l1 ++ l2) -> parseFlatItems st l1 = Ok sta ->
  wf sta /\ grows st sta /\ todo_ok sta l2 /\
  (forall x, placed sta x ->
     placed st x \/ x ∈ l1 \/ exists o, heap sta !! x = Some o /\ children o = None).
Proof.
  revert st. induction l1 as [|origin l1 IH]; intros st Hwf Htodo; simpl.
  - intros [= <-]. split_and!; [done|apply grows_refl|done|auto].
  - intros Hrun. apply rbind_Ok in Hrun as (st1 & Hstep & Hrun).
    destruct Htodo as [Hnd Hall]. simpl in Hnd. apply NoDup_cons in Hnd as [Hnin Hnd].
    destruct (Hall origin) as [Hok Hnp]; [left|].
    destruct (parseFlatItem_step _ _ _ Hwf Hok Hnp Hstep)
      as (Hwf1 & Hg1 & entry & o & Ho & Hcase & Hplaced & Honly & _).
    assert (Htodo1 : todo_ok st1 (l1 ++ l2)).
    { split; [done|]. intros r Hr. destruct (Hall r) as [Hokr Hnpr]; [by right|].
      split; [by eapply origin_ok_grows|]. intros Hpr.
      destruct (Honly r Hpr) as [?| ->]; [done|].
      destruct Hcase as [(-> & _)|(-> & _)]; [done|].
      pose proof (origin_ok_valid _ _ Hwf Hokr). lia. }
    destruct (IH st1 Hwf1 Htodo1 Hrun) as (Hwfa & Hga & Htodoa & Hpl).
    split_and!; [done|by eapply grows_trans|done|].
    intros x Hx. destruct (Hpl x Hx) as [Hx1|[Hx1|Hx1]].
    + destruct (Honly x Hx1) as [?| ->]; [by left|].
      destruct Hcase as [(-> & _)|(-> & _ & Hnew)].
      * right. left. left.
      * right. right. destruct Hga as (Hh & _). specialize (Hh _ _ Hnew).
        simpl in Hh. eauto.
    + right. left. by right.
    + by right; right.
Qed.

(** *** The two passes *)

Definition initial : State :=
  {| heap := map of_origin es; files := []; fileMap := []; folderMap := [] |}.

Lemma wf_initial : wf initial.
Proof.
  constructor; simpl; try done; try apply NoDup_nil_2.
  - intros i e Hi. change (map of_origin es) with (of_origin <$> es).
    by rewrite list_lookup_fmap, Hi.
  - intros r o Hr _. change (map of_origin es) with (of_origin <$> es) in Hr.
    rewrite list_lookup_fmap in Hr.
    destruct (es !! r) as [e|] eqn:He; [|done]. injection Hr as <-.
    left. exists e. split; [by eapply list_elem_of_lookup_2|done].
  - intros r o cs Hr Hc. change (map of_origin es) with (of_origin <$> es) in Hr.
    rewrite list_lookup_fmap in Hr.
    destruct (es !! r) as [e|]; [|done]. injection Hr as <-. done.
  - intros r Hr. by apply elem_of_nil in Hr.
Qed.

Lemma initial_not_placed (x : ref) : ~ placed initial x.
Proof.
  intros [Hx|(f & o & cs & Hf & Hc & _)]; [by apply elem_of_nil in Hx|].
  simpl in Hf. change (map of_origin es) with (of_origin <$> es) in Hf.
  rewrite list_lookup_fmap in Hf. destruct (es !! f); [|done].
  injection Hf as <-. done.
Qed.

Lemma todo_initial : todo_ok initial (seq 0 (length es)).
Proof.
  split; [apply NoDup_seq|]. intros r [_ Hr]%elem_of_seq.
  split; [left; simpl in Hr; lia|apply initial_not_placed].
Qed.

Lemma folder_values_elem (m : jsobj nat) (r : ref) :
  r ∈ folder_values m <-> exists k, lookup_own k m = Some r.
Proof.
  unfold folder_values. rewrite list_elem_of_omap. split.
  - intros (k & _ & Hk). eauto.
  - intros (k & Hk). exists k. split; [|done].
    apply own_keys_elem, lookup_own_is_Some. eauto.
Qed.

Lemma NoDup_omap_inj {A B} (f : A -> option B) (l : list A) :
  NoDup l ->
  (forall a a' b, a ∈ l -> a' ∈ l -> f a = Some b -> f a' = Some b -> a = a') ->
  NoDup (omap f l).
Proof.
  induction l as [|a l IH]; simpl; intros Hnd Hinj; [apply NoDup_nil_2|].
  apply NoDup_cons in Hnd as [Hnin Hnd].
  assert (Htl : NoDup (omap f l)).
  { apply IH; [done|]. intros a1 a2 b H1 H2. apply Hinj; by right. }
  destruct (f a) as [b|] eqn:Hfa; [|done].
  apply NoDup_cons. split; [|done].
  intros (a' & Ha' & Hfa')%list_elem_of_omap.
  assert (a = a') as <-; [|done].
  apply (Hinj a a' b); [left|by right|done..].
Qed.

Lemma folder_values_NoDup (st : State) :
  wf st -> NoDup (folder_values (folderMap st)).
Proof.
  intros Hwf. apply NoDup_omap_inj.
  - apply own_keys_NoDup, Hwf.
  - intros k k' r _ _ Hk Hk'.
    destruct (wf_folderMap _ Hwf _ _ Hk) as (_ & o & Ho & <- & _).
    destruct (wf_folderMap _ Hwf _ _ Hk') as (_ & o' & Ho' & <- & _).
    congruence.
Qed.

(** After the first pass only objects without [children] have been put
    somewhere, so every folder is still to be visited. *)
Lemma build_inv (st : State) :
  build es = Ok st ->
  exists st1,
    parseFlatItems initial (seq 0 (length es)) = Ok st1 /\
    parseFlatItems st1 (folder_values (folderMap st1)) = Ok st /\
    wf st1 /\ grows initial st1 /\
    todo_ok st1 (folder_values (folderMap st1)) /\
    wf st /\ grows st1 st.
Proof.
  unfold build. intros Hb. apply rbind_Ok in Hb as (st1 & Hp1 & Hp2).
  fold initial in Hp1. exists st1.
  destruct (parseFlatItems_wf initial (seq 0 (length es)) [] st1 wf_initial)
    as (Hwf1 & Hg1 & _ & Hpl1); [rewrite app_nil_r; apply todo_initial|done|].
  assert (Htodo : todo_ok st1 (folder_values (folderMap st1))).
  { split; [by apply folder_values_NoDup|].
    intros r (k & Hk)%folder_values_elem.
    destruct (wf_folderMap _ Hwf1 _ _ Hk) as (_ & o & Ho & _ & Hc).
    split; [right; eauto|]. intros Hpr.
    destruct (Hpl1 r Hpr) as [Hx|[[_ Hx]%elem_of_seq|(o' & Ho' & Hc')]].
    - by apply initial_not_placed in Hx.
    - simpl in Hx. destruct (lookup_lt_is_Some_2 es r) as [e He]; [lia|].
      pose proof (wf_origins _ Hwf1 _ _ He) as Hoe.
      assert (o = of_origin e) as -> by congruence. by destruct Hc.
    - assert (o = o') as -> by congruence. rewrite Hc' in Hc. by destruct Hc. }
  destruct (parseFlatItems_wf st1 (folder_values (folderMap st1)) [] st Hwf1)
    as (Hwf2 & Hg2 & _ & _); [by rewrite app_nil_r|done|].
  by split_and!.
Qed.

Lemma build_wf (st : State) : build es = Ok st -> wf st.
Proof. intros (st1 & _ & _ & _ & _ & _ & Hwf & _)%build_inv. done. Qed.
End Invariant.

(** ** [sum], item by item *)

Definition total (vs : list Z) : Z := foldr Z.add 0 vs.

Lemma total_perm (l l' : list Z) : l ≡ₚ l' -> total l = total l'.
Proof. induction 1; simpl in *; lia. Qed.

Lemma total_app (l l' : list Z) : total (l ++ l') = total l + total l'.
Proof. induction l; simpl; lia. Qed.

(** What one element of the array adds to the accumulator. *)
Definition item_sum (fuel : nat) (h : list ZipEntry) (prop : ZipEntry -> option Z)
    (r : ref) : result Z :=
  let* item := of_option BadRef (h !! r) in
  let* childSize :=
    match children item with
    | Some cs => sum fuel h cs prop
    | None => Ok 0
    end in
  Ok (default 0 (prop item) + childSize).

Definition item_val (fuel : nat) (h : list ZipEntry) (prop : ZipEntry -> option Z)
    (r : ref) : Z :=
  from_result 0 (item_sum fuel h prop r).

Lemma sum_fold (fuel : nat) (h : list ZipEntry) (prop : ZipEntry -> option Z)
    (cs : list ref) (acc : result Z) (v : Z) :
  fold_left (fun (acc : result Z) (r : ref) =>
      let* res := acc in
      let* item := of_option BadRef (h !! r) in
      let value := default 0 (prop item) in
      let* childSize :=
        match children item with
        | Some cs => sum fuel h cs prop
        | None => Ok 0
        end in
      Ok (res + value + childSize)) cs acc = Ok v
  <-> exists a, acc = Ok a /\
        (forall r, r ∈ cs -> exists x, item_sum fuel h prop r = Ok x) /\
        v = a + total (map (item_val fuel h prop) cs).
Proof.
  revert acc. induction cs as [|r cs IH]; intros acc; simpl.
  - split.
    + intros ->. exists v. split_and!; [done| |lia].
      intros r Hr. by apply elem_of_nil in Hr.
    + intros (a & -> & _ & ->). f_equal. lia.
  - rewrite IH. clear IH. unfold item_val at 2. unfold item_sum at 2 3. split.
    + intros (a' & Hstep & Hall & ->). destruct acc as [a|]; [|done].
      simpl in Hstep. destruct (h !! r) as [item|] eqn:Hr; [|done]. simpl in *.
      destruct (match children item with Some _ => _ | None => _ end) as [c|] eqn:Hc;
        [|done].
      simpl in *. injection Hstep as <-. exists a. split_and!; [done| |lia].
      intros r' [->|Hr']%elem_of_cons; [|by apply Hall].
      rewrite Hr. simpl. rewrite Hc. simpl. eauto.
    + intros (a & -> & Hall & ->). destruct (Hall r) as [x Hx]; [left|].
      destruct (h !! r) as [item|] eqn:Hr; [|done]. simpl in *.
      destruct (match children item with Some _ => _ | None => _ end) as [c|] eqn:Hc;
        [|done].
      simpl in *. eexists. split_and!; [done| |lia].
      intros r' Hr'. apply Hall. by right.
Qed.

Lemma sum_S (fuel : nat) (h : list ZipEntry) (prop : ZipEntry -> option Z)
    (cs : list ref) (v : Z) :
  sum (S fuel) h cs prop = Ok v <->
  (forall r, r ∈ cs -> exists x, item_sum fuel h prop r = Ok x) /\
  v = total (map (item_val fuel h prop) cs).
Proof.
  simpl. rewrite sum_fold. split.
  - intros (a & [= <-] & Hall & ->). split; [done|lia].
  - intros (Hall & ->). exists 0. split_and!; [done..|lia].
Qed.

Lemma sum_O (h : list ZipEntry) (prop : ZipEntry -> option Z) (cs : list ref) (v : Z) :
  sum 0 h cs prop <> Ok v.
Proof. done. Qed.

(** ** Objects that differ by the order of [children] and by the size
    strings only *)

Definition sim (o o' : ZipEntry) : Prop :=
  isDirectory o' = isDirectory o /\ name o' = name o /\
  entryName o' = entryName o /\ header o' = header o /\
  originFileSize o' = originFileSize o /\
  originCompressedSize o' = originCompressedSize o /\
  modifyDateTime o' = modifyDateTime o /\
  match children o, children o' with
  | None, None => o' = o
  | Some cs, Some cs' => cs' ≡ₚ cs
  | _, _ => False
  end.

Lemma sim_refl (o : ZipEntry) : sim o o.
Proof. unfold sim. split_and!; try done. by destruct (children o). Qed.

Lemma sim_sym (o o' : ZipEntry) : sim o o' -> sim o' o.
Proof.
  unfold sim. intros (? & ? & ? & ? & ? & ? & ? & Hc). split_and!; try done.
  destruct (children o), (children o'); try done.
Qed.

Lemma sim_trans (o1 o2 o3 : ZipEntry) : sim o1 o2 -> sim o2 o3 -> sim o1 o3.
Proof.
  unfold sim. intros (? & ? & ? & ? & ? & ? & ? & Hc) (? & ? & ? & ? & ? & ? & ? & Hc').
  split_and!; try congruence.
  destruct (children o1), (children o2), (children o3); try done.
  - by etrans.
  - congruence.
Qed.

Definition heap_sim (h h' : list ZipEntry) : Prop := Forall2 sim h h'.

Lemma heap_sim_refl (h : list ZipEntry) : heap_sim h h.
Proof. apply Forall2_same_length_lookup_2; [done|]. intros i x y ? ?. simplify_eq. apply sim_refl. Qed.

Lemma heap_sim_sym (h h' : list ZipEntry) : heap_sim h h' -> heap_sim h' h.
Proof.
  intros Hs. apply Forall2_flip. eapply Forall2_impl; [done|].
  intros x y. apply sim_sym.
Qed.

Lemma heap_sim_trans (h1 h2 h3 : list ZipEntry) :
  heap_sim h1 h2 -> heap_sim h2 h3 -> heap_sim h1 h3.
Proof.
  intros H12 H23. apply Forall2_same_length_lookup_2.
  - by rewrite (Forall2_length _ _ _ H12), (Forall2_length _ _ _ H23).
  - intros i x z Hx Hz.
    destruct (Forall2_lookup_l _ _ _ _ _ H12 Hx) as (y & Hy & Hxy).
    eapply sim_trans; [done|]. by eapply Forall2_lookup_lr.
Qed.

Lemma heap_sim_insert (h h' : list ZipEntry) (r : ref) (o o' : ZipEntry) :
  heap_sim h h' -> h !! r = Some o -> sim o o' -> heap_sim h (<[r := o']> h').
Proof.
  intros Hs Hr Hsim. rewrite <- (list_insert_id h r o Hr).
  by apply Forall2_insert.
Qed.

(** The two properties [sum] is called with. *)
Definition size_prop (prop : ZipEntry -> option Z) : Prop :=
  forall o o', sim o o' -> prop o' = prop o.

Lemma size_prop_raw : size_prop originFileSize.
Proof. by intros o o' (? & ? & ? & ? & ? & ? & ?). Qed.

Lemma size_prop_compressed : size_prop originCompressedSize.
Proof. by intros o o' (? & ? & ? & ? & ? & ? & ?). Qed.

(** [sum] does not see the order of [children] nor the size strings. *)
Lemma sum_sim (prop : ZipEntry -> option Z) (fuel : nat) :
  size_prop prop ->
  forall (h h' : list ZipEntry) (cs cs' : list ref) (v : Z),
    heap_sim h h' -> cs ≡ₚ cs' ->
    sum fuel h cs prop = Ok v -> sum fuel h' cs' prop = Ok v.
Proof.
  intros Hprop. induction fuel as [|fuel IH]; intros h h' cs cs' v Hs Hperm; [done|].
  rewrite !sum_S. intros [Hall ->].
  assert (Hitem : forall r x, item_sum fuel h prop r = Ok x ->
                              item_sum fuel h' prop r = Ok x).
  { intros r x. unfold item_sum. intros Hx.
    destruct (h !! r) as [item|] eqn:Hr; [|done]. simpl in Hx.
    destruct (Forall2_lookup_l _ _ _ _ _ Hs Hr) as (item' & Hr' & Hsim).
    rewrite Hr'. simpl. rewrite (Hprop _ _ Hsim).
    destruct Hsim as (_ & _ & _ & _ & _ & _ & _ & Hc).
    destruct (children item) as [cs0|], (children item') as [cs0'|]; try done.
    destruct (sum fuel h cs0 prop) as [c|] eqn:Hsum; [|done].
    by rewrite (IH h h' cs0 cs0' c Hs (symmetry Hc) Hsum). }
  split.
  - intros r Hr. rewrite <- Hperm in Hr. destruct (Hall r Hr) as [x Hx]. eauto.
  - rewrite <- (total_perm _ _ (Permutation_map (item_val fuel h' prop) Hperm)).
    f_equal. apply map_ext_in. intros r Hr%list_elem_of_In.
    destruct (Hall r Hr) as [x Hx]. unfold item_val. by rewrite Hx, (Hitem r x Hx).
Qed.

(** ** Sorting an array of references *)

Lemma sort_Forall2 {A B} (R : A -> B -> Prop) (cmp : A -> A -> Z) (cmp' : B -> B -> Z)
    (l : list A) (l' : list B) :
  (forall a a' b b', R a a' -> R b b' -> cmp a b = cmp' a' b') ->
  Forall2 R l l' -> Forall2 R (sort cmp l) (sort cmp' l').
Proof.
  intros Hcmp. induction 1 as [|x y l l' Hxy Hl IH]; simpl; [constructor|].
  induction IH as [|a b s s' Hab Hs IHs]; simpl; [by repeat constructor|].
  rewrite <- (Hcmp x y a b) by done.
  destruct (cmp x a <=? 0); by repeat constructor.
Qed.

Lemma Sorted_map {A B} (f : A -> B) (R : B -> B -> Prop) (l : list A) :
  Sorted (fun a b => R (f a) (f b)) l -> Sorted R (map f l).
Proof.
  induction 1 as [|x l Hl IH Hhd]; simpl; constructor; [done|].
  destruct Hhd; simpl; by constructor.
Qed.

Section SortRefs.
Context `{Host}.

Lemma resolve_Ok (h : list ZipEntry) (rs : list ref) (items : list (nat * ZipEntry)) :
  resolve h rs = Ok items <->
  map fst items = rs /\ Forall (fun p => h !! fst p = Some (snd p)) items.
Proof.
  revert items. induction rs as [|r rs IH]; intros items; simpl.
  - split.
    + intros [= <-]. by split.
    + intros [Hm _]. by destruct items.
  - split.
    + intros Hr. inv_ok. subst. apply IH in Ha0 as [<- Hall].
      split; [done|]. by constructor.
    + intros [Hm Hall]. destruct items as [|[r' o] items]; [done|].
      simpl in Hm. injection Hm as -> <-.
      apply Forall_cons in Hall as [Hr Hall]. simpl in Hr. rewrite Hr. simpl.
      assert (Hres : resolve h (map fst items) = Ok items) by (by apply IH).
      by rewrite Hres.
Qed.

Lemma resolve_total (h : list ZipEntry) (rs : list ref) :
  (forall r, r ∈ rs -> is_Some (h !! r)) -> exists items, resolve h rs = Ok items.
Proof.
  induction rs as [|r rs IH]; intros Hall; simpl; [eauto|].
  destruct (Hall r) as [o Ho]; [left|]. rewrite Ho. simpl.
  destruct IH as [items Hi]; [intros r' Hr'; apply Hall; by right|].
  rewrite Hi. simpl. eauto.
Qed.

Definition by_entry (a b : nat * ZipEntry) : Z := sortFiles (snd a) (snd b).

Lemma sort_refs_Ok (h : list ZipEntry) (cs l : list ref) :
  sort_refs h cs = Ok l <->
  exists items, resolve h cs = Ok items /\ l = map fst (sort by_entry items).
Proof.
  unfold sort_refs. split.
  - intros Hs. inv_ok. subst. by exists a.
  - intros (items & -> & ->). done.
Qed.

Lemma sort_refs_perm (h : list ZipEntry) (cs l : list ref) :
  sort_refs h cs = Ok l -> l ≡ₚ cs.
Proof.
  intros (items & [<- _]%resolve_Ok & ->)%sort_refs_Ok.
  apply Permutation_map, sort_perm.
Qed.

Lemma sort_refs_total (h : list ZipEntry) (cs : list ref) :
  (forall r, r ∈ cs -> is_Some (h !! r)) -> exists l, sort_refs h cs = Ok l.
Proof.
  intros [items Hi]%resolve_total. eexists. apply sort_refs_Ok. eauto.
Qed.

Lemma sortFiles_sim (a a' b b' : ZipEntry) :
  sim a a' -> sim b b' -> sortFiles a b = sortFiles a' b'.
Proof.
  intros (Hd & Hn & _) (Hd' & Hn' & _). unfold sortFiles.
  by rewrite Hd, Hn, Hd', Hn'.
Qed.

(** The comparator reads [isDirectory] and [name] only. *)
Lemma sort_refs_sim (h h' : list ZipEntry) (cs l : list ref) :
  heap_sim h h' -> sort_refs h cs = Ok l -> sort_refs h' cs = Ok l.
Proof.
  intros Hs (items & [<- Hall]%resolve_Ok & ->)%sort_refs_Ok.
  assert (Hrel : exists items',
    Forall2 (fun p p' => fst p = fst p' /\ sim (snd p) (snd p')) items items' /\
    Forall (fun p => h' !! fst p = Some (snd p)) items').
  { clear -Hs Hall. induction Hall as [|[r o] items Hr Hall (items' & HF & HA)].
    - exists []. by split.
    - simpl in Hr. destruct (Forall2_lookup_l _ _ _ _ _ Hs Hr) as (o' & Hr' & Hsim).
      exists ((r, o') :: items'). split; by constructor. }
  destruct Hrel as (items' & HF & HA).
  assert (Hfst : map fst items = map fst items').
  { clear -HF. induction HF as [|?????? IH]; simpl; [done|]. f_equal; [tauto|done]. }
  apply sort_refs_Ok. exists items'. split.
  - apply resolve_Ok. by split.
  - assert (HF' : Forall2 (fun p p' => fst p = fst p' /\ sim (snd p) (snd p'))
              (sort by_entry items) (sort by_entry items')).
    { apply sort_Forall2; [|done].
      intros a a' b b' [_ Ha] [_ Hb]. by apply sortFiles_sim. }
    clear -HF'. induction HF' as [|?????? IH]; simpl; [done|]. f_equal; [tauto|done].
Qed.

Lemma sortFiles_total :
  total_comparator localeCompare -> total_comparator sortFiles.
Proof.
  intros Htot a b. unfold sortFiles.
  destruct (isDirectory a), (isDirectory b); simpl; try lia; apply Htot.
Qed.

(** The sorted array, read in the store, is in order. *)
Lemma sort_refs_ordered (h : list ZipEntry) (cs l : list ref) :
  total_comparator localeCompare ->
  sort_refs h cs = Ok l ->
  exists objs, Forall2 (fun r o => h !! r = Some o) l objs /\ ordered sortFiles objs.
Proof.
  intros Htot (items & [<- Hall]%resolve_Ok & ->)%sort_refs_Ok.
  exists (map snd (sort by_entry items)). split.
  - assert (Hall' : Forall (fun p => h !! fst p = Some (snd p)) (sort by_entry items)).
    { rewrite Forall_forall in *. intros p Hp. apply Hall.
      by rewrite <- (sort_perm by_entry items). }
    induction Hall'; simpl; by constructor.
  - apply Sorted_map. apply (sort_ordered by_entry).
    intros a b. apply sortFiles_total, Htot.
Qed.

(** Sorting twice changes nothing. *)
Lemma sort_refs_idem (h : list ZipEntry) (cs l : list ref) :
  total_comparator localeCompare ->
  sort_refs h cs = Ok l -> sort_refs h l = Ok l.
Proof.
  intros Htot (items & [<- Hall]%resolve_Ok & ->)%sort_refs_Ok.
  apply sort_refs_Ok. exists (sort by_entry items). split.
  - apply resolve_Ok. split; [done|].
    rewrite Forall_forall in *. intros p Hp. apply Hall.
    by rewrite <- (sort_perm by_entry items).
  - f_equal. symmetry. apply sort_ordered_id, sort_ordered.
    intros a b. apply sortFiles_total, Htot.
Qed.
End SortRefs.

(** ** The loop over [folderMap] *)

Section Finalize.
Context `{Host} (es : list Origin.t).

Lemma finalize_folder_inv (fuel : nat) (st : State) (key : string) (st' : State) :
  finalize_folder fuel st key = Ok st' <->
  exists element o cs sorted raw comp,
    lookup_own key (folderMap st) = Some element /\
    heap st !! element = Some o /\ children o = Some cs /\
    sort_refs (heap st) cs = Ok sorted /\
    sum fuel (<[element := set_children sorted o]> (heap st)) sorted originFileSize
      = Ok raw /\
    sum fuel (<[element := set_fileSize (prettyBytes (Some raw)) (set_children sorted o)]>
                (heap st)) sorted originCompressedSize = Ok comp /\
    st' = with_heap
            (<[element := set_compressedSize (prettyBytes (Some comp))
                            (set_fileSize (prettyBytes (Some raw))
                               (set_children sorted o))]> (heap st)) st.
Proof.
  unfold finalize_folder. split.
  - intros Hf. inv_ok. rewrite !list_insert_insert_eq in *. subst.
    by eexists _, _, _, _, _, _.
  - intros (element & o & cs & sorted & raw & comp
            & Hl & Ho & Hcs & Hsort & Hraw & Hcomp & ->).
    rewrite Hl. simpl. rewrite Ho. simpl. rewrite Hcs. simpl.
    rewrite Hsort. simpl. rewrite Hraw. simpl. rewrite !list_insert_insert_eq.
    rewrite Hcomp. simpl. by rewrite !list_insert_insert_eq.
Qed.

(** What the loop leaves in place of [o], computed on the store [h0] the
    loop starts from. *)
Definition finished (fuel : nat) (h0 : list ZipEntry) (o o' : ZipEntry) : Prop :=
  match children o with
  | None => o' = o
  | Some cs =>
      exists sorted raw comp,
        sort_refs h0 cs = Ok sorted /\
        sum fuel h0 cs originFileSize = Ok raw /\
        sum fuel h0 cs originCompressedSize = Ok comp /\
        o' = set_compressedSize (prettyBytes (Some comp))
               (set_fileSize (prettyBytes (Some raw)) (set_children sorted o))
  end.

Lemma finished_sim (fuel : nat) (h0 : list ZipEntry) (o o' : ZipEntry) :
  finished fuel h0 o o' -> sim o o'.
Proof.
  unfold finished, sim. destruct (children o) as [cs|] eqn:Hc.
  - intros (sorted & raw & comp & Hs & _ & _ & ->). simpl.
    split_and!; try done. by apply sort_refs_perm in Hs.
  - intros ->. rewrite Hc. by split_and!.
Qed.

(** The state of the loop after the keys [done]. *)
Definition fin_inv (fuel : nat) (st0 : State) (done : list string) (st : State) : Prop :=
  folderMap st = folderMap st0 /\ fileMap st = fileMap st0 /\ files st = files st0 /\
  length (heap st) = length (heap st0) /\
  forall r o0, heap st0 !! r = Some o0 ->
    exists o, heap st !! r = Some o /\
      (entryName o0 ∈ done -> finished fuel (heap st0) o0 o) /\
      (entryName o0 ∉ done -> o = o0).

Lemma fin_inv_sim (fuel : nat) (st0 : State) (done : list string) (st : State) :
  fin_inv fuel st0 done st -> heap_sim (heap st0) (heap st).
Proof.
  intros (_ & _ & _ & Hlen & Hobj). apply Forall2_same_length_lookup_2; [done|].
  intros r o0 o Hr0 Hr. destruct (Hobj r o0 Hr0) as (o' & Hr' & Hin & Hnin).
  assert (o' = o) as -> by congruence.
  destruct (decide (entryName o0 ∈ done)) as [Hd|Hd].
  - eapply finished_sim. by apply Hin.
  - rewrite (Hnin Hd). apply sim_refl.
Qed.

Lemma finalize_folder_step (fuel : nat) (st0 : State) (done : list string)
    (st : State) (key : string) (st' : State) :
  wf es st0 -> fin_inv fuel st0 done st -> key ∉ done ->
  finalize_folder fuel st key = Ok st' ->
  fin_inv fuel st0 (done ++ [key]) st'.
Proof.
  intros Hwf Hinv Hkey
    (element & o & cs & sorted & raw & comp & Hl & Ho & Hcs & Hsort & Hraw & Hcomp & ->)
      %finalize_folder_inv.
  pose proof (fin_inv_sim _ _ _ _ Hinv) as Hsim.
  destruct Hinv as (HFM & HfM & Hfiles & Hlen & Hobj).
  rewrite HFM in Hl.
  destruct (wf_folderMap _ _ Hwf _ _ Hl) as (_ & o0 & Ho0 & Hname & _).
  destruct (Hobj _ _ Ho0) as (o' & Ho' & _ & Hsame).
  assert (o' = o) as -> by congruence.
  rewrite Hname in Hsame. specialize (Hsame Hkey). subst o.
  assert (Hperm : sorted ≡ₚ cs) by (by eapply sort_refs_perm).
  assert (Hfin : finished fuel (heap st0) o0
            (set_compressedSize (prettyBytes (Some comp))
               (set_fileSize (prettyBytes (Some raw)) (set_children sorted o0)))).
  { unfold finished. rewrite Hcs. exists sorted, raw, comp. split_and!; [|..|done].
    - eapply sort_refs_sim; [|done]. by apply heap_sim_sym.
    - eapply (sum_sim _ _ size_prop_raw); [|exact Hperm|exact Hraw].
      apply heap_sim_sym. eapply heap_sim_insert; [done..|].
      unfold sim. simpl. rewrite Hcs. by split_and!.
    - eapply (sum_sim _ _ size_prop_compressed); [|exact Hperm|exact Hcomp].
      apply heap_sim_sym. eapply heap_sim_insert; [done..|].
      unfold sim. simpl. rewrite Hcs. by split_and!. }
  split_and!; simpl; try done; [by rewrite length_insert|].
  intros r o1 Hr1. destruct (decide (element = r)) as [->|Hne].
  - assert (o1 = o0) as -> by congruence.
    eexists. rewrite list_lookup_insert_eq by (by eapply lookup_lt_Some).
    split_and!; [done|done|].
    intros Hn. destruct Hn. rewrite Hname. apply elem_of_app. right. left.
  - destruct (Hobj _ _ Hr1) as (o1' & Hr1' & Hin & Hnin). exists o1'.
    rewrite list_lookup_insert_ne by done. split_and!; [done| |].
    + intros [Hd|Heq%list_elem_of_singleton]%elem_of_app; [by apply Hin|].
      destruct (children o1) as [cs1|] eqn:Hc1.
      * destruct (wf_folders _ _ Hwf _ _ _ Hr1 Hc1) as (_ & Hreg & _).
        rewrite Heq in Hreg. congruence.
      * rewrite <- Heq in Hkey. rewrite (Hnin Hkey). unfold finished. by rewrite Hc1.
    + intros Hn. apply Hnin. intros Hd. apply Hn. apply elem_of_app. by left.
Qed.

Lemma finalize_folders_steps (fuel : nat) (st0 : State) (keys done : list string)
    (st st' : State) :
  wf es st0 -> fin_inv fuel st0 done st -> NoDup (done ++ keys) ->
  finalize_folders fuel st keys = Ok st' ->
  fin_inv fuel st0 (done ++ keys) st'.
Proof.
  intros Hwf. revert done st. induction keys as [|key keys IH]; intros done st Hinv Hnd; simpl.
  - intros [= <-]. by rewrite app_nil_r.
  - intros Hrun. apply rbind_Ok in Hrun as (st1 & Hstep & Hrun).
    replace (done ++ key :: keys) with ((done ++ [key]) ++ keys) in *
      by (by rewrite <- app_assoc).
    apply (IH _ st1); [|done..].
    eapply finalize_folder_step; [done..| |done].
    apply NoDup_app in Hnd as [Hnd _]. apply NoDup_app in Hnd as (_ & Hd & _).
    intros Hin. apply (Hd key Hin). left.
Qed.

(** The result of the loop and of the last sort, from the state the
    two passes leave. *)
Lemma finalize_spec (fuel : nat) (st0 r : State) :
  wf es st0 -> finalize fuel st0 = Ok r ->
  folderMap r = folderMap st0 /\ fileMap r = fileMap st0 /\
  sort_refs (heap st0) (files st0) = Ok (files r) /\
  Forall2 (finished fuel (heap st0)) (heap st0) (heap r).
Proof.
  intros Hwf Hfin. unfold finalize in Hfin.
  apply rbind_Ok in Hfin as (st1 & Hloop & Hfin).
  apply rbind_Ok in Hfin as (sorted & Hsort & [= <-]).
  assert (Hinv0 : fin_inv fuel st0 [] st0).
  { split_and!; try done. intros r o0 Hr. exists o0. split_and!; [done| |done].
    intros Hin. by apply elem_of_nil in Hin. }
  pose proof (finalize_folders_steps fuel st0 (own_keys (folderMap st0)) [] st0 st1
                Hwf Hinv0 (own_keys_NoDup _ (wf_folder_keys _ _ Hwf)) Hloop) as Hinv.
  simpl in Hinv. pose proof (fin_inv_sim _ _ _ _ Hinv) as Hsim.
  destruct Hinv as (HFM & HfM & Hfiles & Hlen & Hobj). simpl.
  split_and!; [done..| |].
  - rewrite <- Hfiles. eapply sort_refs_sim; [|done]. by apply heap_sim_sym.
  - apply Forall2_same_length_lookup_2; [done|]. intros i o0 o Hi0 Hi.
    destruct (Hobj _ _ Hi0) as (o' & Hi' & Hin & Hnin).
    assert (o' = o) as -> by congruence.
    destruct (children o0) as [cs|] eqn:Hc.
    + apply Hin. apply own_keys_elem, lookup_own_is_Some.
      destruct (wf_folders _ _ Hwf _ _ _ Hi0 Hc) as (_ & Hreg & _). eauto.
    + destruct (decide (entryName o0 ∈ own_keys (folderMap st0))) as [Hd|Hd].
      * by apply Hin.
      * rewrite (Hnin Hd). unfold finished. by rewrite Hc.
Qed.
End Finalize.

(** ** The whole function *)

Section Parse.
Context `{Host}.

Lemma parse_inv (fuel : nat) (es : list Origin.t) (r : State) :
  parseZipAsTree fuel es = Ok r ->
  exists st,
    build es = Ok st /\ wf es st /\
    folderMap r = folderMap st /\ fileMap r = fileMap st /\
    sort_refs (heap st) (files st) = Ok (files r) /\
    Forall2 (finished fuel (heap st)) (heap st) (heap r).
Proof.
  unfold parseZipAsTree. intros Hp. apply rbind_Ok in Hp as (st & Hb & Hf).
  pose proof (build_wf es st Hb) as Hwf.
  destruct (finalize_spec es fuel st r Hwf Hf) as (? & ? & ? & ?).
  exists st. by split_and!.
Qed.

(** An object without [children] is left alone by the loop. *)
Lemma finished_leaf (fuel : nat) (h0 h : list ZipEntry) (i : nat) (o : ZipEntry) :
  Forall2 (finished fuel h0) h0 h -> h0 !! i = Some o -> children o = None ->
  h !! i = Some o.
Proof.
  intros HF Hi Hc. destruct (Forall2_lookup_l _ _ _ _ _ HF Hi) as (o' & Hi' & Hfin).
  unfold finished in Hfin. rewrite Hc in Hfin. by subst.
Qed.

(** A folder keeps its fields; its [children] are sorted and the two
    size strings are attached. *)
Lemma finished_folder (fuel : nat) (h0 h : list ZipEntry) (i : nat) (o : ZipEntry)
    (cs : list ref) :
  Forall2 (finished fuel h0) h0 h -> h0 !! i = Some o -> children o = Some cs ->
  exists sorted raw comp,
    sort_refs h0 cs = Ok sorted /\
    sum fuel h0 cs originFileSize = Ok raw /\
    sum fuel h0 cs originCompressedSize = Ok comp /\
    h !! i = Some (set_compressedSize (prettyBytes (Some comp))
                     (set_fileSize (prettyBytes (Some raw)) (set_children sorted o))).
Proof.
  intros HF Hi Hc. destruct (Forall2_lookup_l _ _ _ _ _ HF Hi) as (o' & Hi' & Hfin).
  unfold finished in Hfin. rewrite Hc in Hfin.
  destruct Hfin as (sorted & raw & comp & ? & ? & ? & ->).
  by exists sorted, raw, comp.
Qed.
End Parse.

(** * The scenarios of the specification *)

Definition scenario2 : list Origin.t := [dir "x/"; file "x/y.txt" "y.txt" 5 3].

(** The object the builder makes for a parent path, as the size loop
    leaves it. *)
Definition folder_node `{Host} (path : string) (children : list ref)
    (raw compressed : Z) : ZipEntry :=
  set_compressedSize (prettyBytes (Some compressed))
    (set_fileSize (prettyBytes (Some raw)) (new_folder children path)).

(** C3, as the code has it: with an explicit directory record ["x/"] and a
    file ["x/y.txt"] of 5 bytes, the object under the key ["x"] is a
    folder made by the builder; the record of the archive (reference 0) is
    its first child, the copy of the file its second, and the size string
    is the one of 5 bytes. *)
Theorem scenario2_folder_is_synthesized `{Host} (fuel : nat) :
  exists st,
    parseZipAsTree (S fuel) scenario2 = Ok st /\
    folderMap st = [("x", 2%nat)] /\
    heap st !! 0%nat = Some (of_origin (dir "x/")) /\
    heap st !! 2%nat = Some (folder_node "x" [0%nat; 3%nat] 5 3) /\
    fileSize (folder_node "x" [0%nat; 3%nat] 5 3) = Some (prettyBytes (Some 5)) /\
    files st = [2%nat].
Proof. eexists. split_and!; reflexivity. Qed.

(** C3 fails as stated: the reference stored under ["x"] is not the
    reference of the explicit directory record. *)
Lemma scenario2_not_explicit :
  ~ exists st, @parseZipAsTree sample_host 2 scenario2 = Ok st /\
               lookup_own "x" (folderMap st) = Some 0%nat.
Proof. intros (st & [= <-] & Hl). vm_compute in Hl. discriminate. Qed.

(** * Ancestors of a path *)

(** The proper prefixes of a path, cut at the separators. *)
Definition path_prefixes (s : string) : list string :=
  map (fun n => join (take n (split s))) (seq 1 (length (split s) - 1)).

Definition deep_pair : list Origin.t :=
  [file "a/b/c/d.txt" "d.txt" 1 1; file "a/b/c/e.txt" "e.txt" 1 1].

(** C1 at two concrete archives.  With two files in ["a/b/c"], the second
    file is a key of [fileMap]; the second pass registers ["a/b"] but
    nothing registers ["a"], and no root is produced at all.  With the
    single file ["a/b/c/d.txt"], of depth four, only two of its three
    ancestors are registered. *)
Theorem deep_ancestor_not_registered :
  (exists st,
     @parseZipAsTree sample_host 3 deep_pair = Ok st /\
     ("a/b/c/e.txt" ∈ keys (fileMap st)) /\
     ("a" ∈ path_prefixes "a/b/c/e.txt") /\
     ("a" ∉ keys (folderMap st)) /\
     keys (folderMap st) = ["a/b/c"; "a/b"] /\
     files st = []) /\
  (exists st,
     @parseZipAsTree sample_host 3 [file "a/b/c/d.txt" "d.txt" 1 1] = Ok st /\
     path_prefixes "a/b/c/d.txt" = ["a"; "a/b"; "a/b/c"] /\
     keys (folderMap st) = ["a/b/c"; "a/b"] /\
     fileMap st = [] /\ files st = []).
Proof.
  split.
  - eexists. split; [reflexivity|]. split_and!.
    + apply (bool_decide_unpack _). by vm_compute.
    + apply (bool_decide_unpack _). by vm_compute.
    + apply (bool_decide_unpack _). by vm_compute.
    + reflexivity.
    + reflexivity.
  - eexists. split; [reflexivity|]. by split_and!.
Qed.

(** * Where an entry of the archive ends up *)

Section Entries.
Context `{Host} (es : list Origin.t).

Lemma placed_grows (st st' : State) (x : ref) :
  grows st st' -> placed st x -> placed st' x.
Proof.
  intros (Hh & _ & _ & Hf) [Hx|(f & o & cs & Hr & Hc & Hx)]; [left; auto|right].
  specialize (Hh _ _ Hr). rewrite Hc in Hh. destruct Hh as (cs' & Hr' & Hsub).
  exists f, (set_children cs' o), cs'. split_and!; [done..|]. by apply Hsub.
Qed.

(** An object that has been put somewhere sits in [files] when its path
    has no parent, and otherwise in the [children] of the folder
    registered for its parent path. *)
Lemma placed_where (st : State) (entry : ref) (o : ZipEntry) :
  wf es st -> heap st !! entry = Some o -> placed st entry ->
  match parent_path (entryName o) with
  | None => entry ∈ files st
  | Some p =>
      exists f fo cs, lookup_own p (folderMap st) = Some f /\
                      heap st !! f = Some fo /\ children fo = Some cs /\ entry ∈ cs
  end.
Proof.
  intros Hwf Ho [Hx|(f & fo & cs & Hf & Hc & Hx)].
  - destruct (wf_files _ _ Hwf _ Hx) as (o' & Ho' & Hp).
    assert (o' = o) as -> by congruence. by rewrite Hp.
  - destruct (wf_folders _ _ Hwf _ _ _ Hf Hc) as (_ & Hreg & _ & Hch).
    destruct (Hch _ Hx) as (o' & Ho' & Hp).
    assert (o' = o) as -> by congruence. rewrite Hp. by exists f, fo, cs.
Qed.

Lemma seq_split (i n : nat) :
  (i < n)%nat -> seq 0 n = seq 0 i ++ i :: seq (S i) (n - S i).
Proof.
  intros Hlt. replace n with (i + S (n - S i))%nat at 1 by lia.
  by rewrite seq_app.
Qed.

Lemma seq_prefix (j i : nat) :
  (j <= i)%nat -> seq 0 i = seq 0 j ++ seq j (i - j).
Proof.
  intros Hle. replace i with (j + (i - j))%nat at 1 by lia. by rewrite seq_app.
Qed.

Lemma todo_ok_suffix (st : State) (l1 l2 : list ref) :
  todo_ok es st (l1 ++ l2) -> todo_ok es st l2.
Proof.
  intros [Hnd Hall]. split; [by apply NoDup_app in Hnd as (_ & _ & ?)|].
  intros r Hr. apply Hall, elem_of_app. by right.
Qed.

(** A run of the loop, cut at one of its elements. *)
Lemma loop_at (st : State) (l1 : list ref) (x : ref) (l2 : list ref) (st' : State) :
  wf es st -> todo_ok es st (l1 ++ x :: l2) ->
  parseFlatItems st (l1 ++ x :: l2) = Ok st' ->
  exists sta stb,
    parseFlatItems st l1 = Ok sta /\
    parseFlatItem sta x = Ok stb /\
    wf es sta /\ grows st sta /\ origin_ok es sta x /\ ~ placed sta x /\
    wf es stb /\ grows stb st'.
Proof.
  intros Hwf Htodo Hrun.
  apply parseFlatItems_app in Hrun as (sta & Hpre & Hrun).
  simpl in Hrun. apply rbind_Ok in Hrun as (stb & Hstep & Hpost).
  destruct (parseFlatItems_wf es _ _ _ _ Hwf Htodo Hpre)
    as (Hwfa & Hga & Htodoa & _).
  destruct Htodoa as [Hnda Halla]. destruct (Halla x) as [Hok Hnp]; [left|].
  destruct (parseFlatItem_step es _ _ _ Hwfa Hok Hnp Hstep) as (Hwfb & _).
  exists sta, stb. split_and!; try done.
  assert (Hpre' : parseFlatItems st (l1 ++ [x]) = Ok stb).
  { apply parseFlatItems_app. exists sta. split; [done|]. simpl. by rewrite Hstep. }
  assert (Htodo' : todo_ok es st ((l1 ++ [x]) ++ l2)) by (by rewrite <- app_assoc).
  destruct (parseFlatItems_wf es _ _ _ _ Hwf Htodo' Hpre') as (_ & _ & Htodob & _).
  rewrite <- (app_nil_r l2) in Htodob.
  by destruct (parseFlatItems_wf es _ _ _ _ Hwfb Htodob Hpost) as (_ & ? & _).
Qed.

(** The second pass puts every folder of the first pass somewhere. *)
Lemma pass2_places (st1 st : State) (k : string) (f : ref) :
  wf es st1 -> todo_ok es st1 (folder_values (folderMap st1)) ->
  parseFlatItems st1 (folder_values (folderMap st1)) = Ok st ->
  lookup_own k (folderMap st1) = Some f ->
  placed st f.
Proof.
  intros Hwf1 Htodo Hrun Hk.
  assert (Hin : f ∈ folder_values (folderMap st1)).
  { apply folder_values_elem. eauto. }
  apply list_elem_of_split in Hin as (l1 & l2 & Hsplit). rewrite Hsplit in *.
  destruct (loop_at _ _ _ _ _ Hwf1 Htodo Hrun)
    as (sta & stb & _ & Hstep & Hwfa & Hga & Hok & Hnp & _ & Hgb).
  destruct (parseFlatItem_step es _ _ _ Hwfa Hok Hnp Hstep)
    as (_ & _ & entry & o & Ho & Hcase & Hplaced & _).
  eapply placed_grows; [done|].
  destruct Hcase as [(-> & _)|(_ & Hd & _)]; [done|].
  destruct (wf_folderMap _ _ Hwf1 _ _ Hk) as (_ & o1 & Ho1 & _ & [cs Hc]).
  destruct Hga as (Hh & _). specialize (Hh _ _ Ho1). rewrite Hc in Hh.
  destruct Hh as (cs' & Ho1' & _).
  assert (o = set_children cs' o1) as -> by congruence. simpl in Hd.
  destruct (wf_folders _ _ Hwf1 _ _ _ Ho1 Hc) as (Hshape & _).
  rewrite Hshape in Hd. done.
Qed.

(** The first pass, cut at the [i]-th record. *)
Lemma pass1_at (st1 : State) (i : nat) :
  parseFlatItems (initial es) (seq 0 (length es)) = Ok st1 ->
  (i < length es)%nat ->
  exists sta stb,
    parseFlatItems (initial es) (seq 0 i) = Ok sta /\
    parseFlatItem sta i = Ok stb /\
    wf es sta /\ origin_ok es sta i /\ ~ placed sta i /\
    wf es stb /\ grows stb st1.
Proof.
  intros Hrun Hlt. rewrite (seq_split i (length es) Hlt) in Hrun.
  apply parseFlatItems_app in Hrun as (sta & Hpre & Hrun).
  simpl in Hrun. apply rbind_Ok in Hrun as (stb & Hstep & Hpost).
  pose proof (todo_initial es) as Htodo.
  rewrite (seq_split i (length es) Hlt) in Htodo.
  destruct (parseFlatItems_wf es _ _ _ _ (wf_initial es) Htodo Hpre)
    as (Hwfa & _ & Htodoa & _).
  destruct Htodoa as [Hnda Halla]. destruct (Halla i) as [Hok Hnp]; [left|].
  destruct (parseFlatItem_step es _ _ _ Hwfa Hok Hnp Hstep) as (Hwfb & _).
  exists sta, stb. split_and!; try done.
  assert (Hpre' : parseFlatItems (initial es) (seq 0 i ++ [i]) = Ok stb).
  { apply parseFlatItems_app. exists sta. split; [done|]. simpl. by rewrite Hstep. }
  assert (Htodo' : todo_ok es (initial es) ((seq 0 i ++ [i]) ++ seq (S i) (length es - S i))).
  { by rewrite <- app_assoc. }
  destruct (parseFlatItems_wf es _ _ _ _ (wf_initial es) Htodo' Hpre')
    as (_ & _ & Htodob & _).
  rewrite <- (app_nil_r (seq (S i) _)) in Htodob.
  by destruct (parseFlatItems_wf es _ _ _ _ Hwfb Htodob Hpost) as (_ & ? & _).
Qed.

(** The states after [j] and after [i] records, [j <= i]. *)
Lemma pass1_prefix_grows (j i : nat) (sj si : State) :
  (j <= i)%nat -> (i <= length es)%nat ->
  parseFlatItems (initial es) (seq 0 j) = Ok sj ->
  parseFlatItems (initial es) (seq 0 i) = Ok si ->
  grows sj si.
Proof.
  intros Hji Hin Hj Hi. rewrite (seq_prefix j i Hji) in Hi.
  apply parseFlatItems_app in Hi as (sj' & Hj' & Hrest).
  assert (sj' = sj) as -> by congruence.
  pose proof (todo_initial es) as Htodo.
  rewrite (seq_prefix i (length es) Hin), (seq_prefix j i Hji) in Htodo.
  rewrite <- app_assoc in Htodo.
  destruct (parseFlatItems_wf es _ _ _ _ (wf_initial es) Htodo Hj)
    as (Hwfj & _ & Htodoj & _).
  by destruct (parseFlatItems_wf es _ _ _ _ Hwfj Htodoj Hrest) as (_ & ? & _).
Qed.

(** The object that stands for a record in the tree: the record itself
    for a directory, its copy for a file. *)
Definition stands_for (st : State) (i : nat) (e : Origin.t) (entry : ref) : Prop :=
  if Origin.isDirectory e
  then entry = i /\ heap st !! entry = Some (of_origin e)
  else heap st !! entry = Some (wrap (of_origin e)).

(** Every record of the archive is put somewhere. *)
Lemma build_entry (st : State) (i : nat) (e : Origin.t) :
  build es = Ok st -> es !! i = Some e ->
  exists entry,
    stands_for st i e entry /\ placed st entry /\
    (Origin.isDirectory e = false -> Origin.entryName e <> "__proto__" ->
     (parent_path (Origin.entryName e) = None \/
      exists j e', (j < i)%nat /\ es !! j = Some e' /\
         parent_path (Origin.entryName e') = parent_path (Origin.entryName e)) ->
     lookup_own (Origin.entryName e) (fileMap st) <> None) /\
    (forall p, parent_path (Origin.entryName e) = Some p ->
       exists f, lookup_own p (folderMap st) = Some f /\ placed st f).
Proof.
  intros (st1 & Hp1 & Hp2 & Hwf1 & _ & Htodo2 & Hwf & Hg2)%build_inv Hi.
  assert (Hlt : (i < length es)%nat) by (by eapply lookup_lt_Some).
  destruct (pass1_at st1 i Hp1 Hlt)
    as (sta & stb & Hpre & Hstep & Hwfa & Hok & Hnp & Hwfb & Hgb).
  destruct (parseFlatItem_step es _ _ _ Hwfa Hok Hnp Hstep)
    as (_ & _ & entry & o & Ho & Hcase & Hplaced & _ & Hpar & Hreg).
  pose proof (wf_origins _ _ Hwfa _ _ Hi) as Ho'.
  assert (o = of_origin e) as -> by congruence. simpl in *.
  assert (Hg : grows stb st) by (by eapply grows_trans).
  exists entry. split_and!.
  - unfold stands_for. destruct Hcase as [(-> & Hd)|(-> & Hd & Hnew)]; rewrite Hd.
    + split; [done|]. by apply (wf_origins _ _ Hwf).
    + destruct Hg as (Hh & _). by apply (Hh _ _ Hnew).
  - by eapply placed_grows.
  - intros Hd Hk Hparent.
    assert (Hin : Origin.entryName e ∈ keys (fileMap st)).
    { destruct Hg as (_ & _ & Hkeys & _). apply Hkeys, lookup_own_is_Some.
      rewrite Hreg; [eauto|done..|].
      intros p Hp. destruct Hparent as [Hnone|(j & e' & Hj & He' & Hsame)];
        [congruence|].
      assert (Hltj : (j < length es)%nat) by lia.
      destruct (pass1_at st1 j Hp1 Hltj)
        as (sta' & stb' & Hpre' & Hstep' & Hwfa' & Hok' & Hnp' & _ & _).
      destruct (parseFlatItem_step es _ _ _ Hwfa' Hok' Hnp' Hstep')
        as (_ & _ & entry' & o' & Ho'' & _ & _ & _ & Hpar' & _).
      pose proof (wf_origins _ _ Hwfa' _ _ He') as Hoe'.
      assert (o' = of_origin e') as -> by congruence. simpl in Hpar'.
      rewrite Hsame, Hp in Hpar'. destruct (Hpar' p eq_refl) as [f Hf].
      assert (Hpre'' : parseFlatItems (initial es) (seq 0 (S j)) = Ok stb').
      { rewrite seq_S. apply parseFlatItems_app. exists sta'. split; [done|].
        simpl. by rewrite Hstep'. }
      destruct (pass1_prefix_grows (S j) i stb' sta) as (_ & Hfm & _);
        [lia|lia|done..|].
      rewrite (Hfm _ _ Hf). eauto. }
    apply lookup_own_is_Some in Hin as [? ->]. done.
  - intros p Hp. destruct (Hpar p Hp) as [f Hf]. exists f.
    destruct Hgb as (_ & Hfm1 & _). pose proof (Hfm1 _ _ Hf) as Hf1.
    destruct Hg2 as (_ & Hfm2 & _). split; [by apply Hfm2|].
    exact (pass2_places st1 st p f Hwf1 Htodo2 Hp2 Hf1).
Qed.
End Entries.

(** * From the two passes to the result *)

(** [x], whose path is [path], hangs where its path says: in [files]
    when the path has no parent, and otherwise in the [children] of the
    folder registered for the parent path. *)
Definition attached (st : State) (x : ref) (path : string) : Prop :=
  match parent_path path with
  | None => x ∈ files st
  | Some p =>
      exists f fo cs, lookup_own p (folderMap st) = Some f /\
                      heap st !! f = Some fo /\ children fo = Some cs /\ x ∈ cs
  end.

Section Result.
Context `{Host} (es : list Origin.t).

Lemma attached_final (fuel : nat) (st r : State) (x : ref) (path : string) :
  folderMap r = folderMap st ->
  sort_refs (heap st) (files st) = Ok (files r) ->
  Forall2 (finished fuel (heap st)) (heap st) (heap r) ->
  attached st x path -> attached r x path.
Proof.
  intros HFM Hfiles Hheap. unfold attached. destruct (parent_path path) as [p|].
  - intros (f & fo & cs & Hl & Hf & Hc & Hx).
    destruct (finished_folder _ _ _ _ _ _ Hheap Hf Hc)
      as (sorted & raw & comp & Hs & _ & _ & Hr).
    eexists f, _, sorted. rewrite HFM. split_and!; [done|exact Hr|done|].
    by rewrite (sort_refs_perm _ _ _ Hs).
  - intros Hx. by rewrite (sort_refs_perm _ _ _ Hfiles).
Qed.

Lemma stands_for_final (fuel : nat) (st r : State) (i : nat) (e : Origin.t) (entry : ref) :
  Forall2 (finished fuel (heap st)) (heap st) (heap r) ->
  stands_for st i e entry -> stands_for r i e entry.
Proof.
  intros Hheap. unfold stands_for. destruct (Origin.isDirectory e).
  - intros [-> Hi]. split; [done|]. by eapply finished_leaf.
  - intros Hi. by eapply finished_leaf.
Qed.

(** Where a record of the archive and the folder of its parent path end
    up in the result. *)
Lemma parse_entry (fuel : nat) (r : State) (i : nat) (e : Origin.t) :
  parseZipAsTree fuel es = Ok r -> es !! i = Some e ->
  exists entry,
    stands_for r i e entry /\
    attached r entry (Origin.entryName e) /\
    (forall p, parent_path (Origin.entryName e) = Some p ->
       exists f cs raw comp,
         lookup_own p (folderMap r) = Some f /\ (length es <= f)%nat /\
         heap r !! f = Some (folder_node p cs raw comp) /\
         entry ∈ cs /\ attached r f p) /\
    (Origin.isDirectory e = false -> Origin.entryName e <> "__proto__" ->
     (parent_path (Origin.entryName e) = None \/
      exists j e', (j < i)%nat /\ es !! j = Some e' /\
         parent_path (Origin.entryName e') = parent_path (Origin.entryName e)) ->
     Origin.entryName e ∈ keys (fileMap r)).
Proof.
  intros (st & Hb & Hwf & HFM & HfM & Hfiles & Hheap)%parse_inv Hi.
  destruct (build_entry es st i e Hb Hi) as (entry & Hstands & Hplaced & Hreg & Hpar).
  assert (Hobj : exists o, heap st !! entry = Some o /\ entryName o = Origin.entryName e).
  { unfold stands_for in Hstands. destruct (Origin.isDirectory e).
    - destruct Hstands as [_ ?]. by eexists.
    - by eexists. }
  destruct Hobj as (o & Ho & Hname).
  pose proof (placed_where es st entry o Hwf Ho Hplaced) as Hwhere.
  rewrite Hname in Hwhere. fold (attached st entry (Origin.entryName e)) in Hwhere.
  exists entry. split_and!.
  - by eapply stands_for_final.
  - by eapply attached_final.
  - intros p Hp. destruct (Hpar p Hp) as (f & Hf & Hfplaced).
    unfold attached in Hwhere. rewrite Hp in Hwhere.
    destruct Hwhere as (f' & fo & cs & Hf' & Hfo & Hc & Hx).
    assert (f' = f) as -> by congruence.
    destruct (wf_folders _ _ Hwf _ _ _ Hfo Hc) as (Hshape & _).
    destruct (wf_folderMap _ _ Hwf _ _ Hf) as (_ & fo' & Hfo' & Hfname & _).
    assert (fo' = fo) as -> by congruence.
    destruct (finished_folder _ _ _ _ _ _ Hheap Hfo Hc)
      as (sorted & raw & comp & Hs & _ & _ & Hr).
    exists f, sorted, raw, comp. rewrite HFM. split_and!; [done| | | |].
    + destruct (decide (length es <= f)%nat) as [|Hn]; [done|].
      destruct (lookup_lt_is_Some_2 es f) as [e' He']; [lia|].
      pose proof (wf_origins _ _ Hwf _ _ He') as Ho'.
      assert (fo = of_origin e') as -> by congruence. done.
    + rewrite Hr. f_equal. rewrite Hshape, Hfname. reflexivity.
    + by rewrite (sort_refs_perm _ _ _ Hs).
    + eapply attached_final; [done..|].
      pose proof (placed_where es st f fo Hwf Hfo Hfplaced) as Hw.
      by rewrite Hfname in Hw.
  - intros Hd Hk Hcase. rewrite HfM. apply lookup_own_is_Some.
    destruct (lookup_own (Origin.entryName e) (fileMap st)) eqn:E; [eauto|].
    by destruct (Hreg Hd Hk Hcase).
Qed.
End Result.

(** * What [folderMap] holds *)




(** * Paths without a usable segment *)

Definition root_marker : list Origin.t := [dir "/"].

(** C6 fails as stated: the archive whose only record is ["/"] yields a
    folder registered under the empty key, and that folder, whose name is
    empty, is the one root. *)
Lemma root_marker_not_skipped :
  exists st root o,
    @parseZipAsTree sample_host 2 root_marker = Ok st /\
    lookup_own "" (folderMap st) = Some root /\
    files st = [root] /\
    heap st !! root = Some o /\ name o = "" /\ children o = Some [0%nat].
Proof. eexists _, _, _. split_and!; reflexivity. Qed.

(** C6, as the code has it: nothing is skipped.  A record with an empty
    [entryName] is a root, and a key of [fileMap] when it is a file.  A
    record whose [entryName] is the separator alone is a child of the
    folder registered under the empty key, and that folder is a root. *)
Theorem degenerate_paths_are_kept `{Host} (fuel : nat) (es : list Origin.t) (r : State) :
  parseZipAsTree fuel es = Ok r ->
  (forall i e, es !! i = Some e -> Origin.entryName e = "" ->
     exists entry, stands_for r i e entry /\ entry ∈ files r /\
       (Origin.isDirectory e = false -> "" ∈ keys (fileMap r))) /\
  (forall i e, es !! i = Some e -> Origin.entryName e = "/" ->
     exists entry f cs raw comp,
       stands_for r i e entry /\
       lookup_own "" (folderMap r) = Some f /\
       heap r !! f = Some (folder_node "" cs raw comp) /\
       entry ∈ cs /\ f ∈ files r).
Proof.
  intros Hp. split.
  - intros i e Hi Hname.
    destruct (parse_entry es fuel r i e Hp Hi) as (entry & Hstands & Hatt & _ & Hreg).
    rewrite Hname in *. exists entry. split_and!; [done..|].
    intros Hd. apply Hreg; [done|done|by left].
  - intros i e Hi Hname.
    destruct (parse_entry es fuel r i e Hp Hi) as (entry & Hstands & _ & Hpar & _).
    rewrite Hname in *.
    destruct (Hpar "" eq_refl) as (f & cs & raw & comp & Hf & _ & Hfo & Hin & Hatt).
    by exists entry, f, cs, raw, comp.
Qed.

Definition root_marker_result : State := Eval vm_compute in run 2 root_marker.

Lemma degenerate_paths_are_kept_witness :
  @parseZipAsTree sample_host 2 root_marker = Ok root_marker_result /\
  forall i e, root_marker !! i = Some e -> Origin.entryName e = "/" ->
    exists entry f cs raw comp,
      @stands_for sample_host root_marker_result i e entry /\
      lookup_own "" (folderMap root_marker_result) = Some f /\
      heap root_marker_result !! f = Some (@folder_node sample_host "" cs raw comp) /\
      entry ∈ cs /\ f ∈ files root_marker_result.
Proof.
  split; [by vm_compute|].
  apply (@degenerate_paths_are_kept sample_host 2 root_marker). by vm_compute.
Defined.

(** * The keys of the two indices *)

Definition file_and_folder : list Origin.t :=
  [file "x" "x" 1 1; file "x/y.txt" "y.txt" 2 2].

(** C7 fails as stated: a file record ["x"] and a file record below
    ["x"] make ["x"] a key of both maps. *)
Lemma key_sets_overlap :
  exists st,
    @parseZipAsTree sample_host 2 file_and_folder = Ok st /\
    ("x" ∈ keys (fileMap st)) /\ ("x" ∈ keys (folderMap st)).
Proof.
  eexists. split; [reflexivity|].
  split; apply (bool_decide_unpack _); by vm_compute.
Qed.

(** The record at [i] is a root, or a record before it has the same
    parent path. *)
Definition parent_seen (es : list Origin.t) (i : nat) (e : Origin.t) : Prop :=
  parent_path (Origin.entryName e) = None \/
  exists j e', (j < i)%nat /\ es !! j = Some e' /\
    parent_path (Origin.entryName e') = parent_path (Origin.entryName e).

(** C7, as the code has it: no key occurs twice in either map; every key
    of [fileMap] is the path of a file record and leads to its copy; the
    path of a file record is a key of [fileMap] when the record is a root
    or comes after a record with the same parent path (the path
    ["__proto__"] apart, which an object cannot hold as a key); the
    parent path of every record, and so the path of every explicit
    directory without its trailing separator, is a key of [folderMap]. *)
Theorem index_key_sets `{Host} (fuel : nat) (es : list Origin.t) (r : State) :
  parseZipAsTree fuel es = Ok r ->
  NoDup (keys (fileMap r)) /\ NoDup (keys (folderMap r)) /\
  (forall k f, lookup_own k (fileMap r) = Some f ->
     exists e, e ∈ es /\ Origin.isDirectory e = false /\
               Origin.entryName e = k /\ heap r !! f = Some (wrap (of_origin e))) /\
  (forall i e, es !! i = Some e -> Origin.isDirectory e = false ->
     Origin.entryName e <> "__proto__" -> parent_seen es i e ->
     Origin.entryName e ∈ keys (fileMap r)) /\
  (forall e p, e ∈ es -> parent_path (Origin.entryName e) = Some p ->
     p ∈ keys (folderMap r)) /\
  (forall e p, e ∈ es -> Origin.entryName e = (p ++ "/")%string ->
     p ∈ keys (folderMap r)).
Proof.
  intros Hp. pose proof Hp as (st & Hb & Hwf & HFM & HfM & Hfiles & Hheap)%parse_inv.
  assert (Hparent : forall e p, e ∈ es -> parent_path (Origin.entryName e) = Some p ->
            p ∈ keys (folderMap r)).
  { intros e p [i Hi]%list_elem_of_lookup_1 Hpp.
    destruct (parse_entry es fuel r i e Hp Hi) as (entry & _ & _ & Hpar & _).
    destruct (Hpar p Hpp) as (f & cs & raw & comp & Hf & _).
    apply lookup_own_is_Some. eauto. }
  split_and!.
  - rewrite HfM. apply Hwf.
  - rewrite HFM. apply Hwf.
  - intros k f Hk. rewrite HfM in Hk.
    destruct (wf_fileMap _ _ Hwf _ _ Hk) as (e & ? & ? & ? & Hf).
    exists e. split_and!; [done..|]. by eapply finished_leaf.
  - intros i e Hi Hd Hk Hseen.
    destruct (parse_entry es fuel r i e Hp Hi) as (entry & _ & _ & _ & Hreg). by apply Hreg.
  - done.
  - intros e p He Hname. apply (Hparent e p He). rewrite Hname.
    apply parent_path_Some. destruct (parent_of_trailing_slash p) as [Hsplit Hjoin].
    split; [|done]. rewrite Hsplit. apply split_nonempty.
Qed.

Definition file_and_folder_result : State := Eval vm_compute in run 2 file_and_folder.

Lemma index_key_sets_witness :
  @parseZipAsTree sample_host 2 file_and_folder = Ok file_and_folder_result /\
  NoDup (keys (fileMap file_and_folder_result)) /\
  NoDup (keys (folderMap file_and_folder_result)) /\
  (forall e p, e ∈ file_and_folder -> parent_path (Origin.entryName e) = Some p ->
     p ∈ keys (folderMap file_and_folder_result)).
Proof.
  split; [by vm_compute|].
  destruct (@index_key_sets sample_host 2 file_and_folder file_and_folder_result)
    as (Hf & HF & _ & _ & Hpar & _); [by vm_compute|].
  split_and!; [exact Hf|exact HF|exact Hpar].
Defined.

(** * A file whose path is also a directory path *)

Definition folder_then_file : list Origin.t :=
  [file "x/y.txt" "y.txt" 2 2; file "x" "x" 1 1].

(** C8 fails as stated: ["x"] is registered as a directory by the first
    record; the file record ["x"] that follows is a root and a key of
    [fileMap] all the same. *)
Lemma colliding_file_not_dropped :
  exists st copy,
    @parseZipAsTree sample_host 2 folder_then_file = Ok st /\
    ("x" ∈ keys (folderMap st)) /\
    lookup_own "x" (fileMap st) = Some copy /\
    heap st !! copy = Some (@wrap sample_host (of_origin (file "x" "x" 1 1))) /\
    (copy ∈ files st).
Proof.
  eexists _, _. split; [reflexivity|]. split_and!.
  - apply (bool_decide_unpack _). by vm_compute.
  - reflexivity.
  - reflexivity.
  - apply (bool_decide_unpack _). by vm_compute.
Qed.

(** C8, as the code has it: a file record whose path is a key of
    [folderMap] is treated like any other file record.  Its copy hangs in
    the tree where its path says, and its path is a key of [fileMap] when
    the record is a root or comes after a record with the same parent
    path.  The result has no component that could report the collision. *)
Theorem colliding_file_is_kept `{Host} (fuel : nat) (es : list Origin.t) (r : State)
    (i : nat) (e : Origin.t) :
  parseZipAsTree fuel es = Ok r ->
  es !! i = Some e -> Origin.isDirectory e = false ->
  Origin.entryName e ∈ keys (folderMap r) ->
  exists copy,
    heap r !! copy = Some (wrap (of_origin e)) /\
    attached r copy (Origin.entryName e) /\
    (parent_seen es i e -> Origin.entryName e ∈ keys (fileMap r)).
Proof.
  intros Hp Hi Hd Hkey.
  pose proof Hp as (st & Hb & Hwf & HFM & _)%parse_inv.
  destruct (parse_entry es fuel r i e Hp Hi) as (entry & Hstands & Hatt & _ & Hreg).
  unfold stands_for in Hstands. rewrite Hd in Hstands.
  exists entry. split_and!; [done..|]. intros Hseen. apply Hreg; [done| |done].
  intros Hproto. rewrite HFM in Hkey. apply lookup_own_is_Some in Hkey as [f Hf].
  destruct (wf_folderMap _ _ Hwf _ _ Hf) as (Hinh & _). by rewrite Hproto in Hinh.
Qed.

Definition folder_then_file_result : State := Eval vm_compute in run 2 folder_then_file.

Lemma colliding_file_is_kept_witness :
  @parseZipAsTree sample_host 2 folder_then_file = Ok folder_then_file_result /\
  exists copy,
    heap folder_then_file_result !! copy
      = Some (@wrap sample_host (of_origin (file "x" "x" 1 1))) /\
    attached folder_then_file_result copy "x" /\
    (parent_seen folder_then_file 1 (file "x" "x" 1 1) ->
     "x" ∈ keys (fileMap folder_then_file_result)).
Proof.
  split; [by vm_compute|].
  apply (@colliding_file_is_kept sample_host 2 folder_then_file folder_then_file_result
           1 (file "x" "x" 1 1)); [by vm_compute..|].
  apply (bool_decide_unpack _). by vm_compute.
Defined.

(** * The order of [files] and of every [children] *)

(** The code-unit comparison is a consistent comparator. *)
Lemma codeUnitCompare_total : total_comparator codeUnitCompare.
Proof.
  intros a b. unfold codeUnitCompare. rewrite (String.compare_antisym a b).
  destruct (String.compare b a); simpl; lia.
Qed.

Definition transitive_comparator {A} (cmp : A -> A -> Z) : Prop :=
  forall a b c, cmp a b <= 0 -> cmp b c <= 0 -> cmp a c <= 0.

Lemma codeUnitCompare_le (a b : string) :
  codeUnitCompare a b <= 0 <-> String.le a b.
Proof.
  unfold codeUnitCompare, String.le, String.leb.
  destruct (String.compare a b); simpl; split; try done; lia.
Qed.

Lemma codeUnitCompare_trans : transitive_comparator codeUnitCompare.
Proof.
  intros a b c. rewrite !codeUnitCompare_le. intros Hab Hbc. by etrans.
Qed.

(** In an array of references, read in the store [h]: no file comes
    before a directory, and two entries of the same kind are in the
    order of their names. *)
Definition dirs_first_sorted `{Host} (h : list ZipEntry) (rs : list ref) : Prop :=
  (forall a, a ∈ rs -> is_Some (h !! a)) /\
  forall i j a b oa ob,
    (i < j)%nat -> rs !! i = Some a -> rs !! j = Some b ->
    h !! a = Some oa -> h !! b = Some ob ->
    (isDirectory oa = false -> isDirectory ob = false) /\
    (isDirectory oa = isDirectory ob -> localeCompare (name oa) (name ob) <= 0).

Section Ordering.
Context `{Host}.

Lemma sortFiles_trans :
  transitive_comparator localeCompare -> transitive_comparator sortFiles.
Proof.
  intros Htr a b c. unfold sortFiles.
  destruct (isDirectory a), (isDirectory b), (isDirectory c); simpl;
    try lia; apply Htr.
Qed.

Lemma sortFiles_le (a b : ZipEntry) :
  sortFiles a b <= 0 ->
  (isDirectory a = false -> isDirectory b = false) /\
  (isDirectory a = isDirectory b -> localeCompare (name a) (name b) <= 0).
Proof.
  unfold sortFiles. destruct (isDirectory a), (isDirectory b); simpl;
    intros; split; try done; lia.
Qed.

Lemma ordered_pairs {A} (cmp : A -> A -> Z) (l : list A) (i j : nat) (x y : A) :
  transitive_comparator cmp -> ordered cmp l ->
  (i < j)%nat -> l !! i = Some x -> l !! j = Some y -> cmp x y <= 0.
Proof.
  intros Htr Hl. revert i j. induction l as [|z l IH]; intros i j Hij Hi Hj; [done|].
  assert (Hall : Forall (fun b => cmp z b <= 0) l).
  { apply (Sorted_extends (R := fun a b => cmp a b <= 0)); [|done].
    intros a b c. apply Htr. }
  apply Sorted_inv in Hl as [Hl _].
  destruct i as [|i], j as [|j]; simpl in *; try lia.
  - injection Hi as <-. rewrite Forall_forall in Hall.
    apply Hall. by eapply list_elem_of_lookup_2.
  - apply (IH Hl i j); [lia|done..].
Qed.

(** The array [sort_refs] returns, read in any store that agrees on
    [isDirectory] and [name]. *)
Lemma sort_refs_dirs_first (h h' : list ZipEntry) (cs l : list ref) :
  total_comparator localeCompare -> transitive_comparator localeCompare ->
  heap_sim h h' -> sort_refs h cs = Ok l -> dirs_first_sorted h' l.
Proof.
  intros Htot Htr Hsim Hs.
  destruct (sort_refs_ordered h cs l Htot Hs) as (objs & Hobjs & Hord).
  split.
  - intros a [i Hi]%list_elem_of_lookup_1.
    destruct (Forall2_lookup_l _ _ _ _ _ Hobjs Hi) as (o & _ & Ho).
    destruct (Forall2_lookup_l _ _ _ _ _ Hsim Ho) as (o' & Ho' & _). eauto.
  - intros i j a b oa ob Hij Hi Hj Ha Hb.
    destruct (Forall2_lookup_l _ _ _ _ _ Hobjs Hi) as (oa0 & Hia & Ha0).
    destruct (Forall2_lookup_l _ _ _ _ _ Hobjs Hj) as (ob0 & Hjb & Hb0).
    pose proof (Forall2_lookup_lr _ _ _ _ _ _ Hsim Ha0 Ha) as Hsa.
    pose proof (Forall2_lookup_lr _ _ _ _ _ _ Hsim Hb0 Hb) as Hsb.
    pose proof (ordered_pairs sortFiles objs i j oa0 ob0 (sortFiles_trans Htr)
                  Hord Hij Hia Hjb) as Hle.
    rewrite (sortFiles_sim _ _ _ _ Hsa Hsb) in Hle. by apply sortFiles_le.
Qed.

Lemma finished_heap_sim (fuel : nat) (h0 h : list ZipEntry) :
  Forall2 (finished fuel h0) h0 h -> heap_sim h0 h.
Proof.
  intros HF. eapply Forall2_impl; [done|]. intros o o'. apply finished_sim.
Qed.
End Ordering.

(** C5: when [localeCompare] is a consistent comparator (total and
    transitive), then in [files] and in the [children] of every object
    that has them, no file comes before a directory and entries of the
    same kind are in non-decreasing order of their names. *)
Theorem ordering_law `{Host} (fuel : nat) (es : list Origin.t) (r : State) :
  total_comparator localeCompare -> transitive_comparator localeCompare ->
  parseZipAsTree fuel es = Ok r ->
  dirs_first_sorted (heap r) (files r) /\
  forall d o cs, heap r !! d = Some o -> children o = Some cs ->
    dirs_first_sorted (heap r) cs.
Proof.
  intros Htot Htr (st & Hb & Hwf & HFM & HfM & Hfiles & Hheap)%parse_inv.
  pose proof (finished_heap_sim _ _ _ Hheap) as Hsim.
  split; [by eapply sort_refs_dirs_first|].
  intros d o cs Hd Hc.
  destruct (Forall2_lookup_r _ _ _ _ _ Hheap Hd) as (o0 & Hd0 & Hfin).
  unfold finished in Hfin. destruct (children o0) as [cs0|] eqn:Hc0.
  - destruct Hfin as (sorted & raw & comp & Hs & _ & _ & ->). simpl in Hc.
    injection Hc as <-. by eapply sort_refs_dirs_first.
  - subst o. congruence.
Qed.

Definition mixed_folder : list Origin.t :=
  [file "x/b.txt" "b.txt" 1 1; dir "x/sub/"; file "x/a.txt" "a.txt" 2 2;
   file "x/sub/c.txt" "c.txt" 3 3].

Definition mixed_folder_result : State := Eval vm_compute in run 3 mixed_folder.

Lemma ordering_law_witness :
  @parseZipAsTree sample_host 3 mixed_folder = Ok mixed_folder_result /\
  @dirs_first_sorted sample_host (heap mixed_folder_result) (files mixed_folder_result) /\
  forall d o cs, heap mixed_folder_result !! d = Some o -> children o = Some cs ->
    @dirs_first_sorted sample_host (heap mixed_folder_result) cs.
Proof.
  split; [by vm_compute|].
  apply (@ordering_law sample_host 3 mixed_folder).
  - exact codeUnitCompare_total.
  - exact codeUnitCompare_trans.
  - by vm_compute.
Defined.

(** * Running the last phase twice *)

Section Idempotence.
Context `{Host} (es : list Origin.t).

Lemma with_heap_id (st : State) : with_heap (heap st) st = st.
Proof. by destruct st. Qed.

(** On the result, one more round of the loop body changes nothing. *)
Lemma finalize_folder_again (fuel : nat) (st r : State) (key : string) :
  total_comparator localeCompare ->
  wf es st -> folderMap r = folderMap st ->
  Forall2 (finished fuel (heap st)) (heap st) (heap r) ->
  key ∈ keys (folderMap st) ->
  finalize_folder fuel r key = Ok r.
Proof.
  intros Htot Hwf HFM Hheap [element Hl]%lookup_own_is_Some.
  pose proof (finished_heap_sim _ _ _ Hheap) as Hsim.
  destruct (wf_folderMap _ _ Hwf _ _ Hl) as (_ & o0 & Ho0 & _ & [cs0 Hc0]).
  destruct (finished_folder _ _ _ _ _ _ Hheap Ho0 Hc0)
    as (sorted & raw & comp & Hsort & Hraw & Hcomp & Hr).
  pose proof (sort_refs_perm _ _ _ Hsort) as Hperm.
  set (o := set_compressedSize (prettyBytes (Some comp))
              (set_fileSize (prettyBytes (Some raw)) (set_children sorted o0))) in *.
  assert (Hid : <[element := o]> (heap r) = heap r) by (by apply list_insert_id).
  apply finalize_folder_inv. exists element, o, sorted, sorted, raw, comp.
  split_and!.
  - by rewrite HFM.
  - done.
  - done.
  - eapply sort_refs_sim; [done|]. by eapply sort_refs_idem.
  - change (set_children sorted o) with o. rewrite Hid.
    by eapply (sum_sim _ _ size_prop_raw); [| |exact Hraw].
  - change (set_fileSize (prettyBytes (Some raw)) (set_children sorted o)) with o.
    rewrite Hid. by eapply (sum_sim _ _ size_prop_compressed); [| |exact Hcomp].
  - change (set_compressedSize (prettyBytes (Some comp))
              (set_fileSize (prettyBytes (Some raw)) (set_children sorted o))) with o.
    by rewrite Hid, with_heap_id.
Qed.

Lemma finalize_folders_again (fuel : nat) (st r : State) (ks : list string) :
  total_comparator localeCompare ->
  wf es st -> folderMap r = folderMap st ->
  Forall2 (finished fuel (heap st)) (heap st) (heap r) ->
  (forall k, k ∈ ks -> k ∈ keys (folderMap st)) ->
  finalize_folders fuel r ks = Ok r.
Proof.
  intros Htot Hwf HFM Hheap. induction ks as [|k ks IH]; intros Hks; simpl; [done|].
  rewrite (finalize_folder_again fuel st r k); try done; [|apply Hks; left].
  simpl. apply IH. intros k' Hk'. apply Hks. by right.
Qed.
End Idempotence.

(** C9: when [localeCompare] is total, running the last phase (the loop
    over [folderMap] and the sort of [files]) on the result of
    [parseZipAsTree] returns the very same result: the same size strings
    and the same order of every [children] and of [files]. *)
Theorem finalize_idempotent `{Host} (fuel : nat) (es : list Origin.t) (r : State) :
  total_comparator localeCompare ->
  parseZipAsTree fuel es = Ok r ->
  finalize fuel r = Ok r.
Proof.
  intros Htot (st & Hb & Hwf & HFM & HfM & Hfiles & Hheap)%parse_inv.
  unfold finalize.
  rewrite (finalize_folders_again es fuel st r); try done.
  - simpl. pose proof (finished_heap_sim _ _ _ Hheap) as Hsim.
    assert (Hs : sort_refs (heap r) (files r) = Ok (files r)).
    { eapply sort_refs_sim; [done|]. by eapply sort_refs_idem. }
    rewrite Hs. simpl. by destruct r.
  - intros k Hk. rewrite HFM in Hk. by apply own_keys_elem.
Qed.

Lemma finalize_idempotent_witness :
  @parseZipAsTree sample_host 3 mixed_folder = Ok mixed_folder_result /\
  @finalize sample_host 3 mixed_folder_result = Ok mixed_folder_result.
Proof.
  split; [by vm_compute|].
  apply (@finalize_idempotent sample_host 3 mixed_folder).
  - exact codeUnitCompare_total.
  - by vm_compute.
Defined.

(** * The sum law *)

(** [x] is reached from [d] through [children]. *)
Inductive reachable (h : list ZipEntry) : nat -> nat -> Prop :=
| reach_child (d : nat) (o : ZipEntry) (cs : list nat) (x : nat) :
    h !! d = Some o -> children o = Some cs -> x ∈ cs -> reachable h d x
| reach_step (d : nat) (o : ZipEntry) (cs : list nat) (y x : nat) :
    h !! d = Some o -> children o = Some cs -> y ∈ cs ->
    reachable h y x -> reachable h d x.

Definition kids (h : list ZipEntry) (c : ref) : list ref :=
  match h !! c with
  | Some o => default [] (children o)
  | None => []
  end.

(** The elements of [cs] and everything below them, in the order [sum]
    visits them. *)
Fixpoint descendants (fuel : nat) (h : list ZipEntry) (cs : list ref) : list ref :=
  match fuel with
  | O => []
  | S fuel' => cs ≫= (fun c => c :: descendants fuel' h (kids h c))
  end.

(** What an object contributes by itself. *)
Definition own_size (h : list ZipEntry) (prop : ZipEntry -> option Z) (x : ref) : Z :=
  default 0 (h !! x ≫= prop).

Definition is_file (h : list ZipEntry) (x : ref) : Prop :=
  exists o, h !! x = Some o /\ isDirectory o = false.

Lemma descendants_nil (fuel : nat) (h : list ZipEntry) : descendants fuel h [] = [].
Proof. by destruct fuel. Qed.

Lemma item_sum_Ok (fuel : nat) (h : list ZipEntry) (prop : ZipEntry -> option Z)
    (c : ref) (x : Z) :
  item_sum fuel h prop c = Ok x ->
  exists o,
    h !! c = Some o /\
    match children o with
    | Some cs => kids h c = cs /\
        exists below, sum fuel h cs prop = Ok below /\ x = default 0 (prop o) + below
    | None => kids h c = [] /\ x = default 0 (prop o)
    end.
Proof.
  unfold item_sum, kids. intros Hx.
  destruct (h !! c) as [o|] eqn:Hc; [|done]. simpl in *. exists o. split; [done|].
  destruct (children o) as [cs|] eqn:Hcs; simpl in *.
  - destruct (sum fuel h cs prop) as [b|] eqn:Hs; [|done]. simpl in Hx.
    injection Hx as <-. split; [done|]. by exists b.
  - injection Hx as <-. split; [done|lia].
Qed.

(** When [sum] returns, it returns the total of what the objects it
    visited contribute. *)
Lemma sum_descendants (prop : ZipEntry -> option Z) (fuel : nat) :
  forall (h : list ZipEntry) (cs : list ref) (v : Z),
    sum fuel h cs prop = Ok v ->
    v = total (map (own_size h prop) (descendants fuel h cs)).
Proof.
  induction fuel as [|fuel IH]; intros h cs v; [done|].
  rewrite sum_S. intros [Hall ->]. simpl.
  induction cs as [|c cs IHcs]; [done|].
  rewrite bind_cons, map_app, total_app. simpl.
  rewrite <- IHcs by (intros r Hr; apply Hall; by right). f_equal.
  destruct (Hall c) as [x Hx]; [left|]. unfold item_val. rewrite Hx. simpl.
  apply item_sum_Ok in Hx as (o & Hc & Hx). unfold own_size at 1. rewrite Hc. simpl.
  destruct (children o) as [cs'|].
  - destruct Hx as (-> & below & Hs & ->). by rewrite <- (IH h cs' below Hs).
  - destruct Hx as (-> & ->). rewrite descendants_nil. simpl. lia.
Qed.

Lemma kids_Some (h : list ZipEntry) (c x : ref) :
  x ∈ kids h c -> exists o cs, h !! c = Some o /\ children o = Some cs /\ x ∈ cs.
Proof.
  unfold kids. destruct (h !! c) as [o|]; [|by intros ?%elem_of_nil].
  destruct (children o) as [cs|] eqn:Hcs; simpl; [|by intros ?%elem_of_nil].
  intros Hx. by exists o, cs.
Qed.

(** Whatever the budget, the list holds only elements of the array and
    objects reached from them. *)
Lemma descendants_sound (fuel : nat) :
  forall (h : list ZipEntry) (cs : list ref) (x : ref),
    x ∈ descendants fuel h cs -> exists c, c ∈ cs /\ (x = c \/ reachable h c x).
Proof.
  induction fuel as [|fuel IH]; intros h cs x; simpl; [by intros ?%elem_of_nil|].
  intros (c & Hx & Hc)%list_elem_of_bind. exists c. split; [done|].
  apply elem_of_cons in Hx as [->|Hx]; [by left|right].
  apply IH in Hx as (c' & (o & cs' & Ho & Hcs' & Hc')%kids_Some & [->|Hr]).
  - by eapply reach_child.
  - by eapply reach_step.
Qed.

(** And it visited exactly what is reached from the array. *)
Lemma descendants_reachable (prop : ZipEntry -> option Z) (fuel : nat) :
  forall (h : list ZipEntry) (cs : list ref) (v : Z),
    sum fuel h cs prop = Ok v ->
    forall x, x ∈ descendants fuel h cs <->
              exists c, c ∈ cs /\ (x = c \/ reachable h c x).
Proof.
  induction fuel as [|fuel IH]; intros h cs v; [done|].
  rewrite sum_S. intros [Hall _] x. simpl. rewrite list_elem_of_bind.
  split.
  - intros (c & Hx & Hc). exists c. split; [done|].
    apply elem_of_cons in Hx as [->|Hx]; [by left|right].
    destruct (Hall c Hc) as [xv Hxv].
    apply item_sum_Ok in Hxv as (o & Ho & Hxv).
    destruct (children o) as [cs'|] eqn:Hcs'.
    + destruct Hxv as (Hk & below & Hs & _). rewrite Hk in Hx.
      apply (IH h cs' below Hs) in Hx as (c' & Hc' & [->|Hr]).
      * by eapply reach_child.
      * by eapply reach_step.
    + destruct Hxv as (Hk & _). rewrite Hk, descendants_nil in Hx.
      by apply elem_of_nil in Hx.
  - intros (c & Hc & Hx). exists c. split; [|done].
    destruct Hx as [->|Hr]; [left|right].
    destruct (Hall c Hc) as [xv Hxv].
    apply item_sum_Ok in Hxv as (o & Ho & Hxv).
    inversion Hr as [d o' cs' x' Ho' Hcs' Hin|d o' cs' y x' Ho' Hcs' Hin Hr']; subst;
      assert (o' = o) as -> by congruence; rewrite Hcs' in Hxv;
      destruct Hxv as (Hk & below & Hs & _); rewrite Hk;
      apply (IH h cs' below Hs); eauto.
Qed.

(** ** The tree below a folder has no sharing *)

(** The path [n] levels above [s]. *)
Fixpoint ancestor_path (n : nat) (s : string) : option string :=
  match n with
  | O => Some s
  | S n' => parent_path s ≫= ancestor_path n'
  end.

Lemma ancestor_path_length (n : nat) :
  forall s t, ancestor_path n s = Some t -> (String.length t + n <= String.length s)%nat.
Proof.
  induction n as [|n IH]; intros s t; simpl.
  - intros [= ->]. lia.
  - destruct (parent_path s) as [p|] eqn:Hp; [|done]. simpl. intros Ht%IH.
    apply parent_path_length in Hp. lia.
Qed.

Lemma ancestor_path_add (n m : nat) :
  forall s, ancestor_path (n + m) s = ancestor_path n s ≫= ancestor_path m.
Proof.
  induction n as [|n IH]; intros s; simpl; [done|].
  destruct (parent_path s) as [p|]; simpl; [apply IH|done].
Qed.

(** Two paths with the same parent path: neither is above the other. *)
Lemma sibling_not_above (s1 s2 p : string) (k : nat) :
  parent_path s1 = Some p -> parent_path s2 = Some p ->
  ancestor_path (S k) s1 <> Some s2.
Proof.
  intros H1 H2. simpl. rewrite H1. simpl. intros Hk%ancestor_path_length.
  apply parent_path_length in H2. lia.
Qed.

Section Forest.
Context `{Host} (es : list Origin.t).

(** An object reached from a folder lies a positive number of levels
    below it. *)
Lemma reachable_below (st : State) (c x : ref) :
  wf es st -> reachable (heap st) c x ->
  exists oc ox n,
    heap st !! c = Some oc /\ is_Some (children oc) /\ heap st !! x = Some ox /\
    ancestor_path (S n) (entryName ox) = Some (entryName oc).
Proof.
  intros Hwf. induction 1 as [d o cs x Hd Hcs Hx|d o cs y x Hd Hcs Hy Hr IH].
  - destruct (wf_folders _ _ Hwf _ _ _ Hd Hcs) as (_ & _ & _ & Hch).
    destruct (Hch x Hx) as (ox & Hox & Hp).
    exists o, ox, 0%nat. split_and!; [done|eauto|done|]. simpl. by rewrite Hp.
  - destruct IH as (oy & ox & n & Hoy & _ & Hox & Hanc).
    destruct (wf_folders _ _ Hwf _ _ _ Hd Hcs) as (_ & _ & _ & Hch).
    destruct (Hch y Hy) as (oy' & Hoy' & Hp).
    assert (oy' = oy) as -> by congruence.
    exists o, ox, (S n). split_and!; [done|eauto|done|].
    replace (S (S n)) with (S n + 1)%nat by lia.
    rewrite ancestor_path_add, Hanc. simpl. by rewrite Hp.
Qed.

Lemma reachable_irrefl (st : State) (c : ref) :
  wf es st -> ~ reachable (heap st) c c.
Proof.
  intros Hwf (oc & ox & n & Hc & _ & Hx & Hanc)%reachable_below; [|done].
  assert (ox = oc) as -> by congruence.
  apply ancestor_path_length in Hanc. lia.
Qed.

(** Two children of one folder do not share anything below them. *)
Lemma siblings_disjoint (st : State) (d : ref) (o : ZipEntry) (cs : list ref)
    (c1 c2 y : ref) :
  wf es st -> heap st !! d = Some o -> children o = Some cs ->
  c1 ∈ cs -> c2 ∈ cs ->
  (y = c1 \/ reachable (heap st) c1 y) ->
  (y = c2 \/ reachable (heap st) c2 y) ->
  c1 = c2.
Proof.
  intros Hwf Hd Hcs Hc1 Hc2 Hy1 Hy2.
  destruct (wf_folders _ _ Hwf _ _ _ Hd Hcs) as (_ & _ & _ & Hch).
  destruct (Hch c1 Hc1) as (o1 & Ho1 & Hp1).
  destruct (Hch c2 Hc2) as (o2 & Ho2 & Hp2).
  destruct Hy1 as [->|Hr1], Hy2 as [Heq|Hr2]; [done| | |].
  - apply (reachable_below st) in Hr2 as (o2' & o1' & n & Ho2' & _ & Ho1' & Hanc); [|done].
    assert (o2' = o2) as -> by congruence. assert (o1' = o1) as -> by congruence.
    by destruct (sibling_not_above _ _ _ n Hp1 Hp2).
  - subst y.
    apply (reachable_below st) in Hr1 as (o1' & o2' & n & Ho1' & _ & Ho2' & Hanc); [|done].
    assert (o2' = o2) as -> by congruence. assert (o1' = o1) as -> by congruence.
    by destruct (sibling_not_above _ _ _ n Hp2 Hp1).
  - apply (reachable_below st) in Hr1 as (o1' & oy & n & Ho1' & [cs1 Hcs1] & Hoy & Hn);
      [|done].
    apply (reachable_below st) in Hr2 as (o2' & oy' & m & Ho2' & [cs2 Hcs2] & Hoy' & Hm);
      [|done].
    assert (o1' = o1) as -> by congruence. assert (o2' = o2) as -> by congruence.
    assert (oy' = oy) as -> by congruence.
    destruct (Nat.lt_trichotomy n m) as [Hlt|[->|Hgt]].
    + replace (S m) with (S n + S (m - S n))%nat in Hm by lia.
      rewrite ancestor_path_add, Hn in Hm. simpl in Hm.
      by destruct (sibling_not_above _ _ _ (m - S n) Hp1 Hp2).
    + assert (Hname : entryName o1 = entryName o2) by congruence.
      destruct (wf_folders _ _ Hwf _ _ _ Ho1 Hcs1) as (_ & Hr1 & _).
      destruct (wf_folders _ _ Hwf _ _ _ Ho2 Hcs2) as (_ & Hr2 & _).
      congruence.
    + replace (S n) with (S m + S (n - S m))%nat in Hn by lia.
      rewrite ancestor_path_add, Hm in Hn. simpl in Hn.
      by destruct (sibling_not_above _ _ _ (n - S m) Hp2 Hp1).
Qed.

(** No object is visited twice. *)
Lemma descendants_NoDup (st : State) (fuel : nat) :
  wf es st ->
  forall d o cs, heap st !! d = Some o -> children o = Some cs ->
    NoDup (descendants fuel (heap st) cs).
Proof.
  intros Hwf. induction fuel as [|fuel IH]; intros d o cs Hd Hcs; simpl;
    [apply NoDup_nil_2|].
  destruct (wf_folders _ _ Hwf _ _ _ Hd Hcs) as (_ & _ & Hnd & _).
  assert (Hbelow : forall c y, y ∈ descendants fuel (heap st) (kids (heap st) c) ->
            reachable (heap st) c y).
  { intros c y Hy.
    apply descendants_sound in Hy as (c' & (oc & cs' & Hoc & Hcs' & Hc')%kids_Some & [->|Hr]).
    - by eapply reach_child.
    - by eapply reach_step. }
  assert (Hblock : forall c y, y ∈ c :: descendants fuel (heap st) (kids (heap st) c) ->
            y = c \/ reachable (heap st) c y).
  { intros c y [->|Hy]%elem_of_cons; [by left|right]. by apply Hbelow. }
  apply NoDup_bind; [| |done].
  - intros c1 c2 y Hc1 Hc2 Hy1%Hblock Hy2%Hblock. by eapply siblings_disjoint.
  - intros c Hc. apply NoDup_cons. split.
    + intros Hcc%Hbelow. by apply reachable_irrefl in Hcc.
    + unfold kids. destruct (heap st !! c) as [oc|] eqn:Hoc;
        [|rewrite descendants_nil; apply NoDup_nil_2].
      destruct (children oc) as [cs'|] eqn:Hcs'; simpl;
        [by eapply IH|rewrite descendants_nil; apply NoDup_nil_2].
Qed.
End Forest.

(** ** Enough fuel *)

(** The length of the longest path in the store: paths grow strictly
    along [children], so this bounds the depth [sum] recurses to. *)
Definition max_path (h : list ZipEntry) : nat :=
  foldr (fun o m => Nat.max (String.length (entryName o)) m) 0%nat h.

Lemma max_path_ge (h : list ZipEntry) (r : ref) (o : ZipEntry) :
  h !! r = Some o -> (String.length (entryName o) <= max_path h)%nat.
Proof.
  revert r. induction h as [|o' h IH]; intros r; [done|].
  destruct r as [|r]; simpl.
  - intros [= ->]. lia.
  - intros Hr%IH. lia.
Qed.

Section Termination.
Context `{Host} (es : list Origin.t).

Lemma sum_total (st : State) (prop : ZipEntry -> option Z) (fuel : nat) :
  wf es st ->
  forall cs,
    (1 <= fuel)%nat ->
    (forall c, c ∈ cs -> exists oc, heap st !! c = Some oc /\
       (max_path (heap st) + 2 <= fuel + String.length (entryName oc))%nat) ->
    exists v, sum fuel (heap st) cs prop = Ok v.
Proof.
  intros Hwf. induction fuel as [|fuel IH]; intros cs Hfuel Hcs; [lia|].
  eexists. apply sum_S. split; [|done].
  intros c Hc. destruct (Hcs c Hc) as (oc & Hoc & Hbound).
  unfold item_sum. rewrite Hoc. simpl.
  destruct (children oc) as [cs'|] eqn:Hcs'; [|simpl; eauto].
  pose proof (max_path_ge _ _ _ Hoc) as Hle.
  destruct (IH cs') as [v Hv]; [lia| |rewrite Hv; simpl; eauto].
  intros c' Hc'. destruct (wf_folders _ _ Hwf _ _ _ Hoc Hcs') as (_ & _ & _ & Hch).
  destruct (Hch c' Hc') as (oc' & Hoc' & Hp). exists oc'. split; [done|].
  apply parent_path_length in Hp. lia.
Qed.

Lemma folder_sum_total (st : State) (prop : ZipEntry -> option Z) (fuel : nat)
    (d : ref) (o : ZipEntry) (cs : list ref) :
  wf es st -> (max_path (heap st) + 2 <= fuel)%nat ->
  heap st !! d = Some o -> children o = Some cs ->
  exists v, sum fuel (heap st) cs prop = Ok v.
Proof.
  intros Hwf Hfuel Hd Hcs. apply sum_total; [done|lia|].
  intros c Hc. destruct (wf_folders _ _ Hwf _ _ _ Hd Hcs) as (_ & _ & _ & Hch).
  destruct (Hch c Hc) as (oc & Hoc & _). exists oc. split; [done|lia].
Qed.

Lemma finalize_folder_progress (fuel : nat) (st0 : State) (done : list string)
    (st : State) (key : string) :
  wf es st0 -> (max_path (heap st0) + 2 <= fuel)%nat ->
  fin_inv fuel st0 done st -> key ∉ done -> key ∈ keys (folderMap st0) ->
  exists st', finalize_folder fuel st key = Ok st'.
Proof.
  intros Hwf Hfuel Hinv Hkey [element Hl]%lookup_own_is_Some.
  pose proof (fin_inv_sim _ _ _ _ Hinv) as Hsim.
  destruct Hinv as (HFM & HfM & Hfiles & Hlen & Hobj).
  destruct (wf_folderMap _ _ Hwf _ _ Hl) as (_ & o0 & Ho0 & Hname & [cs Hcs]).
  destruct (Hobj _ _ Ho0) as (o & Ho & _ & Hsame).
  rewrite Hname in Hsame. specialize (Hsame Hkey). subst o.
  destruct (wf_folders _ _ Hwf _ _ _ Ho0 Hcs) as (_ & _ & _ & Hch).
  destruct (sort_refs_total (heap st) cs) as [sorted Hsort].
  { intros c Hc. destruct (Hch c Hc) as (oc & Hoc & _).
    apply lookup_lt_is_Some. rewrite Hlen. by eapply lookup_lt_Some. }
  pose proof (sort_refs_perm _ _ _ Hsort) as Hperm.
  destruct (folder_sum_total st0 originFileSize fuel _ _ _ Hwf Hfuel Ho0 Hcs)
    as [raw Hraw].
  destruct (folder_sum_total st0 originCompressedSize fuel _ _ _ Hwf Hfuel Ho0 Hcs)
    as [comp Hcomp].
  eexists. apply finalize_folder_inv.
  exists element, o0, cs, sorted, raw, comp. rewrite HFM.
  split_and!; [done..| | |done].
  - eapply (sum_sim _ _ size_prop_raw); [|symmetry; exact Hperm|exact Hraw].
    eapply heap_sim_insert; [done..|]. unfold sim. simpl. rewrite Hcs. by split_and!.
  - eapply (sum_sim _ _ size_prop_compressed); [|symmetry; exact Hperm|exact Hcomp].
    eapply heap_sim_insert; [done..|]. unfold sim. simpl. rewrite Hcs. by split_and!.
Qed.

Lemma finalize_folders_progress (fuel : nat) (st0 : State) (ks done : list string)
    (st : State) :
  wf es st0 -> (max_path (heap st0) + 2 <= fuel)%nat ->
  fin_inv fuel st0 done st -> NoDup (done ++ ks) ->
  (forall k, k ∈ ks -> k ∈ keys (folderMap st0)) ->
  exists st', finalize_folders fuel st ks = Ok st'.
Proof.
  intros Hwf Hfuel. revert done st.
  induction ks as [|k ks IH]; intros done st Hinv Hnd Hks; simpl; [eauto|].
  assert (Hk : k ∉ done).
  { apply NoDup_app in Hnd as (_ & Hd & _). intros Hin. apply (Hd k Hin). left. }
  destruct (finalize_folder_progress fuel st0 done st k) as [st1 Hstep];
    [done..|apply Hks; left|].
  rewrite Hstep. simpl.
  apply (IH (done ++ [k])).
  - by eapply finalize_folder_step.
  - by rewrite <- app_assoc.
  - intros k' Hk'. apply Hks. by right.
Qed.

(** With enough fuel the last phase returns. *)
Lemma finalize_total (fuel : nat) (st0 : State) :
  wf es st0 -> (max_path (heap st0) + 2 <= fuel)%nat ->
  exists r, finalize fuel st0 = Ok r.
Proof.
  intros Hwf Hfuel. unfold finalize.
  assert (Hinv0 : fin_inv fuel st0 [] st0).
  { split_and!; try done. intros r o0 Hr. exists o0. split_and!; [done| |done].
    intros Hin. by apply elem_of_nil in Hin. }
  pose proof (own_keys_NoDup _ (wf_folder_keys _ _ Hwf)) as Hnd.
  destruct (finalize_folders_progress fuel st0 (own_keys (folderMap st0)) [] st0)
    as [st1 Hloop]; [done..|by intros k ?%own_keys_elem|].
  rewrite Hloop. simpl.
  pose proof (finalize_folders_steps es fuel st0 _ [] st0 st1 Hwf Hinv0 Hnd Hloop)
    as (_ & _ & Hfiles & Hlen & _).
  destruct (sort_refs_total (heap st1) (files st1)) as [sorted Hs].
  { intros x Hx. rewrite Hfiles in Hx.
    destruct (wf_files _ _ Hwf x Hx) as (o & Ho & _).
    apply lookup_lt_is_Some. rewrite Hlen. by eapply lookup_lt_Some. }
  rewrite Hs. simpl. eauto.
Qed.
End Termination.

(** ** The law *)

Lemma reachable_sim (h h' : list ZipEntry) (d x : ref) :
  heap_sim h h' -> reachable h d x -> reachable h' d x.
Proof.
  intros Hs. induction 1 as [d o cs x Hd Hcs Hx|d o cs y x Hd Hcs Hy Hr IH].
  - destruct (Forall2_lookup_l _ _ _ _ _ Hs Hd) as (o' & Hd' & Hsim).
    destruct Hsim as (_ & _ & _ & _ & _ & _ & _ & Hc). rewrite Hcs in Hc.
    destruct (children o') as [cs'|] eqn:Hcs'; [|done].
    eapply reach_child; [done..|]. by rewrite Hc.
  - destruct (Forall2_lookup_l _ _ _ _ _ Hs Hd) as (o' & Hd' & Hsim).
    destruct Hsim as (_ & _ & _ & _ & _ & _ & _ & Hc). rewrite Hcs in Hc.
    destruct (children o') as [cs'|] eqn:Hcs'; [|done].
    eapply reach_step; [done..| |done]. by rewrite Hc.
Qed.

Lemma own_size_sim (h h' : list ZipEntry) (prop : ZipEntry -> option Z) (x : ref) :
  heap_sim h h' -> size_prop prop -> own_size h' prop x = own_size h prop x.
Proof.
  intros Hs Hprop. unfold own_size. destruct (h !! x) as [o|] eqn:Hx.
  - destruct (Forall2_lookup_l _ _ _ _ _ Hs Hx) as (o' & -> & Hsim). simpl.
    by rewrite (Hprop _ _ Hsim).
  - apply lookup_ge_None in Hx. rewrite (Forall2_length _ _ _ Hs) in Hx.
    apply lookup_ge_None in Hx. by rewrite Hx.
Qed.

Lemma is_file_sim (h h' : list ZipEntry) (x : ref) :
  heap_sim h h' -> is_file h x -> is_file h' x.
Proof.
  intros Hs (o & Hx & Hd). destruct (Forall2_lookup_l _ _ _ _ _ Hs Hx) as (o' & Hx' & Hsim).
  exists o'. split; [done|]. destruct Hsim as (-> & _). done.
Qed.

Definition file_ref (h : list ZipEntry) (x : ref) : bool :=
  match h !! x with
  | Some o => negb (isDirectory o)
  | None => false
  end.

Lemma file_ref_true (h : list ZipEntry) (x : ref) :
  file_ref h x = true <-> is_file h x.
Proof.
  unfold file_ref, is_file. destruct (h !! x) as [o|].
  - rewrite negb_true_iff. split; [eauto|]. by intros (o' & [= <-] & ?).
  - split; [done|]. by intros (? & ? & _).
Qed.

Lemma total_filter (f : nat -> Z) (P : nat -> bool) (l : list nat) :
  (forall x, x ∈ l -> P x = false -> f x = 0) ->
  total (map f (filter (fun x => P x = true) l)) = total (map f l).
Proof.
  induction l as [|x l IH]; intros Hz; [done|].
  rewrite filter_cons. destruct (decide (P x = true)) as [Hp|Hp]; simpl.
  - rewrite IH; [done|]. intros y Hy. apply Hz. by right.
  - rewrite IH by (intros y Hy; apply Hz; by right).
    rewrite (Hz x); [lia|left|]. by destruct (P x).
Qed.

Section SumLaw.
Context `{Host} (es : list Origin.t).

(** A directory object has no size of its own. *)
Lemma directory_no_size (st : State) (x : ref) (o : ZipEntry) :
  wf es st -> heap st !! x = Some o -> isDirectory o = true ->
  originFileSize o = None /\ originCompressedSize o = None.
Proof.
  intros Hwf Hx Hd. destruct (children o) as [cs|] eqn:Hc.
  - destruct (wf_folders _ _ Hwf _ _ _ Hx Hc) as (-> & _). done.
  - destruct (wf_leaves _ _ Hwf _ _ Hx Hc) as [(e & _ & ->)|(e & _ & Hf & ->)]; [done|].
    simpl in Hd. congruence.
Qed.

(** On the store the two passes leave, what [sum] returns for the
    [children] of a folder is the total over the files reached from it,
    each counted once. *)
Lemma folder_sum (st : State) (fuel : nat) (prop : ZipEntry -> option Z)
    (d : ref) (o : ZipEntry) (cs : list ref) (v : Z) :
  wf es st -> (prop = originFileSize \/ prop = originCompressedSize) ->
  heap st !! d = Some o -> children o = Some cs ->
  sum fuel (heap st) cs prop = Ok v ->
  let fs := filter (fun x => file_ref (heap st) x = true)
              (descendants fuel (heap st) cs) in
  NoDup fs /\
  (forall x, x ∈ fs <-> reachable (heap st) d x /\ is_file (heap st) x) /\
  v = total (map (own_size (heap st) prop) fs).
Proof.
  intros Hwf Hprop Hd Hcs Hsum fs. subst fs. split_and!.
  - apply NoDup_filter. by eapply descendants_NoDup.
  - intros x. rewrite list_elem_of_filter, file_ref_true.
    rewrite (descendants_reachable _ _ _ _ _ Hsum). split.
    + intros [Hf (c & Hc & [->|Hr])]; (split; [|done]).
      * by eapply reach_child.
      * by eapply reach_step.
    + intros [Hr Hf]. split; [done|].
      inversion Hr as [d' o' cs' x' Hd' Hcs' Hx|d' o' cs' y x' Hd' Hcs' Hy Hr']; subst;
        assert (o' = o) as -> by congruence;
        assert (cs' = cs) as -> by congruence; eauto.
  - rewrite total_filter; [by apply sum_descendants|].
    intros x Hx Hf.
    apply descendants_sound in Hx as (c & Hc & Hx).
    assert (Hvalid : exists ox, heap st !! x = Some ox).
    { destruct Hx as [->|Hr].
      - destruct (wf_folders _ _ Hwf _ _ _ Hd Hcs) as (_ & _ & _ & Hch).
        destruct (Hch c Hc) as (oc & ? & _). eauto.
      - apply (reachable_below es st) in Hr as (_ & ox & _ & _ & _ & ? & _); eauto. }
    destruct Hvalid as (ox & Hox). unfold file_ref in Hf. rewrite Hox in Hf.
    apply negb_false_iff in Hf.
    destruct (directory_no_size st x ox Hwf Hox Hf) as [Hr Hc'].
    unfold own_size. rewrite Hox. simpl. by destruct Hprop as [-> | ->]; rewrite ?Hr, ?Hc'.
Qed.
End SumLaw.

(** C2: with enough fuel [parseZipAsTree] returns whenever the two passes
    do; and in every result, for every folder [d] of [folderMap], the
    number formatted into [fileSize] is the total of [originFileSize]
    over the files reached from [d] through [children], each counted
    once, and the number formatted into [compressedSize] is the total of
    [originCompressedSize] over the same files.  A directory reached from
    [d] has neither property, so it adds nothing of its own. *)
Theorem sum_law `{Host} (es : list Origin.t) :
  (forall st fuel, build es = Ok st -> (max_path (heap st) + 2 <= fuel)%nat ->
     exists r, parseZipAsTree fuel es = Ok r) /\
  (forall fuel r k d,
     parseZipAsTree fuel es = Ok r -> lookup_own k (folderMap r) = Some d ->
     exists o fs,
       heap r !! d = Some o /\ NoDup fs /\
       (forall x, x ∈ fs <-> reachable (heap r) d x /\ is_file (heap r) x) /\
       fileSize o =
         Some (prettyBytes (Some (total (map (own_size (heap r) originFileSize) fs)))) /\
       compressedSize o =
         Some (prettyBytes
                 (Some (total (map (own_size (heap r) originCompressedSize) fs)))) /\
       (forall x ox, reachable (heap r) d x -> heap r !! x = Some ox ->
          isDirectory ox = true ->
          originFileSize ox = None /\ originCompressedSize ox = None)).
Proof.
  split.
  - intros st fuel Hb Hfuel. unfold parseZipAsTree. rewrite Hb. simpl.
    apply (finalize_total es); [by apply build_wf|done].
  - intros fuel r k d (st & Hb & Hwf & HFM & HfM & Hfiles & Hheap)%parse_inv Hk.
    pose proof (finished_heap_sim _ _ _ Hheap) as Hsim.
    rewrite HFM in Hk.
    destruct (wf_folderMap _ _ Hwf _ _ Hk) as (_ & o0 & Hd & _ & [cs Hcs]).
    destruct (finished_folder _ _ _ _ _ _ Hheap Hd Hcs)
      as (sorted & raw & comp & _ & Hraw & Hcomp & Hr).
    destruct (folder_sum es st fuel originFileSize d o0 cs raw Hwf (or_introl eq_refl)
                Hd Hcs Hraw) as (Hnd & Hfs & ->).
    destruct (folder_sum es st fuel originCompressedSize d o0 cs comp Hwf
                (or_intror eq_refl) Hd Hcs Hcomp) as (_ & _ & ->).
    eexists _, _. split_and!; [exact Hr|exact Hnd| | | |].
    + intros x. rewrite Hfs. split; intros [Hreach Hfile]; split.
      * by eapply reachable_sim.
      * by eapply is_file_sim.
      * eapply reachable_sim; [|done]. by apply heap_sim_sym.
      * eapply is_file_sim; [|done]. by apply heap_sim_sym.
    + simpl. do 4 f_equal. apply map_ext. intros x. symmetry.
      by apply own_size_sim; [|apply size_prop_raw].
    + simpl. do 4 f_equal. apply map_ext. intros x. symmetry.
      by apply own_size_sim; [|apply size_prop_compressed].
    + intros x ox _ Hx Hdir.
      destruct (Forall2_lookup_r _ _ _ _ _ Hsim Hx) as (ox0 & Hx0 & Hs).
      destruct Hs as (Hd' & _ & _ & _ & -> & -> & _). rewrite Hd' in Hdir.
      by eapply directory_no_size.
Qed.

Lemma sum_law_witness :
  @parseZipAsTree sample_host 3 mixed_folder = Ok mixed_folder_result /\
  lookup_own "x" (folderMap mixed_folder_result) = Some 5%nat /\
  exists o fs,
    heap mixed_folder_result !! 5%nat = Some o /\ NoDup fs /\
    (forall x, x ∈ fs <-> reachable (heap mixed_folder_result) 5%nat x /\
                          is_file (heap mixed_folder_result) x) /\
    fileSize o =
      Some (@prettyBytes sample_host
              (Some (total (map (own_size (heap mixed_folder_result) originFileSize) fs)))).
Proof.
  split; [by vm_compute|]. split; [by vm_compute|].
  destruct (proj2 (@sum_law sample_host mixed_folder) 3%nat mixed_folder_result "x" 5%nat)
    as (o & fs & Ho & Hnd & Hfs & Hsize & _); [by vm_compute..|].
  exists o, fs. by split_and!.
Defined.

(** * Which paths become keys of [folderMap] *)

Section FolderKeys.
Context `{Host} (es : list Origin.t).

Lemma grows_entryName (st st' : State) (r : ref) (o : ZipEntry) :
  grows st st' -> heap st !! r = Some o ->
  exists o', heap st' !! r = Some o' /\ entryName o' = entryName o.
Proof.
  intros (Hh & _) Hr. specialize (Hh _ _ Hr). destruct (children o).
  - destruct Hh as (cs' & Hr' & _). eauto.
  - eauto.
Qed.

(** A step creates at most the key of the parent path it looked up. *)
Lemma parseFlatItem_keys (st : State) (origin : ref) (st' : State) (k : string) :
  parseFlatItem st origin = Ok st' -> k ∈ keys (folderMap st') ->
  k ∈ keys (folderMap st) \/
  exists o, heap st !! origin = Some o /\ parent_path (entryName o) = Some k.
Proof.
  unfold parseFlatItem. intros Hstep. apply rbind_Ok in Hstep as ([[entry e] st0] & Hm & Hp).
  apply make_entry_inv in Hm as (o & Ho & Hcase).
  assert (Hsame : folderMap st0 = folderMap st /\ entryName e = entryName o).
  { destruct Hcase as [(_ & _ & -> & ->)|(_ & _ & -> & ->)]; by split. }
  destruct Hsame as [HFM Hname].
  apply place_entry_inv in Hp
    as [(_ & ->)|[(p & folder & f & cs & _ & _ & _ & _ & ->)|(p & Hp & _ & _ & ->)]].
  - unfold register_file. destruct (isDirectory e); simpl; rewrite HFM; auto.
  - unfold register_file. destruct (isDirectory e); simpl; rewrite HFM; auto.
  - simpl. rewrite keys_assign_elem, HFM. intros [->|?]; [right|by left].
    exists o. by rewrite <- Hname.
Qed.

Lemma parseFlatItems_keys (st : State) (l1 l2 : list ref) (st' : State) (k : string) :
  wf es st -> todo_ok es st (l1 ++ l2) -> parseFlatItems st l1 = Ok st' ->
  k ∈ keys (folderMap st') ->
  k ∈ keys (folderMap st) \/
  exists x o, x ∈ l1 /\ heap st !! x = Some o /\ parent_path (entryName o) = Some k.
Proof.
  revert st. induction l1 as [|origin l1 IH]; intros st Hwf Htodo; simpl.
  - intros [= <-]. auto.
  - intros Hrun Hk. apply rbind_Ok in Hrun as (st1 & Hstep & Hrun).
    destruct (parseFlatItems_wf es st [origin] (l1 ++ l2) st1 Hwf Htodo)
      as (Hwf1 & Hg1 & Htodo1 & _); [simpl; by rewrite Hstep|].
    destruct (IH st1 Hwf1 Htodo1 Hrun Hk) as [Hk1|(x & o1 & Hx & Ho1 & Hp)].
    + destruct (parseFlatItem_keys _ _ _ _ Hstep Hk1) as [?|(o & Ho & Hp)]; [by left|].
      right. exists origin, o. split_and!; [left|done..].
    + right. destruct Htodo as [_ Hall].
      destruct (Hall x) as [Hok _]; [right; apply elem_of_app; by left|].
      destruct (lookup_lt_is_Some_2 (heap st) x) as [o Ho];
        [by apply (origin_ok_valid es)|].
      destruct (grows_entryName _ _ _ _ Hg1 Ho) as (o' & Ho' & Hname).
      assert (o' = o1) as -> by congruence.
      exists x, o. split_and!; [by right|done|by rewrite <- Hname].
Qed.

(** The second pass registers the parent path of every folder of the
    first pass. *)
Lemma pass2_registers (st1 st : State) (k q : string) :
  wf es st1 -> todo_ok es st1 (folder_values (folderMap st1)) ->
  parseFlatItems st1 (folder_values (folderMap st1)) = Ok st ->
  k ∈ keys (folderMap st1) -> parent_path k = Some q ->
  q ∈ keys (folderMap st).
Proof.
  intros Hwf1 Htodo Hrun [f Hk]%lookup_own_is_Some Hq.
  assert (Hin : f ∈ folder_values (folderMap st1)).
  { apply folder_values_elem. eauto. }
  apply list_elem_of_split in Hin as (l1 & l2 & Hsplit). rewrite Hsplit in *.
  destruct (loop_at es _ _ _ _ _ Hwf1 Htodo Hrun)
    as (sta & stb & _ & Hstep & Hwfa & Hga & Hok & Hnp & _ & Hgb).
  destruct (parseFlatItem_step es _ _ _ Hwfa Hok Hnp Hstep)
    as (_ & _ & entry & o & Ho & _ & _ & _ & Hpar & _).
  destruct (wf_folderMap _ _ Hwf1 _ _ Hk) as (_ & o1 & Ho1 & Hname & _).
  destruct (grows_entryName _ _ _ _ Hga Ho1) as (o' & Ho' & Hname').
  assert (o' = o) as -> by congruence.
  rewrite Hname', Hname in Hpar. destruct (Hpar q Hq) as [g Hg].
  destruct Hgb as (_ & HFM & _). apply lookup_own_is_Some. rewrite (HFM _ _ Hg). eauto.
Qed.

(** The parent path of some record. *)
Definition direct_parent (es : list Origin.t) (k : string) : Prop :=
  exists e, e ∈ es /\ parent_path (Origin.entryName e) = Some k.

(** After the first pass the keys are the parent paths of the records. *)
Lemma pass1_folder_keys (st1 : State) (p : string) :
  parseFlatItems (initial es) (seq 0 (length es)) = Ok st1 ->
  (p ∈ keys (folderMap st1) <-> direct_parent es p).
Proof.
  intros Hp1. split.
  - intros Hp.
    destruct (parseFlatItems_keys (initial es) (seq 0 (length es)) [] st1 p
                (wf_initial es)) as [Hk0|(x & o & Hx & Ho & Hpp)];
      [rewrite app_nil_r; apply todo_initial|done..| |].
    + by apply elem_of_nil in Hk0.
    + simpl in Ho. change (map of_origin es) with (of_origin <$> es) in Ho.
      rewrite list_lookup_fmap in Ho. destruct (es !! x) as [e|] eqn:He; [|done].
      injection Ho as <-. exists e. split; [by eapply list_elem_of_lookup_2|done].
  - intros (e & [i Hi]%list_elem_of_lookup_1 & Hpp).
    assert (Hlt : (i < length es)%nat) by (by eapply lookup_lt_Some).
    destruct (pass1_at es st1 i Hp1 Hlt)
      as (sta & stb & _ & Hstep & Hwfa & Hok & Hnp & _ & Hgb).
    destruct (parseFlatItem_step es _ _ _ Hwfa Hok Hnp Hstep)
      as (_ & _ & entry & o & Ho & _ & _ & _ & Hpar & _).
    pose proof (wf_origins _ _ Hwfa _ _ Hi) as Ho'.
    assert (o = of_origin e) as -> by congruence. simpl in Hpar.
    destruct (Hpar p Hpp) as [f Hf]. destruct Hgb as (_ & HFM & _).
    apply lookup_own_is_Some. rewrite (HFM _ _ Hf). eauto.
Qed.

(** The keys of [folderMap]: the parent paths of the records, and the
    parent paths of those. *)
Lemma build_folder_keys (st : State) (k : string) :
  build es = Ok st ->
  (k ∈ keys (folderMap st) <->
   direct_parent es k \/ exists p, direct_parent es p /\ parent_path p = Some k).
Proof.
  intros Hb. pose proof Hb as (st1 & Hp1 & Hp2 & Hwf1 & Hg1 & Htodo2 & Hwf & Hg2)%build_inv.
  pose proof (fun p => pass1_folder_keys st1 p Hp1) as Hkeys1.
  split.
  - intros Hk.
    destruct (parseFlatItems_keys st1 (folder_values (folderMap st1)) [] st k Hwf1)
      as [Hk1|(x & o & Hx & Ho & Hpp)]; [by rewrite app_nil_r|done..| |].
    + left. by apply Hkeys1.
    + right. apply folder_values_elem in Hx as (p & Hp).
      destruct (wf_folderMap _ _ Hwf1 _ _ Hp) as (_ & o' & Ho' & Hname & _).
      assert (o' = o) as -> by congruence. exists p. split; [|by rewrite <- Hname].
      apply Hkeys1, lookup_own_is_Some. eauto.
  - intros [Hd|(p & Hd & Hq)].
    + apply Hkeys1 in Hd. apply lookup_own_is_Some in Hd as [f Hf].
      destruct Hg2 as (_ & HFM & _). apply lookup_own_is_Some.
      rewrite (HFM _ _ Hf). eauto.
    + apply Hkeys1 in Hd. exact (pass2_registers st1 st p k Hwf1 Htodo2 Hp2 Hd Hq).
Qed.
End FolderKeys.

(** * Reordering the records *)

Definition twins : list Origin.t := [file "a.txt" "a.txt" 1 1; file "a.txt" "a.txt" 2 2].
Definition twins_swapped : list Origin.t :=
  [file "a.txt" "a.txt" 2 2; file "a.txt" "a.txt" 1 1].

(** The object a key of [fileMap] leads to. *)
Definition file_at (st : State) (path : string) : option ZipEntry :=
  lookup_own path (fileMap st) ≫= (fun r => heap st !! r).

(** C4 fails as stated: two records with the same path, in either order.
    The last one wins in [fileMap], and the stable sort keeps the roots
    in the order of the records, so the two results differ. *)
Lemma permuted_results_differ :
  twins ≡ₚ twins_swapped /\
  exists r r',
    @parseZipAsTree sample_host 2 twins = Ok r /\
    @parseZipAsTree sample_host 2 twins_swapped = Ok r' /\
    (originFileSize <$> file_at r "a.txt") = Some (Some 2) /\
    (originFileSize <$> file_at r' "a.txt") = Some (Some 1) /\
    (fun x => heap r !! x ≫= originFileSize) <$> files r = [Some 1; Some 2] /\
    (fun x => heap r' !! x ≫= originFileSize) <$> files r' = [Some 2; Some 1].
Proof.
  split; [apply Permutation_swap|].
  eexists _, _. split_and!; reflexivity.
Qed.


(** * The aggregate of a folder, read off the records *)

(** [p] is the parent path of some record. *)
Definition direct_parentb (es : list Origin.t) (p : string) : bool :=
  existsb (fun e => match parent_path (Origin.entryName e) with
                    | Some q => String.eqb q p
                    | None => false
                    end) es.

(** [k] lies above [s] and every path strictly between them is the
    parent path of some record: these are the folders the second pass
    hangs below their own parent. *)
Fixpoint covers_go (es : list Origin.t) (fuel : nat) (k s : string) : bool :=
  match fuel with
  | O => false
  | S fuel' =>
      match parent_path s with
      | None => false
      | Some p => String.eqb p k || (direct_parentb es p && covers_go es fuel' k p)
      end
  end.

Definition coversb (es : list Origin.t) (k s : string) : bool :=
  covers_go es (String.length s) k s.

(** The file records whose size is counted for the folder [k]. *)
Definition countedb (es : list Origin.t) (k : string) (e : Origin.t) : bool :=
  negb (Origin.isDirectory e) && coversb es k (Origin.entryName e).

Definition record_size (e : Origin.t) : Z :=
  default 0 (Header.size <$> Origin.header e).

Definition record_compressed (e : Origin.t) : Z :=
  default 0 (Header.compressedSize <$> Origin.header e).

Definition aggregate (es : list Origin.t) (size : Origin.t -> Z) (k : string) : Z :=
  total (map size (filter (fun e => countedb es k e = true) es)).

Lemma direct_parentb_true (es : list Origin.t) (p : string) :
  direct_parentb es p = true <-> direct_parent es p.
Proof.
  unfold direct_parentb, direct_parent. rewrite existsb_exists. split.
  - intros (e & He%list_elem_of_In & Hp). exists e. split; [done|].
    destruct (parent_path (Origin.entryName e)) as [q|]; [|done].
    by apply String.eqb_eq in Hp as ->.
  - intros (e & He & Hp). exists e. split; [by apply list_elem_of_In|].
    rewrite Hp. apply String.eqb_refl.
Qed.

Lemma parent_path_empty (s : string) : String.length s = 0%nat -> parent_path s = None.
Proof. destruct s; [done|]. simpl. lia. Qed.

Lemma covers_go_enough (es : list Origin.t) (k : string) (f1 : nat) :
  forall f2 s, (String.length s <= f1)%nat -> (String.length s <= f2)%nat ->
    covers_go es f1 k s = covers_go es f2 k s.
Proof.
  induction f1 as [|f1 IH]; intros f2 s H1 H2.
  - destruct f2 as [|f2]; [done|]. simpl. rewrite parent_path_empty by lia. done.
  - destruct f2 as [|f2]; simpl.
    + rewrite parent_path_empty by lia. done.
    + destruct (parent_path s) as [p|] eqn:Hp; [|done].
      apply parent_path_length in Hp. rewrite (IH f2 p) by lia. done.
Qed.

Lemma coversb_unfold (es : list Origin.t) (k s : string) :
  coversb es k s =
  match parent_path s with
  | None => false
  | Some p => String.eqb p k || (direct_parentb es p && coversb es k p)
  end.
Proof.
  unfold coversb. destruct (String.length s) as [|m] eqn:Hlen.
  - by rewrite parent_path_empty.
  - simpl. destruct (parent_path s) as [p|] eqn:Hp; [|done].
    apply parent_path_length in Hp.
    rewrite (covers_go_enough es k m (String.length p) p) by lia. done.
Qed.

(** One more level on top. *)
Lemma coversb_extend (es : list Origin.t) (k' k : string) (len : nat) :
  parent_path k' = Some k -> direct_parent es k' ->
  forall s, (String.length s <= len)%nat ->
    coversb es k' s = true -> coversb es k s = true.
Proof.
  intros Hk Hd. induction len as [|len IH]; intros s Hlen.
  - rewrite coversb_unfold, parent_path_empty by lia. done.
  - rewrite (coversb_unfold es k' s), (coversb_unfold es k s).
    destruct (parent_path s) as [p|] eqn:Hp; [|done].
    apply parent_path_length in Hp.
    intros [Heq|[Hdp Hc]%andb_true_iff]%orb_true_iff.
    + apply String.eqb_eq in Heq as ->. apply orb_true_iff. right.
      apply andb_true_iff. split; [by apply direct_parentb_true|].
      rewrite coversb_unfold, Hk. by rewrite String.eqb_refl.
    + apply orb_true_iff. right. apply andb_true_iff. split; [done|].
      apply IH; [lia|done].
Qed.

Lemma existsb_perm {A} (f : A -> bool) (l l' : list A) :
  l ≡ₚ l' -> existsb f l = existsb f l'.
Proof.
  induction 1 as [|x l l' _ IH|x y l|l1 l2 l3 _ IH1 _ IH2]; simpl.
  - done.
  - by rewrite IH.
  - by destruct (f x), (f y).
  - congruence.
Qed.

Lemma coversb_perm (es es' : list Origin.t) (k s : string) :
  es ≡ₚ es' -> coversb es k s = coversb es' k s.
Proof.
  intros Hperm. unfold coversb. generalize (String.length s) as fuel. intros fuel.
  revert s. induction fuel as [|fuel IH]; intros s; simpl; [done|].
  destruct (parent_path s) as [p|]; [|done].
  unfold direct_parentb. by rewrite (existsb_perm _ _ _ Hperm), IH.
Qed.

(** The closed form does not depend on the order of the records. *)
Lemma aggregate_perm (es es' : list Origin.t) (size : Origin.t -> Z) (k : string) :
  es ≡ₚ es' -> aggregate es size k = aggregate es' size k.
Proof.
  intros Hperm. unfold aggregate. apply total_perm, Permutation_map.
  rewrite <- Hperm.
  rewrite (list_filter_iff (fun e => countedb es k e = true)
             (fun e => countedb es' k e = true)); [done|].
  intros e. unfold countedb. by rewrite (coversb_perm _ _ _ _ Hperm).
Qed.

(** ** The copies of the file records, in the store *)

(** The objects behind the records of the archive that are files. *)
Definition copies (n : nat) (h : list ZipEntry) : list ZipEntry :=
  filter (fun o => isDirectory o = false) (drop n h).

Section Copies.
Context `{Host} (es : list Origin.t).

(** The copy the loop makes when it visits the reference [r]: none for a
    directory record, and none for a folder. *)
Definition copy_at (r : ref) : option ZipEntry :=
  es !! r ≫= fun e =>
    if Origin.isDirectory e then None else Some (wrap (of_origin e)).

Definition copy_of (e : Origin.t) : option ZipEntry :=
  if Origin.isDirectory e then None else Some (wrap (of_origin e)).

(** An invariant of the loop body is an invariant of the loop; the
    invariant may mention the references visited so far. *)
Lemma parseFlatItems_invariant (P : list nat -> State -> Prop) (l1 : list ref) :
  (forall done sta origin stb,
     wf es sta -> origin_ok es sta origin -> ~ placed sta origin ->
     P done sta -> parseFlatItem sta origin = Ok stb -> P (done ++ [origin]) stb) ->
  forall (done : list nat) (st : State) (l2 : list ref) (st' : State),
    wf es st -> todo_ok es st (l1 ++ l2) -> P done st ->
    parseFlatItems st l1 = Ok st' -> P (done ++ l1) st'.
Proof.
  intros Hstep. induction l1 as [|origin l1 IH]; intros done st l2 st' Hwf Htodo HP; simpl.
  - intros [= <-]. by rewrite app_nil_r.
  - intros Hrun. apply rbind_Ok in Hrun as (st1 & Hs & Hrun).
    destruct (parseFlatItems_wf es st [origin] (l1 ++ l2) st1 Hwf Htodo)
      as (Hwf1 & _ & Htodo1 & _); [simpl; by rewrite Hs|].
    destruct Htodo as [_ Hall]. destruct (Hall origin) as [Hok Hnp]; [left|].
    replace (done ++ origin :: l1) with ((done ++ [origin]) ++ l1)
      by (by rewrite <- app_assoc).
    apply (IH (done ++ [origin]) st1 l2 st' Hwf1 Htodo1); [|done].
    by apply (Hstep done st origin st1).
Qed.

Lemma copies_app (n : nat) (h : list ZipEntry) (o : ZipEntry) :
  (n <= length h)%nat ->
  copies n (h ++ [o]) = copies n h ++ (if isDirectory o then [] else [o]).
Proof.
  intros Hn. unfold copies. rewrite drop_app_le by done. rewrite filter_app. f_equal.
  rewrite filter_cons, filter_nil. destruct (isDirectory o); by case_decide.
Qed.

Lemma filter_insert_out {A} (P : A -> Prop) `{!forall x, Decision (P x)}
    (l : list A) (i : nat) (x x' : A) :
  l !! i = Some x -> ~ P x -> ~ P x' -> filter P (<[i := x']> l) = filter P l.
Proof.
  revert i. induction l as [|y l IH]; intros i Hi Hx Hx'; [done|].
  destruct i as [|i]; simpl in *.
  - injection Hi as ->. by rewrite !filter_cons_False.
  - rewrite !filter_cons. by rewrite (IH i).
Qed.

Lemma copies_insert (n : nat) (h : list ZipEntry) (f : ref) (o o' : ZipEntry) :
  h !! f = Some o -> isDirectory o = true -> isDirectory o' = true ->
  copies n (<[f := o']> h) = copies n h.
Proof.
  intros Hf Hd Hd'. unfold copies. destruct (decide (f < n)%nat) as [Hlt|Hge].
  - by rewrite drop_insert_lt.
  - rewrite drop_insert_ge by lia. apply filter_insert_out with (x := o).
    + rewrite lookup_drop. by replace (n + (f - n))%nat with f by lia.
    + congruence.
    + congruence.
Qed.

Lemma origins_length (st : State) : wf es st -> (length es <= length (heap st))%nat.
Proof.
  intros Hwf. destruct (decide (length es = 0)%nat) as [->|Hne]; [lia|].
  destruct (lookup_lt_is_Some_2 es (length es - 1)) as [e He]; [lia|].
  pose proof (wf_origins _ _ Hwf _ _ He) as Ho%lookup_lt_Some. lia.
Qed.

(** A reference the loop may visit is a record of the archive, read as
    it was handed over, or a folder. *)
Lemma origin_cases (st : State) (origin : ref) (o : ZipEntry) :
  wf es st -> origin_ok es st origin -> heap st !! origin = Some o ->
  (exists e, es !! origin = Some e /\ o = of_origin e) \/
  (es !! origin = None /\ isDirectory o = true /\ is_Some (children o)).
Proof.
  intros Hwf Hok Ho. destruct (es !! origin) as [e|] eqn:He.
  - left. exists e. split; [done|]. pose proof (wf_origins _ _ Hwf _ _ He). congruence.
  - right. split; [done|]. destruct Hok as [Hlt|(o' & Ho' & [cs Hc])].
    + apply lookup_ge_None in He. lia.
    + assert (o' = o) as -> by congruence.
      destruct (wf_folders _ _ Hwf _ _ _ Ho Hc) as (Hs & _).
      split; [by rewrite Hs|eauto].
Qed.

(** What one iteration does to the store. *)
Lemma parseFlatItem_heap (st : State) (origin : ref) (st' : State) :
  wf es st -> origin_ok es st origin -> parseFlatItem st origin = Ok st' ->
  copies (length es) (heap st') = copies (length es) (heap st) ++ option_list (copy_at origin) /\
  (forall x o, heap st' !! x = Some o -> children o = None ->
     heap st !! x = Some o \/
     (x = length (heap st) /\ isDirectory o = false /\
      exists oo, heap st !! origin = Some oo /\ isDirectory oo = false)).
Proof.
  intros Hwf Hok Hstep. pose proof (origins_length st Hwf) as Hlen.
  unfold parseFlatItem in Hstep.
  apply rbind_Ok in Hstep as ([[entry e] st0] & Hm & Hp).
  apply make_entry_inv in Hm as (o & Ho & Hcase).
  assert (H0 : wf es st0 /\ (length es <= length (heap st0))%nat /\
               copies (length es) (heap st0)
                 = copies (length es) (heap st) ++ option_list (copy_at origin) /\
               (forall x o', heap st0 !! x = Some o' -> children o' = None ->
                  heap st !! x = Some o' \/
                  (x = length (heap st) /\ isDirectory o' = false /\
                   exists oo, heap st !! origin = Some oo /\ isDirectory oo = false))).
  { unfold copy_at.
    destruct (origin_cases st origin o Hwf Hok Ho) as [(e0 & He0 & ->)|(He0 & Hd & _)];
      rewrite He0; simpl.
    - destruct Hcase as [(Hd & _ & _ & ->)|(Hd & _ & -> & ->)]; simpl in Hd; rewrite Hd.
      + simpl. rewrite app_nil_r. split_and!; auto.
      + simpl. split_and!.
        * apply wf_alloc; [done|]. right. exists e0.
          split; [by eapply list_elem_of_lookup_2|done].
        * rewrite length_app. lia.
        * rewrite copies_app by done. simpl. by rewrite Hd.
        * intros x o' [[_ Hx]|[-> <-]]%lookup_snoc_Some _; [by left|right].
          split_and!; [done..|]. by exists (of_origin e0).
    - destruct Hcase as [(_ & _ & _ & ->)|(Hd' & _)]; [|congruence].
      rewrite app_nil_r. split_and!; auto. }
  destruct H0 as (Hwf0 & Hlen0 & Hcopies & Hleaves).
  apply place_entry_inv in Hp
    as [(_ & ->)|[(p & folder & f & cs & _ & Hl & Hf & Hcs & ->)|(p & _ & _ & _ & ->)]].
  - assert (Hh : heap (register_file entry e (with_files (files st0 ++ [entry]) st0))
                 = heap st0).
    { unfold register_file. by destruct (isDirectory e). }
    rewrite Hh. by split.
  - assert (Hh : heap (register_file entry e
                   (with_heap (<[folder := set_children (cs ++ [entry]) f]> (heap st0)) st0))
                 = <[folder := set_children (cs ++ [entry]) f]> (heap st0)).
    { unfold register_file. by destruct (isDirectory e). }
    rewrite Hh. destruct (wf_folders _ _ Hwf0 _ _ _ Hf Hcs) as (Hs & _).
    split.
    + rewrite (copies_insert (length es) (heap st0) folder f
                 (set_children (cs ++ [entry]) f) Hf);
        [done|by rewrite Hs|simpl; by rewrite Hs].
    + intros x o' [(-> & <- & _)|[Hne Hx]]%list_lookup_insert_Some Hc; [done|].
      by apply Hleaves.
  - simpl. split.
    + rewrite copies_app by done. simpl. by rewrite app_nil_r.
    + intros x o' [[_ Hx]|[_ <-]]%lookup_snoc_Some Hc; [|done]. by apply Hleaves.
Qed.
End Copies.

Section Census.
Context `{Host} (es : list Origin.t).

(** What holds of the store after any number of iterations. *)
Definition census (done : list nat) (st : State) : Prop :=
  copies (length es) (heap st) = omap (copy_at es) done /\
  (forall x, placed st x -> (x < length es)%nat ->
     exists e, es !! x = Some e /\ Origin.isDirectory e = true) /\
  (forall x o, heap st !! x = Some o -> children o = None -> (length es <= x)%nat ->
     placed st x /\ isDirectory o = false).

Lemma census_step (done : list nat) (sta : State) (origin : ref) (stb : State) :
  wf es sta -> origin_ok es sta origin -> ~ placed sta origin ->
  census done sta -> parseFlatItem sta origin = Ok stb ->
  census (done ++ [origin]) stb.
Proof.
  intros Hwf Hok Hnp (Hcopies & Hdirs & Hleaves) Hstep.
  destruct (parseFlatItem_heap es _ _ _ Hwf Hok Hstep) as (Hc & Hnew).
  destruct (parseFlatItem_step es _ _ _ Hwf Hok Hnp Hstep)
    as (Hwfb & Hg & entry & o & Ho & Hcase & Hplaced & Honly & _).
  split_and!.
  - rewrite Hc, Hcopies, omap_app. f_equal.
  - intros x Hx Hlt. destruct (Honly x Hx) as [Hold| ->]; [by apply Hdirs|].
    destruct Hcase as [(-> & Hd)|(-> & _)].
    + destruct (lookup_lt_is_Some_2 es origin Hlt) as [e He]. exists e. split; [done|].
      pose proof (wf_origins _ _ Hwf _ _ He). assert (o = of_origin e) as -> by congruence.
      done.
    + pose proof (origins_length es sta Hwf). lia.
  - intros x ox Hx Hcx Hge. destruct (Hnew x ox Hx Hcx) as [Hold|(-> & Hd & oo & Hoo & Hdo)].
    + destruct (Hleaves x ox Hold Hcx Hge) as [Hp ?]. split; [|done].
      by eapply placed_grows.
    + split; [|done]. assert (oo = o) as -> by congruence.
      destruct Hcase as [(_ & Hd')|(-> & _)]; [congruence|done].
Qed.

Lemma omap_cons_list {A B} (f : A -> option B) (x : A) (l : list A) :
  omap f (x :: l) = option_list (f x) ++ omap f l.
Proof. simpl. by destruct (f x). Qed.

Lemma omap_all_None {A B} (f : A -> option B) (l : list A) :
  (forall x, x ∈ l -> f x = None) -> omap f l = [].
Proof.
  induction l as [|x l IH]; intros Hall; [done|].
  rewrite omap_cons_list, (Hall x) by left. simpl.
  apply IH. intros y Hy. apply Hall. by right.
Qed.

Lemma omap_seq_lookup {A B} (c : A -> option B) (l : list A) :
  forall pre, omap (fun r => (pre ++ l) !! r ≫= c) (seq (length pre) (length l)) = omap c l.
Proof.
  induction l as [|x l IH]; intros pre; [done|].
  change (seq (length pre) (length (x :: l)))
    with (length pre :: seq (S (length pre)) (length l)).
  rewrite !omap_cons_list. rewrite list_lookup_middle by done. f_equal.
  specialize (IH (pre ++ [x])). rewrite <- app_assoc, length_app in IH.
  replace (length pre + length [x])%nat with (S (length pre)) in IH by (simpl; lia).
  exact IH.
Qed.

Lemma census_initial : census [] (initial es).
Proof.
  split_and!.
  - unfold copies. simpl. rewrite drop_ge; [done|]. by rewrite length_map.
  - intros x Hx. by apply initial_not_placed in Hx.
  - intros x o Hx _ Hge. apply lookup_lt_Some in Hx. simpl in Hx.
    rewrite length_map in Hx. lia.
Qed.

(** After the two passes: the copies in the store are the copies of the
    file records, in the order of the records; a record that has been
    put somewhere is a directory; every copy has been put somewhere; and
    a folder that has been put somewhere is the folder of the parent path
    of some record. *)
Lemma build_census (st : State) :
  build es = Ok st ->
  copies (length es) (heap st) = omap (copy_of) es /\
  (forall x, placed st x -> (x < length es)%nat ->
     exists e, es !! x = Some e /\ Origin.isDirectory e = true) /\
  (forall x o, heap st !! x = Some o -> children o = None -> (length es <= x)%nat ->
     placed st x /\ isDirectory o = false) /\
  (forall y oy, placed st y -> heap st !! y = Some oy -> is_Some (children oy) ->
     direct_parent es (entryName oy)).
Proof.
  intros (st1 & Hp1 & Hp2 & Hwf1 & Hg1 & Htodo2 & Hwf & Hg2)%build_inv.
  assert (Htodo1 : todo_ok es (initial es) (seq 0 (length es) ++ [])).
  { rewrite app_nil_r. apply todo_initial. }
  pose proof (parseFlatItems_invariant es census (seq 0 (length es)) (census_step)
                [] (initial es) [] st1 (wf_initial es) Htodo1 census_initial Hp1) as Hc1.
  assert (Htodo2' : todo_ok es st1 (folder_values (folderMap st1) ++ [])).
  { by rewrite app_nil_r. }
  pose proof (parseFlatItems_invariant es census (folder_values (folderMap st1))
                (census_step) _ st1 [] st Hwf1 Htodo2' Hc1 Hp2)
    as (Hcopies & Hdirs & Hleaves).
  simpl in Hcopies. split_and!; [|done..|].
  - rewrite Hcopies, omap_app.
    assert (Hfv : omap (copy_at es) (folder_values (folderMap st1)) = []).
    { apply omap_all_None.
      intros r (k & Hk)%folder_values_elem. unfold copy_at.
      destruct (es !! r) as [e|] eqn:He; [|done].
      destruct (wf_folderMap _ _ Hwf1 _ _ Hk) as (_ & o & Ho & _ & [cs Hcs]).
      pose proof (wf_origins _ _ Hwf1 _ _ He). assert (o = of_origin e) as -> by congruence.
      done. }
    rewrite Hfv, app_nil_r. apply (omap_seq_lookup copy_of es []).
  - intros y oy Hy Hoy [cs Hcs].
    destruct (parseFlatItems_wf es st1 (folder_values (folderMap st1)) [] st Hwf1 Htodo2' Hp2)
      as (_ & _ & _ & Hprov).
    destruct (Hprov y Hy) as [Hy1|[Hy1|(o' & Ho' & Hc')]].
    + destruct (parseFlatItems_wf es (initial es) (seq 0 (length es)) [] st1
                  (wf_initial es) Htodo1 Hp1) as (_ & _ & _ & Hprov1).
      destruct (Hprov1 y Hy1) as [Hy0|[[_ Hy0]%elem_of_seq|(o1 & Ho1 & Hc1')]].
      * by apply initial_not_placed in Hy0.
      * destruct (lookup_lt_is_Some_2 es y) as [e He]; [simpl in Hy0; lia|].
        pose proof (wf_origins _ _ Hwf _ _ He). assert (oy = of_origin e) as -> by congruence.
        done.
      * destruct Hg2 as (Hh & _). specialize (Hh _ _ Ho1). rewrite Hc1' in Hh.
        assert (oy = o1) as -> by congruence. congruence.
    + apply folder_values_elem in Hy1 as (k & Hk).
      destruct (wf_folderMap _ _ Hwf1 _ _ Hk) as (_ & o1 & Ho1 & Hname & _).
      destruct (grows_entryName _ _ _ _ Hg2 Ho1) as (o2 & Ho2 & Hname2).
      assert (o2 = oy) as -> by congruence. rewrite Hname2, Hname.
      apply (pass1_folder_keys es st1 k Hp1). apply lookup_own_is_Some. eauto.
    + assert (o' = oy) as -> by congruence. congruence.
Qed.
End Census.

(** ** Which copies a folder reaches *)

Lemma reach_snoc (h : list ZipEntry) (d y x : ref) (oy : ZipEntry) (cs : list ref) :
  reachable h d y -> h !! y = Some oy -> children oy = Some cs -> x ∈ cs ->
  reachable h d x.
Proof.
  induction 1 as [d o cs' y Hd Hcs' Hy|d o cs' z y Hd Hcs' Hz Hr IH]; intros Hoy Hcs Hx.
  - eapply reach_step; [done..|]. by eapply reach_child.
  - eapply reach_step; [done..|]. by apply IH.
Qed.

Lemma reachable_placed (st : State) (d x : ref) :
  reachable (heap st) d x -> placed st x.
Proof.
  induction 1 as [d o cs x Hd Hcs Hx|]; [|done]. right. by exists d, o, cs.
Qed.

Lemma reachable_has_children (h : list ZipEntry) (d x : ref) :
  reachable h d x -> exists o, h !! d = Some o /\ is_Some (children o).
Proof.
  destruct 1 as [d o cs x Hd Hcs Hx|d o cs y x Hd Hcs Hy Hr];
    exists o; (split; [done|by exists cs]).
Qed.

Section Closed.
Context `{Host} (es : list Origin.t).

Lemma covers_reachable (st : State) (k : string) (d : ref) :
  build es = Ok st -> lookup_own k (folderMap st) = Some d ->
  forall len x ox,
    (String.length (entryName ox) <= len)%nat ->
    placed st x -> heap st !! x = Some ox ->
    coversb es k (entryName ox) = true ->
    reachable (heap st) d x.
Proof.
  intros Hb Hk. pose proof (build_wf es st Hb) as Hwf.
  induction len as [|len IH]; intros x ox Hlen Hx Hox; rewrite coversb_unfold.
  - rewrite parent_path_empty by lia. done.
  - pose proof (placed_where es st x ox Hwf Hox Hx) as Hwhere.
    destruct (parent_path (entryName ox)) as [p|] eqn:Hp; [|done].
    destruct Hwhere as (f & fo & cs & Hf & Hfo & Hcs & Hin).
    intros [Heq|[Hdp Hc]%andb_true_iff]%orb_true_iff.
    + apply String.eqb_eq in Heq as ->. assert (f = d) as -> by congruence.
      by eapply reach_child.
    + apply direct_parentb_true in Hdp as (e & [i Hi]%list_elem_of_lookup_1 & Hpe).
      destruct (build_entry es st i e Hb Hi) as (entry & _ & _ & _ & Hpar).
      destruct (Hpar p Hpe) as (f' & Hf' & Hplaced).
      assert (f' = f) as -> by congruence.
      destruct (wf_folderMap _ _ Hwf _ _ Hf) as (_ & fo' & Hfo' & Hname & _).
      assert (fo' = fo) as -> by congruence.
      apply parent_path_length in Hp.
      eapply reach_snoc; [|done..].
      apply (IH f fo); [rewrite Hname; lia|done..|by rewrite Hname].
Qed.

Lemma reachable_covers (st : State) (d x : ref) :
  build es = Ok st -> reachable (heap st) d x ->
  forall od ox, heap st !! d = Some od -> heap st !! x = Some ox ->
    coversb es (entryName od) (entryName ox) = true.
Proof.
  intros Hb. pose proof (build_wf es st Hb) as Hwf.
  destruct (build_census es st Hb) as (_ & _ & _ & Hfolders).
  induction 1 as [d o cs x Hd Hcs Hx|d o cs y x Hd Hcs Hy Hr IH]; intros od ox Hod Hox.
  - assert (od = o) as -> by congruence.
    destruct (wf_folders _ _ Hwf _ _ _ Hd Hcs) as (_ & _ & _ & Hch).
    destruct (Hch x Hx) as (ox' & Hox' & Hp). assert (ox' = ox) as -> by congruence.
    rewrite coversb_unfold, Hp. by rewrite String.eqb_refl.
  - assert (od = o) as -> by congruence.
    destruct (wf_folders _ _ Hwf _ _ _ Hd Hcs) as (_ & _ & _ & Hch).
    destruct (Hch y Hy) as (oy & Hoy & Hp).
    destruct (reachable_has_children _ _ _ Hr) as (oy' & Hoy' & Hcy).
    assert (oy' = oy) as -> by congruence.
    apply (coversb_extend es (entryName oy) (entryName o) (String.length (entryName ox)));
      [done| |done|by apply IH].
    apply (Hfolders y oy); [|done..]. right. by exists d, o, cs.
Qed.

(** The files a folder reaches are the copies whose path it covers. *)
Lemma reached_files (st : State) (k : string) (d : ref) (x : ref) :
  build es = Ok st -> lookup_own k (folderMap st) = Some d ->
  (reachable (heap st) d x /\ is_file (heap st) x <->
   (length es <= x)%nat /\
   exists ox, heap st !! x = Some ox /\ isDirectory ox = false /\
              coversb es k (entryName ox) = true).
Proof.
  intros Hb Hk. pose proof (build_wf es st Hb) as Hwf.
  destruct (build_census es st Hb) as (_ & Hdirs & Hleaves & _).
  destruct (wf_folderMap _ _ Hwf _ _ Hk) as (_ & od & Hod & Hname & _).
  split.
  - intros [Hr (ox & Hox & Hfile)].
    assert (Hge : (length es <= x)%nat).
    { destruct (decide (length es <= x)%nat) as [|Hlt]; [done|].
      destruct (Hdirs x) as (e & He & Hd); [by eapply reachable_placed|lia|].
      pose proof (wf_origins _ _ Hwf _ _ He). assert (ox = of_origin e) as -> by congruence.
      simpl in Hfile. congruence. }
    split; [done|]. exists ox. split_and!; [done..|].
    rewrite <- Hname. by eapply reachable_covers.
  - intros (Hge & ox & Hox & Hfile & Hc).
    assert (Hleaf : children ox = None).
    { destruct (children ox) as [cs|] eqn:Hcs; [|done].
      destruct (wf_folders _ _ Hwf _ _ _ Hox Hcs) as (Hs & _). rewrite Hs in Hfile. done. }
    destruct (Hleaves x ox Hox Hleaf Hge) as [Hplaced _].
    split; [|by exists ox].
    by eapply (covers_reachable st k d Hb Hk (String.length (entryName ox))).
Qed.
End Closed.

(** ** From references to records *)

(** A total over the positions of a list that pass a test is the total
    over its elements that pass it. *)
Lemma total_positions {A} (g : A -> Z) (P : A -> bool) (l : list A) :
  forall pre,
    total (map (fun x => default 0 (g <$> (pre ++ l) !! x))
             (filter (fun x => (P <$> (pre ++ l) !! x) = Some true)
                (seq (length pre) (length l))))
    = total (map g (filter (fun o => P o = true) l)).
Proof.
  induction l as [|y l IH]; intros pre; [done|].
  change (seq (length pre) (length (y :: l)))
    with (length pre :: seq (S (length pre)) (length l)).
  specialize (IH (pre ++ [y])). rewrite <- app_assoc, length_app in IH.
  replace (length pre + length [y])%nat with (S (length pre)) in IH by (simpl; lia).
  simpl in IH. rewrite !filter_cons, list_lookup_middle by done. simpl.
  destruct (P y) eqn:Hy.
  - rewrite decide_True by done. rewrite decide_True by done. simpl.
    rewrite list_lookup_middle by done. simpl. by rewrite IH.
  - rewrite decide_False by (intros [=]). rewrite decide_False by done. apply IH.
Qed.

Section ClosedForm.
Context `{Host} (es : list Origin.t).

Definition object_size (prop : ZipEntry -> option Z) (o : ZipEntry) : Z :=
  default 0 (prop o).

Lemma copies_total (prop : ZipEntry -> option Z) (size : Origin.t -> Z) (k : string) :
  (forall e, object_size prop (wrap (of_origin e)) = size e) ->
  forall l : list Origin.t,
    total (map (object_size prop)
             (filter (fun o => coversb es k (entryName o) = true) (omap copy_of l)))
    = total (map size (filter (fun e => countedb es k e = true) l)).
Proof.
  intros Hsize. induction l as [|e l IH]; [done|].
  rewrite omap_cons_list, filter_app, map_app, total_app, IH, filter_cons.
  assert (Hcount : countedb es k e
            = negb (Origin.isDirectory e) && coversb es k (Origin.entryName e)) by done.
  unfold copy_of. destruct (Origin.isDirectory e); simpl in Hcount.
  - change (option_list None) with (@nil ZipEntry). rewrite filter_nil.
    rewrite decide_False by (by rewrite Hcount). simpl. lia.
  - change (option_list (Some (wrap (of_origin e)))) with [wrap (of_origin e)].
    rewrite filter_cons, filter_nil.
    change (entryName (wrap (of_origin e))) with (Origin.entryName e).
    rewrite Hcount.
    destruct (decide (coversb es k (Origin.entryName e) = true)) as [Hc|Hc].
    + simpl. rewrite Hsize. lia.
    + simpl. lia.
Qed.

(** On the store the two passes leave, what [sum] returns for the
    [children] of the folder of [k] is the total size of the file
    records that [k] covers. *)
Lemma folder_aggregate (st : State) (fuel : nat) (prop : ZipEntry -> option Z)
    (size : Origin.t -> Z) (k : string) (d : ref) (o : ZipEntry) (cs : list ref) (v : Z) :
  build es = Ok st ->
  (prop = originFileSize \/ prop = originCompressedSize) ->
  (forall e, object_size prop (wrap (of_origin e)) = size e) ->
  lookup_own k (folderMap st) = Some d ->
  heap st !! d = Some o -> children o = Some cs ->
  sum fuel (heap st) cs prop = Ok v ->
  v = aggregate es size k.
Proof.
  intros Hb Hprop Hsize Hk Hd Hcs Hsum. pose proof (build_wf es st Hb) as Hwf.
  destruct (folder_sum es st fuel prop d o cs v Hwf Hprop Hd Hcs Hsum)
    as (Hnd & Hfs & ->).
  destruct (build_census es st Hb) as (Hcopies & _).
  pose proof (origins_length es st Hwf) as Hlen.
  set (fs := filter (fun x => file_ref (heap st) x = true)
               (descendants fuel (heap st) cs)) in *.
  set (P := fun o : ZipEntry => negb (isDirectory o) && coversb es k (entryName o)).
  set (pos := filter (fun x => (P <$> heap st !! x) = Some true)
                (seq (length es) (length (heap st) - length es))).
  assert (Hperm : fs ≡ₚ pos).
  { apply NoDup_Permutation; [done|apply NoDup_filter, NoDup_seq|].
    intros x. rewrite Hfs, (reached_files es st k d x Hb Hk).
    unfold pos. rewrite list_elem_of_filter, elem_of_seq. split.
    - intros (Hge & ox & Hox & Hfile & Hc). split.
      + rewrite Hox. simpl. unfold P. by rewrite Hfile, Hc.
      + apply lookup_lt_Some in Hox. lia.
    - intros (HP & Hge & _). split; [done|].
      destruct (heap st !! x) as [ox|] eqn:Hox; [|done]. simpl in HP.
      injection HP as HP. unfold P in HP. apply andb_true_iff in HP as [Hf Hc].
      exists ox. split_and!; [done| |done]. by apply negb_true_iff in Hf. }
  rewrite (total_perm _ _ (Permutation_map _ Hperm)).
  assert (Hsplit : heap st = take (length es) (heap st) ++ drop (length es) (heap st))
    by (by rewrite take_drop).
  assert (Hpre : length (take (length es) (heap st)) = length es)
    by (by apply length_take_le).
  pose proof (total_positions (object_size prop) P (drop (length es) (heap st))
                (take (length es) (heap st))) as Hpos.
  rewrite <- Hsplit, Hpre, length_drop in Hpos.
  unfold aggregate. rewrite <- (copies_total prop size k Hsize es), <- Hcopies.
  unfold copies. rewrite list_filter_filter.
  rewrite (list_filter_iff _ (fun o => P o = true)) by
    (intros o'; unfold P; rewrite andb_true_iff, negb_true_iff; tauto).
  rewrite <- Hpos. f_equal. apply map_ext. intros x. unfold own_size, object_size.
  by destruct (heap st !! x).
Qed.
End ClosedForm.

(** The two size strings of every folder, in closed form: the totals of
    the raw and of the compressed sizes of the file records the folder's
    path covers. *)
Lemma folder_sizes_closed_form `{Host} (fuel : nat) (es : list Origin.t) (r : State)
    (k : string) (d : ref) :
  parseZipAsTree fuel es = Ok r -> lookup_own k (folderMap r) = Some d ->
  exists cs,
    heap r !! d = Some (folder_node k cs (aggregate es record_size k)
                          (aggregate es record_compressed k)).
Proof.
  intros (st & Hb & Hwf & HFM & HfM & Hfiles & Hheap)%parse_inv Hk. rewrite HFM in Hk.
  destruct (wf_folderMap _ _ Hwf _ _ Hk) as (_ & o0 & Hd & Hname & [cs Hcs]).
  destruct (wf_folders _ _ Hwf _ _ _ Hd Hcs) as (Hshape & _).
  destruct (finished_folder _ _ _ _ _ _ Hheap Hd Hcs)
    as (sorted & raw & comp & _ & Hraw & Hcomp & Hr).
  rewrite (folder_aggregate es st fuel originFileSize record_size k d o0 cs raw Hb
             (or_introl eq_refl)) in Hr; try done.
  rewrite (folder_aggregate es st fuel originCompressedSize record_compressed k d o0 cs comp
             Hb (or_intror eq_refl)) in Hr; try done.
  exists sorted. rewrite Hr. f_equal. rewrite Hshape, Hname. reflexivity.
Qed.

Definition deep_pair_result : State := Eval vm_compute in run 3 deep_pair.

(** * More on paths *)

(** [s] holds no separator. *)
Fixpoint no_slash (s : string) : bool :=
  match s with
  | EmptyString => true
  | String c s' => negb (is_slash c) && no_slash s'
  end.

Lemma split_no_slash (s : string) : no_slash s = true -> split s = [s].
Proof.
  induction s as [|c s IH]; [done|]. simpl.
  intros [Hc Hs]%andb_true_iff. apply negb_true_iff in Hc. rewrite Hc.
  by rewrite (IH Hs).
Qed.

Lemma split_segments (s : string) : Forall (fun seg => no_slash seg = true) (split s).
Proof.
  induction s as [|c s IH]; simpl; [by repeat constructor|].
  destruct (is_slash c) eqn:Hc; [by constructor|].
  destruct (split s) as [|seg rest]; [by repeat constructor; simpl; rewrite Hc|].
  apply Forall_cons in IH as [Hseg Hrest]. constructor; [|done].
  simpl. by rewrite Hc, Hseg.
Qed.

Lemma split_app_slash (a b : string) :
  split (a ++ "/" ++ b) = split a ++ split b.
Proof.
  induction a as [|c a IH]; [reflexivity|].
  rewrite string_app_cons. simpl. rewrite IH.
  destruct (is_slash c); [reflexivity|].
  destruct (split a) eqn:Ha; [by destruct (split_nonempty a)|reflexivity].
Qed.

Lemma pop_app (l l' : list string) : l' <> [] -> pop (l ++ l') = l ++ pop l'.
Proof. intros Hne. unfold pop. by apply removelast_app. Qed.

Lemma join_app (l l' : list string) :
  l <> [] -> l' <> [] -> join (l ++ l') = (join l ++ "/" ++ join l')%string.
Proof.
  intros Hl Hl'. induction l as [|a l IH]; [done|].
  destruct l as [|b l].
  - change (join ([a] ++ l')) with (join (a :: l')).
    by rewrite (join_cons a l') by done.
  - change ((a :: b :: l) ++ l') with (a :: ((b :: l) ++ l')).
    rewrite (join_cons a ((b :: l) ++ l')) by done.
    rewrite IH by done. rewrite (join_cons a (b :: l)) by done.
    by rewrite !string_app_assoc.
Qed.

(** The parent path of [a/b], from the parent path of [b]. *)
Lemma parent_path_app (a b : string) :
  parent_path (a ++ "/" ++ b) =
  Some (match parent_path b with
        | None => a
        | Some p => (a ++ "/" ++ p)%string
        end).
Proof.
  unfold parent_path. rewrite split_app_slash, pop_app by apply split_nonempty.
  rewrite length_app.
  destruct (split a) as [|x l] eqn:Ha; [by destruct (split_nonempty a)|].
  simpl length. simpl Nat.eqb. rewrite <- Ha. f_equal.
  destruct (pop (split b)) as [|y l'] eqn:Hb; simpl Nat.eqb; cbv iota.
  - rewrite app_nil_r. apply join_split.
  - rewrite join_app; [|apply split_nonempty|done]. by rewrite join_split.
Qed.

Lemma parent_path_no_slash (s : string) :
  parent_path s = None <-> no_slash s = true.
Proof.
  split.
  - intros Hp%parent_path_None.
    pose proof (split_pop_last s) as Hs. rewrite Hp in Hs. simpl in Hs.
    pose proof (join_split s) as Hj. rewrite Hs in Hj. simpl in Hj.
    pose proof (split_segments s) as Hall. rewrite Hs in Hall.
    apply Forall_cons in Hall as [Hx _]. by rewrite Hj in Hx.
  - intros Hs. apply parent_path_None. by rewrite (split_no_slash s Hs).
Qed.

Lemma parent_path_last (s p : string) :
  parent_path s = Some p <->
  exists last, s = (p ++ "/" ++ last)%string /\ no_slash last = true.
Proof.
  split.
  - intros [Hne <-]%parent_path_Some. exists (List.last (split s) "").
    split; [by apply parent_decompose|].
    pose proof (split_segments s) as Hall. rewrite (split_pop_last s) in Hall.
    apply Forall_app in Hall as [_ Hall]. by apply Forall_cons in Hall as [? _].
  - intros (last & -> & Hlast). rewrite parent_path_app.
    apply parent_path_no_slash in Hlast. by rewrite Hlast.
Qed.

(** X1: the parent path the loop body computes with [split], [pop] and
    [join] is the text in front of the last separator.  An entry name
    without a separator has no parent path and goes to the roots; any
    other entry name is its parent path, a separator and a last segment
    that holds no separator. *)
Theorem parent_path_is_text_before_last_slash (s : string) :
  (parent_path s = None <-> no_slash s = true) /\
  (forall p, parent_path s = Some p <->
     exists last, s = (p ++ "/" ++ last)%string /\ no_slash last = true).
Proof. split; [apply parent_path_no_slash|intros p; apply parent_path_last]. Qed.

(** ** Paths below a path *)

Lemma prefix_app (a s : string) :
  String.prefix a s = true <-> exists b, s = (a ++ b)%string.
Proof.
  revert s. induction a as [|c a IH]; intros s.
  - split; [intros _; exists s; reflexivity|by destruct s].
  - destruct s as [|c' s].
    + split; [discriminate|]. intros (b & Hb). rewrite string_app_cons in Hb. discriminate.
    + simpl. destruct (ascii_dec c c') as [->|Hne].
      * rewrite IH. split; intros (b & Hb); exists b.
        -- by rewrite string_app_cons, Hb.
        -- rewrite string_app_cons in Hb. by injection Hb.
      * split; [discriminate|]. intros (b & Hb). rewrite string_app_cons in Hb. congruence.
Qed.

(** [s] lies below [k]: it starts with [k] and a separator. *)
Definition below (k s : string) : bool := String.prefix (k ++ "/") s.

Lemma below_app (k s : string) :
  below k s = true <-> exists rest, s = (k ++ "/" ++ rest)%string.
Proof.
  unfold below. rewrite prefix_app. split; intros (b & ->); exists b;
    by rewrite ?string_app_assoc.
Qed.

(** The paths above [s] are the paths [s] lies below. *)
Lemma ancestor_below (k : string) (s : string) :
  (exists n, ancestor_path (S n) s = Some k) <-> below k s = true.
Proof.
  rewrite below_app. split.
  - intros [n Hn]. revert s Hn. induction n as [|n IH]; intros s; simpl.
    + destruct (parent_path s) as [p|] eqn:Hp; [|done]. simpl. intros [= ->].
      apply parent_path_last in Hp as (last & -> & _). eauto.
    + destruct (parent_path s) as [p|] eqn:Hp; [|done]. intros Hn.
      apply parent_path_last in Hp as (last & -> & _).
      destruct (IH p Hn) as (rest & ->). exists (rest ++ "/" ++ last)%string.
      by rewrite !string_app_assoc.
  - intros (rest & ->).
    remember (String.length rest) as len eqn:Hlen.
    revert rest Hlen. induction len as [len IH] using lt_wf_ind. intros rest ->.
    destruct (parent_path rest) as [r|] eqn:Hr.
    + pose proof (parent_path_length _ _ Hr) as Hshort.
      destruct (IH _ Hshort r eq_refl) as [n Hn].
      exists (S n). change (ancestor_path (S (S n)) (k ++ "/" ++ rest))
        with (parent_path (k ++ "/" ++ rest) ≫= ancestor_path (S n)).
      by rewrite parent_path_app, Hr.
    + exists 0%nat. simpl. by rewrite parent_path_app, Hr.
Qed.

(** * Which archives make the function throw *)

(** The parent path of [s] is the name of a property every object
    inherits. *)
Definition inherited_parent (s : string) : bool :=
  match parent_path s with
  | Some p => inherited p
  | None => false
  end.

(** Some record has such a parent path, or a parent path whose own
    parent path is such a name. *)
Definition prototype_hazard (es : list Origin.t) : bool :=
  existsb (fun e => inherited_parent (Origin.entryName e) ||
                    match parent_path (Origin.entryName e) with
                    | Some p => inherited_parent p
                    | None => false
                    end) es.

(** The length of the longest entry name of the archive. *)
Definition longest (es : list Origin.t) : nat :=
  foldr (fun e m => Nat.max (String.length (Origin.entryName e)) m) 0%nat es.

Lemma prototype_hazard_true (es : list Origin.t) :
  prototype_hazard es = true <->
  exists k, inherited k = true /\
    (direct_parent es k \/ exists p, direct_parent es p /\ parent_path p = Some k).
Proof.
  unfold prototype_hazard, inherited_parent. rewrite existsb_exists. split.
  - intros (e & He%list_elem_of_In & Hh).
    destruct (parent_path (Origin.entryName e)) as [p|] eqn:Hp; [|done].
    apply orb_true_iff in Hh as [Hh|Hh].
    + exists p. split; [done|]. left. by exists e.
    + destruct (parent_path p) as [q|] eqn:Hq; [|done].
      exists q. split; [done|]. right. exists p. split; [by exists e|done].
  - intros (k & Hk & [(e & He & Hp)|(p & (e & He & Hp) & Hq)]);
      exists e; (split; [by apply list_elem_of_In|]); rewrite Hp.
    + by rewrite Hk.
    + rewrite Hq, Hk. apply orb_true_r.
Qed.

Lemma longest_ge (es : list Origin.t) (e : Origin.t) :
  e ∈ es -> (String.length (Origin.entryName e) <= longest es)%nat.
Proof.
  induction es as [|e' es IH]; [by intros ?%elem_of_nil|].
  intros [->|He]%elem_of_cons; simpl; [lia|]. specialize (IH He). lia.
Qed.

Lemma max_path_le (h : list ZipEntry) (n : nat) :
  (forall r o, h !! r = Some o -> (String.length (entryName o) <= n)%nat) ->
  (max_path h <= n)%nat.
Proof.
  induction h as [|o h IH]; intros Hall; simpl; [lia|].
  pose proof (Hall 0%nat o eq_refl).
  assert (max_path h <= n)%nat by (apply IH; intros r o' Hr; by apply (Hall (S r))).
  lia.
Qed.

Section Outcome.
Context `{Host} (es : list Origin.t).

(** An iteration completes, or throws because the parent path it looks
    up is the name of an inherited property. *)
Lemma parseFlatItem_throws (st : State) (origin : ref) :
  wf es st -> origin_ok es st origin ->
  (exists st', parseFlatItem st origin = Ok st') \/
  (parseFlatItem st origin = Fail TypeError /\
   exists o, heap st !! origin = Some o /\ inherited_parent (entryName o) = true).
Proof.
  intros Hwf Hok. unfold parseFlatItem, make_entry.
  destruct (lookup_lt_is_Some_2 (heap st) origin) as [o Ho];
    [by apply (origin_ok_valid es)|].
  rewrite Ho. simpl.
  assert (Hplace : forall st0 entry e, wf es st0 ->
            (exists st', place_entry st0 entry e = Ok st') \/
            (place_entry st0 entry e = Fail TypeError /\
             inherited_parent (entryName e) = true)).
  { intros st0 entry e Hwf0. unfold place_entry, inherited_parent, parent_path.
    destruct (length (pop (split (entryName e))) =? 0)%nat; [eauto|].
    unfold get_prop.
    destruct (lookup_own _ (folderMap st0)) as [folder|] eqn:Hl.
    - destruct (wf_folderMap _ _ Hwf0 _ _ Hl) as (_ & f & Hf & _ & [cs Hcs]).
      unfold push_child. rewrite Hf. simpl. rewrite Hcs. simpl. eauto.
    - destruct (inherited _); eauto. }
  destruct (isDirectory o) eqn:Hd.
  - destruct (Hplace st origin o Hwf) as [?|[? ?]]; [by left|right]. eauto.
  - assert (Hm : make_entry st origin
                 = Ok (length (heap st), wrap o, with_heap (heap st ++ [wrap o]) st)).
    { unfold make_entry. rewrite Ho. simpl. by rewrite Hd. }
    destruct (make_entry_step es _ _ _ _ _ Hwf Hok Hm) as (Hwf0 & _).
    destruct (Hplace _ (length (heap st)) (wrap o) Hwf0) as [?|[? ?]]; [by left|right].
    eauto.
Qed.

Lemma parseFlatItems_throws (l1 : list ref) :
  forall (st : State) (l2 : list ref),
    wf es st -> todo_ok es st (l1 ++ l2) ->
    (exists st', parseFlatItems st l1 = Ok st') \/
    (parseFlatItems st l1 = Fail TypeError /\
     exists x o, x ∈ l1 /\ heap st !! x = Some o /\
       inherited_parent (entryName o) = true).
Proof.
  induction l1 as [|origin l1 IH]; intros st l2 Hwf Htodo; simpl; [eauto|].
  pose proof Htodo as [Hnd Hall]. destruct (Hall origin) as [Hok _]; [left|].
  destruct (parseFlatItem_throws st origin Hwf Hok) as [[st1 Hs]|[Hs (o & Ho & Hinh)]].
  - rewrite Hs. simpl.
    destruct (parseFlatItems_wf es st [origin] (l1 ++ l2) st1 Hwf Htodo)
      as (Hwf1 & Hg1 & Htodo1 & _); [simpl; by rewrite Hs|].
    destruct (IH st1 l2 Hwf1 Htodo1) as [?|[Hf (x & o1 & Hx & Ho1 & Hinh)]];
      [by left|right].
    split; [done|].
    destruct (Hall x) as [Hokx _]; [right; apply elem_of_app; by left|].
    destruct (lookup_lt_is_Some_2 (heap st) x) as [o Ho];
      [by apply (origin_ok_valid es)|].
    destruct (grows_entryName _ _ _ _ Hg1 Ho) as (o' & Ho' & Hname).
    assert (o' = o1) as -> by congruence.
    exists x, o. split_and!; [by right|done|by rewrite <- Hname].
  - right. rewrite Hs. split; [done|]. exists origin, o. split_and!; [left|done..].
Qed.

(** After the first pass every folder is still to be visited. *)
Lemma first_pass_inv (st1 : State) :
  parseFlatItems (initial es) (seq 0 (length es)) = Ok st1 ->
  wf es st1 /\ todo_ok es st1 (folder_values (folderMap st1)).
Proof.
  intros Hp1.
  destruct (parseFlatItems_wf es (initial es) (seq 0 (length es)) [] st1 (wf_initial es))
    as (Hwf1 & _ & _ & Hpl1); [rewrite app_nil_r; apply todo_initial|done|].
  split; [done|]. split; [by apply (folder_values_NoDup es)|].
  intros r (k & Hk)%folder_values_elem.
  destruct (wf_folderMap _ _ Hwf1 _ _ Hk) as (_ & o & Ho & _ & Hc).
  split; [right; eauto|]. intros Hpr.
  destruct (Hpl1 r Hpr) as [Hx|[[_ Hx]%elem_of_seq|(o' & Ho' & Hc')]].
  - by apply (initial_not_placed es) in Hx.
  - simpl in Hx. destruct (lookup_lt_is_Some_2 es r) as [e He]; [lia|].
    pose proof (wf_origins _ _ Hwf1 _ _ He) as Hoe.
    assert (o = of_origin e) as -> by congruence. by destruct Hc.
  - assert (o = o') as -> by congruence. rewrite Hc' in Hc. by destruct Hc.
Qed.

(** The two passes complete, or throw a [TypeError]; they throw only
    for an archive with a hazardous path. *)
Lemma build_throws :
  (exists st, build es = Ok st) \/
  (build es = Fail TypeError /\ prototype_hazard es = true).
Proof.
  unfold build. fold (initial es).
  destruct (parseFlatItems_throws (seq 0 (length es)) (initial es) [] (wf_initial es))
    as [[st1 Hp1]|[Hp1 (x & o & Hx & Ho & Hinh)]];
    [rewrite app_nil_r; apply todo_initial| |].
  - rewrite Hp1. simpl. destruct (first_pass_inv st1 Hp1) as [Hwf1 Htodo2].
    destruct (parseFlatItems_throws (folder_values (folderMap st1)) st1 [] Hwf1)
      as [?|[Hp2 (x & o & Hx & Ho & Hinh)]]; [by rewrite app_nil_r|by left|right].
    split; [done|]. apply folder_values_elem in Hx as (k & Hk).
    destruct (wf_folderMap _ _ Hwf1 _ _ Hk) as (_ & o' & Ho' & Hname & _).
    assert (o' = o) as -> by congruence. rewrite Hname in Hinh.
    unfold inherited_parent in Hinh.
    destruct (parent_path k) as [q|] eqn:Hq; [|done].
    apply prototype_hazard_true. exists q. split; [done|]. right. exists k.
    split; [|done]. apply (pass1_folder_keys es st1 k Hp1), lookup_own_is_Some. eauto.
  - right. rewrite Hp1. split; [done|].
    simpl in Ho. change (map of_origin es) with (of_origin <$> es) in Ho.
    rewrite list_lookup_fmap in Ho. destruct (es !! x) as [e|] eqn:He; [|done].
    injection Ho as <-. simpl in Hinh. unfold inherited_parent in Hinh.
    destruct (parent_path (Origin.entryName e)) as [p|] eqn:Hp; [|done].
    apply prototype_hazard_true. exists p. split; [done|]. left.
    exists e. split; [by eapply list_elem_of_lookup_2|done].
Qed.

(** When the two passes complete there was no hazardous path. *)
Lemma build_no_hazard (st : State) : build es = Ok st -> prototype_hazard es = false.
Proof.
  intros Hb. destruct (prototype_hazard es) eqn:Hh; [|done].
  apply prototype_hazard_true in Hh as (k & Hk & Hreg).
  apply (build_folder_keys es st k Hb), lookup_own_is_Some in Hreg as [f Hf].
  destruct (wf_folderMap _ _ (build_wf es st Hb) _ _ Hf) as (Hinh & _). congruence.
Qed.

(** No path in the store is longer than the longest entry name. *)
Lemma build_max_path (st : State) :
  build es = Ok st -> (max_path (heap st) <= longest es)%nat.
Proof.
  intros Hb. pose proof (build_wf es st Hb) as Hwf. apply max_path_le.
  intros r o Hr. destruct (children o) as [cs|] eqn:Hc.
  - destruct (wf_folders _ _ Hwf _ _ _ Hr Hc) as (_ & Hreg & _).
    assert (Hk : entryName o ∈ keys (folderMap st)) by (apply lookup_own_is_Some; eauto).
    apply (build_folder_keys es st _ Hb) in Hk
      as [(e & He & Hp)|(p & (e & He & Hp) & Hq)];
      pose proof (longest_ge es e He); apply parent_path_length in Hp.
    + lia.
    + apply parent_path_length in Hq. lia.
  - destruct (wf_leaves _ _ Hwf _ _ Hr Hc) as [(e & He & ->)|(e & He & _ & ->)];
      by apply longest_ge.
Qed.
End Outcome.

(** X2: an archive in which the parent path of a record, or the parent
    path of such a parent path, is the name of a property that every
    object inherits ([constructor], [toString], [__proto__], ...) makes
    [parseZipAsTree] throw a [TypeError]: [folderMap[parentPath]] is then
    truthy without being a folder, and [children.push] is called on
    [undefined]. *)
Theorem prototype_name_throws `{Host} (fuel : nat) (es : list Origin.t) :
  prototype_hazard es = true -> parseZipAsTree fuel es = Fail TypeError.
Proof.
  intros Hh. unfold parseZipAsTree.
  destruct (build_throws es) as [[st Hb]|[-> _]]; [|done].
  apply build_no_hazard in Hb. congruence.
Qed.

Definition constructor_folder : list Origin.t :=
  [file "readme.txt" "readme.txt" 1 1; file "constructor/a.txt" "a.txt" 2 2].

Lemma prototype_name_throws_witness :
  prototype_hazard constructor_folder = true /\
  @parseZipAsTree sample_host 2 constructor_folder = Fail TypeError.
Proof.
  split; [reflexivity|].
  apply (@prototype_name_throws sample_host 2 constructor_folder). reflexivity.
Defined.

(** X3: for every other archive [parseZipAsTree] returns.  Nothing else
    can go wrong in it: no reference leaves the store, and the recursion
    of [sum] ends, at a depth bounded by the length of the longest entry
    name. *)
Theorem parse_returns `{Host} (fuel : nat) (es : list Origin.t) :
  prototype_hazard es = false -> (longest es + 2 <= fuel)%nat ->
  exists r, parseZipAsTree fuel es = Ok r.
Proof.
  intros Hh Hfuel. destruct (build_throws es) as [[st Hb]|[_ Hh']]; [|congruence].
  unfold parseZipAsTree. rewrite Hb. simpl.
  apply (finalize_total es); [by apply build_wf|].
  pose proof (build_max_path es st Hb). lia.
Qed.

Lemma parse_returns_witness :
  prototype_hazard mixed_folder = false /\ (longest mixed_folder + 2 <= 14)%nat /\
  exists r, @parseZipAsTree sample_host 14 mixed_folder = Ok r.
Proof.
  split; [reflexivity|]. split; [vm_compute; lia|].
  apply (@parse_returns sample_host 14 mixed_folder); [reflexivity|vm_compute; lia].
Defined.

(** * The result, read back in the state the two passes leave *)

Lemma placed_sim (st r : State) (x : ref) :
  files r ≡ₚ files st -> heap_sim (heap st) (heap r) -> placed st x -> placed r x.
Proof.
  intros Hf Hs [Hx|(f & o & cs & Hfo & Hc & Hx)]; [left; by rewrite Hf|right].
  destruct (Forall2_lookup_l _ _ _ _ _ Hs Hfo) as (o' & Hfo' & Hsim).
  destruct Hsim as (_ & _ & _ & _ & _ & _ & _ & Hch). rewrite Hc in Hch.
  destruct (children o') as [cs'|] eqn:Hc'; [|done].
  exists f, o', cs'. split_and!; [done..|]. by rewrite Hch.
Qed.

Section Final.
Context `{Host}.

Lemma result_object (fuel : nat) (st r : State) (x : ref) (o' : ZipEntry) :
  Forall2 (finished fuel (heap st)) (heap st) (heap r) -> heap r !! x = Some o' ->
  exists o, heap st !! x = Some o /\ sim o o'.
Proof.
  intros HF Hx.
  destruct (Forall2_lookup_r _ _ _ _ _ (finished_heap_sim _ _ _ HF) Hx) as (o & ? & ?).
  eauto.
Qed.

Lemma result_folder (fuel : nat) (st r : State) (d : ref) (o' : ZipEntry) (cs' : list ref) :
  Forall2 (finished fuel (heap st)) (heap st) (heap r) ->
  heap r !! d = Some o' -> children o' = Some cs' ->
  exists o cs, heap st !! d = Some o /\ children o = Some cs /\ cs' ≡ₚ cs /\
               entryName o' = entryName o.
Proof.
  intros HF Hd Hc. destruct (result_object _ _ _ _ _ HF Hd) as (o & Ho & Hsim).
  destruct Hsim as (_ & _ & Hname & _ & _ & _ & _ & Hch). rewrite Hc in Hch.
  destruct (children o) as [cs|] eqn:Hcs; [|done]. by exists o, cs.
Qed.

Lemma placed_result (fuel : nat) (st r : State) (x : ref) :
  sort_refs (heap st) (files st) = Ok (files r) ->
  Forall2 (finished fuel (heap st)) (heap st) (heap r) ->
  (placed r x <-> placed st x).
Proof.
  intros Hfiles%sort_refs_perm HF%finished_heap_sim. split.
  - apply placed_sim; [done|by apply heap_sim_sym].
  - by apply placed_sim.
Qed.
End Final.

(** * The keys of [folderMap], exactly *)

(** X4: the keys of [folderMap] are the parent paths of the records of
    the archive and the parent paths of those parent paths, and nothing
    else: the second pass climbs one level, not to the top. *)
Theorem folderMap_keys_exact `{Host} (fuel : nat) (es : list Origin.t) (r : State)
    (k : string) :
  parseZipAsTree fuel es = Ok r ->
  (k ∈ keys (folderMap r) <->
   direct_parent es k \/ exists p, direct_parent es p /\ parent_path p = Some k).
Proof.
  intros (st & Hb & _ & HFM & _)%parse_inv. rewrite HFM.
  by apply build_folder_keys.
Qed.

Lemma folderMap_keys_exact_witness :
  @parseZipAsTree sample_host 3 deep_pair = Ok deep_pair_result /\
  ("a" ∈ keys (folderMap deep_pair_result) <->
   direct_parent deep_pair "a" \/
   exists p, direct_parent deep_pair p /\ parent_path p = Some "a").
Proof.
  split; [by vm_compute|].
  apply (@folderMap_keys_exact sample_host 3 deep_pair). by vm_compute.
Defined.

(** * The keys of [fileMap], exactly *)

Lemma keys_set_prop_inv {V} (k k' : string) (v : V) (m : jsobj V) :
  k' ∈ keys (set_prop k v m) -> k' ∈ keys m \/ (k' = k /\ k <> "__proto__").
Proof.
  unfold set_prop. destruct (String.eqb_spec k "__proto__") as [->|Hne]; [by left|].
  rewrite keys_assign_elem. intros [->|?]; [by right|by left].
Qed.

Section FileKeys.
Context `{Host} (es : list Origin.t).

(** What one iteration does to [fileMap]. *)
Lemma parseFlatItem_fileMap (st : State) (origin : ref) (st' : State) (o : ZipEntry) :
  parseFlatItem st origin = Ok st' -> heap st !! origin = Some o ->
  fileMap st' = fileMap st \/
  (isDirectory o = false /\
   fileMap st' = set_prop (entryName o) (length (heap st)) (fileMap st) /\
   forall p, parent_path (entryName o) = Some p -> is_Some (lookup_own p (folderMap st))).
Proof.
  unfold parseFlatItem. intros Hstep Ho.
  apply rbind_Ok in Hstep as ([[entry e] st0] & Hm & Hp).
  apply make_entry_inv in Hm as (o0 & Ho0 & Hcase).
  assert (o0 = o) as -> by congruence.
  destruct Hcase as [(Hd & -> & -> & ->)|(Hd & -> & -> & ->)].
  - left. apply place_entry_inv in Hp
      as [(_ & ->)|[(p & folder & f & cs & _ & _ & _ & _ & ->)|(p & _ & _ & _ & ->)]];
      unfold register_file; by rewrite ?Hd.
  - apply place_entry_inv in Hp
      as [(Hp & ->)|[(p & folder & f & cs & Hp & Hl & _ & _ & ->)|(p & _ & _ & _ & ->)]].
    + right. split; [done|]. unfold register_file. simpl. rewrite Hd. simpl.
      split; [done|]. simpl in Hp. intros p. by rewrite Hp.
    + right. split; [done|]. unfold register_file. simpl. rewrite Hd. simpl.
      split; [done|]. simpl in Hp, Hl. intros p'. rewrite Hp. intros [= <-]. eauto.
    + by left.
Qed.

(** Every key the first pass has put into [fileMap] after [i] records. *)
Lemma pass1_fileMap (i : nat) :
  forall sti, (i <= length es)%nat ->
    parseFlatItems (initial es) (seq 0 i) = Ok sti ->
    forall k, k ∈ keys (fileMap sti) ->
      k <> "__proto__" /\
      exists j e, (j < i)%nat /\ es !! j = Some e /\ Origin.isDirectory e = false /\
        Origin.entryName e = k /\ parent_seen es j e.
Proof.
  induction i as [|i IH]; intros sti Hi.
  - simpl. intros [= <-] k Hk. simpl in Hk. by apply elem_of_nil in Hk.
  - rewrite seq_S. simpl. intros Hrun k Hk.
    apply parseFlatItems_app in Hrun as (sta & Hpre & Hrun).
    simpl in Hrun. apply rbind_Ok in Hrun as (stb & Hstep & [= <-]).
    assert (Hlt : (i < length es)%nat) by lia.
    pose proof (todo_initial es) as Htodo.
    rewrite (seq_prefix i (length es)) in Htodo by lia.
    destruct (parseFlatItems_wf es _ _ _ _ (wf_initial es) Htodo Hpre) as (Hwfa & _).
    destruct (lookup_lt_is_Some_2 es i Hlt) as [e He].
    pose proof (wf_origins _ _ Hwfa _ _ He) as Ho.
    assert (Hold : k ∈ keys (fileMap sta) ->
              k <> "__proto__" /\
              exists j e, (j < S i)%nat /\ es !! j = Some e /\
                Origin.isDirectory e = false /\ Origin.entryName e = k /\
                parent_seen es j e).
    { intros Hk'. destruct (IH sta ltac:(lia) Hpre k Hk') as (? & j & e' & ? & ?).
      split; [done|]. exists j, e'. split; [lia|done]. }
    destruct (parseFlatItem_fileMap _ _ _ _ Hstep Ho) as [Hsame|(Hd & Hfm & Hpar)].
    + apply Hold. by rewrite <- Hsame.
    + rewrite Hfm in Hk. apply keys_set_prop_inv in Hk as [Hk|[-> Hne]]; [by apply Hold|].
      split; [done|]. exists i, e. split_and!; [lia|done..|].
      unfold parent_seen. simpl in Hpar |- *.
      destruct (parent_path (Origin.entryName e)) as [p|] eqn:Hp; [right|by left].
      destruct (Hpar p eq_refl) as [f Hf].
      destruct (parseFlatItems_keys es (initial es) (seq 0 i) _ sta p (wf_initial es) Htodo Hpre)
        as [Hk0|(x & ox & Hx & Hox & Hpx)]; [apply lookup_own_is_Some; eauto| |].
      * by apply elem_of_nil in Hk0.
      * simpl in Hox. change (map of_origin es) with (of_origin <$> es) in Hox.
        rewrite list_lookup_fmap in Hox. destruct (es !! x) as [e'|] eqn:He'; [|done].
        injection Hox as <-. apply elem_of_seq in Hx. exists x, e'.
        split_and!; [lia|done|done].
Qed.

(** A pass over folders leaves [fileMap] alone. *)
Lemma folders_pass_fileMap (l1 : list ref) :
  forall (st : State) (l2 : list ref) (st' : State),
    wf es st -> todo_ok es st (l1 ++ l2) ->
    (forall x, x ∈ l1 -> exists o, heap st !! x = Some o /\ is_Some (children o)) ->
    parseFlatItems st l1 = Ok st' -> fileMap st' = fileMap st.
Proof.
  induction l1 as [|origin l1 IH]; intros st l2 st' Hwf Htodo Hall; simpl.
  - by intros [= <-].
  - intros Hrun. apply rbind_Ok in Hrun as (st1 & Hstep & Hrun).
    destruct (parseFlatItems_wf es st [origin] (l1 ++ l2) st1 Hwf Htodo)
      as (Hwf1 & Hg1 & Htodo1 & _); [simpl; by rewrite Hstep|].
    destruct (Hall origin) as (o & Ho & [cs Hcs]); [left|].
    rewrite (IH st1 l2 st' Hwf1 Htodo1); [| |done].
    + destruct (parseFlatItem_fileMap _ _ _ _ Hstep Ho) as [?|(Hd & _)]; [done|].
      destruct (wf_folders _ _ Hwf _ _ _ Ho Hcs) as (Hs & _). rewrite Hs in Hd. done.
    + intros x Hx. destruct (Hall x) as (ox & Hox & [csx Hcx]); [by right|].
      destruct Hg1 as (Hh & _). specialize (Hh _ _ Hox). rewrite Hcx in Hh.
      destruct Hh as (cs' & Hx' & _). eexists. split; [done|]. simpl. eauto.
Qed.

Lemma build_fileMap (st : State) (k : string) :
  build es = Ok st -> k ∈ keys (fileMap st) ->
  k <> "__proto__" /\
  exists i e, es !! i = Some e /\ Origin.isDirectory e = false /\
    Origin.entryName e = k /\ parent_seen es i e.
Proof.
  intros (st1 & Hp1 & Hp2 & Hwf1 & _ & Htodo2 & _)%build_inv Hk.
  rewrite (folders_pass_fileMap (folder_values (folderMap st1)) st1 [] st Hwf1) in Hk;
    [|by rewrite app_nil_r| |done].
  - destruct (pass1_fileMap (length es) st1 ltac:(lia) Hp1 k Hk) as (? & i & e & _ & ?).
    split; [done|]. by exists i, e.
  - intros x (p & Hp)%folder_values_elem.
    destruct (wf_folderMap _ _ Hwf1 _ _ Hp) as (_ & o & ? & _ & ?). eauto.
Qed.
End FileKeys.

(** X5: the keys of [fileMap].  The path of a file record is a key
    exactly when some file record with that path is a root or comes
    after a record with the same parent path: the record that makes the
    loop create a folder is put into the folder's [children] but not into
    [fileMap].  (The path ["__proto__"] is never a key: assigning to it
    sets the prototype of the object.) *)
Theorem fileMap_keys_exact `{Host} (fuel : nat) (es : list Origin.t) (r : State)
    (k : string) :
  parseZipAsTree fuel es = Ok r ->
  (k ∈ keys (fileMap r) <->
   k <> "__proto__" /\
   exists i e, es !! i = Some e /\ Origin.isDirectory e = false /\
     Origin.entryName e = k /\ parent_seen es i e).
Proof.
  intros Hp. pose proof Hp as (st & Hb & _ & _ & HfM & _)%parse_inv. split.
  - rewrite HfM. by apply build_fileMap.
  - intros (Hne & i & e & Hi & Hd & <- & Hseen).
    destruct (parse_entry es fuel r i e Hp Hi) as (_ & _ & _ & _ & Hreg). by apply Hreg.
Qed.

Definition siblings : list Origin.t :=
  [file "x/a.txt" "a.txt" 1 1; file "x/b.txt" "b.txt" 2 2; file "top.txt" "top.txt" 3 3].

Definition siblings_result : State := Eval vm_compute in run 2 siblings.

Lemma fileMap_keys_exact_witness :
  @parseZipAsTree sample_host 2 siblings = Ok siblings_result /\
  keys (fileMap siblings_result) = ["x/b.txt"; "top.txt"] /\
  ("x/a.txt" ∈ keys (fileMap siblings_result) <->
   "x/a.txt" <> "__proto__" /\
   exists i e, siblings !! i = Some e /\ Origin.isDirectory e = false /\
     Origin.entryName e = "x/a.txt" /\ parent_seen siblings i e).
Proof.
  split; [by vm_compute|]. split; [by vm_compute|].
  apply (@fileMap_keys_exact sample_host 2 siblings). by vm_compute.
Defined.

(** * What is never written *)

(** X6: the records the archive reader hands over are never written to.
    A file record is copied; a directory record is put into the tree as
    the object it is, and the loop over [folderMap], which assigns
    [children], [fileSize] and [compressedSize], only meets objects the
    builder made. *)
Theorem records_are_not_modified `{Host} (fuel : nat) (es : list Origin.t) (r : State)
    (i : nat) (e : Origin.t) :
  parseZipAsTree fuel es = Ok r -> es !! i = Some e ->
  heap r !! i = Some (of_origin e) /\
  forall k, lookup_own k (folderMap r) <> Some i.
Proof.
  intros (st & Hb & Hwf & HFM & _ & _ & Hheap)%parse_inv Hi.
  pose proof (wf_origins _ _ Hwf _ _ Hi) as Ho. split.
  - by eapply finished_leaf.
  - intros k Hk. rewrite HFM in Hk.
    destruct (wf_folderMap _ _ Hwf _ _ Hk) as (_ & o & Ho' & _ & [cs Hcs]).
    assert (o = of_origin e) as -> by congruence. done.
Qed.

Lemma records_are_not_modified_witness :
  @parseZipAsTree sample_host 3 mixed_folder = Ok mixed_folder_result /\
  heap mixed_folder_result !! 1%nat = Some (of_origin (dir "x/sub/")) /\
  forall k, lookup_own k (folderMap mixed_folder_result) <> Some 1%nat.
Proof.
  split; [by vm_compute|].
  apply (@records_are_not_modified sample_host 3 mixed_folder); by vm_compute.
Defined.

(** * The shape of the tree *)

(** X7: every node hangs where its path says.  A root has an entry name
    without separator.  A node with [children] is the folder registered
    in [folderMap] under its own entry name, and the parent path of each
    of its children is that entry name; so whatever is reached from the
    folder registered under [k] has an entry name that starts with [k]
    and a separator. *)
Theorem nodes_hang_where_their_path_says `{Host} (fuel : nat) (es : list Origin.t)
    (r : State) :
  parseZipAsTree fuel es = Ok r ->
  (forall x, x ∈ files r ->
     exists ox, heap r !! x = Some ox /\ no_slash (entryName ox) = true) /\
  (forall d o cs, heap r !! d = Some o -> children o = Some cs ->
     lookup_own (entryName o) (folderMap r) = Some d /\
     forall c, c ∈ cs ->
       exists oc, heap r !! c = Some oc /\
                  parent_path (entryName oc) = Some (entryName o)) /\
  (forall d x o ox, reachable (heap r) d x ->
     heap r !! d = Some o -> heap r !! x = Some ox ->
     below (entryName o) (entryName ox) = true).
Proof.
  intros (st & Hb & Hwf & HFM & _ & Hfiles & Hheap)%parse_inv.
  pose proof (finished_heap_sim _ _ _ Hheap) as Hsim.
  assert (Hname : forall x o, heap st !! x = Some o ->
            exists o', heap r !! x = Some o' /\ entryName o' = entryName o).
  { intros x o Hx. destruct (Forall2_lookup_l _ _ _ _ _ Hsim Hx) as (o' & Hx' & Hs).
    exists o'. split; [done|]. by destruct Hs as (_ & _ & ? & _). }
  split_and!.
  - intros x Hx. rewrite (sort_refs_perm _ _ _ Hfiles) in Hx.
    destruct (wf_files _ _ Hwf x Hx) as (o & Ho & Hp).
    destruct (Hname x o Ho) as (o' & Ho' & Hn). exists o'. split; [done|].
    rewrite Hn. by apply parent_path_no_slash.
  - intros d o' cs' Hd Hc.
    destruct (result_folder _ _ _ _ _ _ Hheap Hd Hc) as (o & cs & Ho & Hcs & Hperm & Hn).
    destruct (wf_folders _ _ Hwf _ _ _ Ho Hcs) as (_ & Hreg & _ & Hch).
    rewrite HFM, Hn. split; [done|]. intros c Hin. rewrite Hperm in Hin.
    destruct (Hch c Hin) as (oc & Hoc & Hp).
    destruct (Hname c oc Hoc) as (oc' & Hoc' & Hn'). exists oc'. by rewrite Hn'.
  - intros d x o' ox' Hr Hd Hx.
    apply (reachable_sim _ _ _ _ (heap_sim_sym _ _ Hsim)) in Hr.
    destruct (reachable_below es st d x Hwf Hr) as (o & ox & n & Ho & _ & Hox & Hanc).
    destruct (Hname d o Ho) as (o2 & Ho2 & Hn). destruct (Hname x ox Hox) as (ox2 & Hox2 & Hnx).
    assert (o2 = o') as -> by congruence. assert (ox2 = ox') as -> by congruence.
    rewrite Hn, Hnx. apply ancestor_below. eauto.
Qed.

Lemma nodes_hang_where_their_path_says_witness :
  @parseZipAsTree sample_host 3 mixed_folder = Ok mixed_folder_result /\
  (forall x, x ∈ files mixed_folder_result ->
     exists ox, heap mixed_folder_result !! x = Some ox /\
                no_slash (entryName ox) = true) /\
  (forall d x o ox, reachable (heap mixed_folder_result) d x ->
     heap mixed_folder_result !! d = Some o -> heap mixed_folder_result !! x = Some ox ->
     below (entryName o) (entryName ox) = true).
Proof.
  split; [by vm_compute|].
  destruct (@nodes_hang_where_their_path_says sample_host 3 mixed_folder mixed_folder_result)
    as (Hroots & _ & Hbelow); [by vm_compute|].
  split; [exact Hroots|exact Hbelow].
Defined.

(** X8: the result is a forest.  No array lists a node twice, no node is
    in the [children] of two folders, no root is also a child, and no
    node is reached from itself. *)
Theorem result_is_a_forest `{Host} (fuel : nat) (es : list Origin.t) (r : State) :
  parseZipAsTree fuel es = Ok r ->
  NoDup (files r) /\
  (forall d o cs, heap r !! d = Some o -> children o = Some cs -> NoDup cs) /\
  (forall x d d' o o' cs cs',
     heap r !! d = Some o -> children o = Some cs -> x ∈ cs ->
     heap r !! d' = Some o' -> children o' = Some cs' -> x ∈ cs' -> d = d') /\
  (forall x d o cs, x ∈ files r ->
     heap r !! d = Some o -> children o = Some cs -> x ∉ cs) /\
  (forall x, ~ reachable (heap r) x x).
Proof.
  intros (st & Hb & Hwf & HFM & _ & Hfiles & Hheap)%parse_inv.
  pose proof (finished_heap_sim _ _ _ Hheap) as Hsim.
  pose proof (sort_refs_perm _ _ _ Hfiles) as Hperm.
  assert (Hchild : forall x d o' cs', heap r !! d = Some o' -> children o' = Some cs' ->
            x ∈ cs' ->
            exists o ox, heap st !! d = Some o /\ is_Some (children o) /\
              heap st !! x = Some ox /\ parent_path (entryName ox) = Some (entryName o)).
  { intros x d o' cs' Hd Hc Hx.
    destruct (result_folder _ _ _ _ _ _ Hheap Hd Hc) as (o & cs & Ho & Hcs & Hp & _).
    destruct (wf_folders _ _ Hwf _ _ _ Ho Hcs) as (_ & _ & _ & Hch).
    rewrite Hp in Hx. destruct (Hch x Hx) as (ox & Hox & Hpp).
    exists o, ox. split_and!; [done|eauto|done..]. }
  split_and!.
  - rewrite Hperm. apply Hwf.
  - intros d o' cs' Hd Hc.
    destruct (result_folder _ _ _ _ _ _ Hheap Hd Hc) as (o & cs & Ho & Hcs & Hp & _).
    rewrite Hp. by destruct (wf_folders _ _ Hwf _ _ _ Ho Hcs) as (_ & _ & ? & _).
  - intros x d d' o o' cs cs' Hd Hc Hx Hd' Hc' Hx'.
    destruct (Hchild x d o cs Hd Hc Hx) as (o1 & ox & Ho1 & [cs1 Hcs1] & Hox & Hp1).
    destruct (Hchild x d' o' cs' Hd' Hc' Hx') as (o2 & ox' & Ho2 & [cs2 Hcs2] & Hox' & Hp2).
    assert (ox' = ox) as -> by congruence.
    destruct (wf_folders _ _ Hwf _ _ _ Ho1 Hcs1) as (_ & Hr1 & _).
    destruct (wf_folders _ _ Hwf _ _ _ Ho2 Hcs2) as (_ & Hr2 & _).
    assert (Hn : entryName o1 = entryName o2) by congruence. rewrite Hn in Hr1. congruence.
  - intros x d o cs Hx Hd Hc Hin. rewrite Hperm in Hx.
    destruct (wf_files _ _ Hwf x Hx) as (ox & Hox & Hp).
    destruct (Hchild x d o cs Hd Hc Hin) as (o1 & ox' & _ & _ & Hox' & Hp').
    assert (ox' = ox) as -> by congruence. congruence.
  - intros x Hr. apply (reachable_sim _ _ _ _ (heap_sim_sym _ _ Hsim)) in Hr.
    by apply (reachable_irrefl es st x Hwf).
Qed.

Lemma result_is_a_forest_witness :
  @parseZipAsTree sample_host 3 mixed_folder = Ok mixed_folder_result /\
  NoDup (files mixed_folder_result) /\
  (forall x, ~ reachable (heap mixed_folder_result) x x).
Proof.
  split; [by vm_compute|].
  destruct (@result_is_a_forest sample_host 3 mixed_folder mixed_folder_result)
    as (Hnd & _ & _ & _ & Hacyclic); [by vm_compute|].
  split; [exact Hnd|exact Hacyclic].
Defined.

(** X9: no record is dropped.  Every record of the archive is in the
    result, a directory record as the object the reader handed over and
    a file record as a copy; it is listed in [files] when its entry name
    has no separator, and otherwise in the [children] of the folder that
    [folderMap] holds for its parent path. *)
Theorem every_record_is_listed `{Host} (fuel : nat) (es : list Origin.t) (r : State)
    (i : nat) (e : Origin.t) :
  parseZipAsTree fuel es = Ok r -> es !! i = Some e ->
  exists entry,
    stands_for r i e entry /\
    match parent_path (Origin.entryName e) with
    | None => entry ∈ files r
    | Some p =>
        exists f cs raw comp,
          lookup_own p (folderMap r) = Some f /\
          heap r !! f = Some (folder_node p cs raw comp) /\ entry ∈ cs
    end.
Proof.
  intros Hp Hi.
  destruct (parse_entry es fuel r i e Hp Hi) as (entry & Hstands & Hatt & Hpar & _).
  exists entry. split; [done|]. unfold attached in Hatt.
  destruct (parent_path (Origin.entryName e)) as [p|] eqn:Hpp; [|done].
  destruct (Hpar p eq_refl) as (f & cs & raw & comp & Hf & _ & Hfo & Hin & _).
  by exists f, cs, raw, comp.
Qed.

Lemma every_record_is_listed_witness :
  @parseZipAsTree sample_host 2 siblings = Ok siblings_result /\
  exists entry,
    @stands_for sample_host siblings_result 0 (file "x/a.txt" "a.txt" 1 1) entry /\
    exists f cs raw comp,
      lookup_own "x" (folderMap siblings_result) = Some f /\
      heap siblings_result !! f = Some (@folder_node sample_host "x" cs raw comp) /\
      entry ∈ cs.
Proof.
  split; [by vm_compute|].
  apply (@every_record_is_listed sample_host 2 siblings siblings_result 0
           (file "x/a.txt" "a.txt" 1 1)); by vm_compute.
Defined.

(** * Folders that hang nowhere *)

(** X10: a folder of [folderMap] is listed somewhere, in [files] or in
    the [children] of another folder, exactly when its key is the parent
    path of a record.  A folder the second pass creates (for the parent
    path of a parent path) is registered but hangs nowhere, and so does
    everything below it. *)
Theorem folder_is_listed_iff_direct_parent `{Host} (fuel : nat) (es : list Origin.t)
    (r : State) (k : string) (d : ref) :
  parseZipAsTree fuel es = Ok r -> lookup_own k (folderMap r) = Some d ->
  (placed r d <-> direct_parent es k).
Proof.
  intros (st & Hb & Hwf & HFM & _ & Hfiles & Hheap)%parse_inv Hk.
  rewrite HFM in Hk. rewrite (placed_result fuel st r d Hfiles Hheap).
  destruct (wf_folderMap _ _ Hwf _ _ Hk) as (_ & o & Ho & Hname & Hc).
  split.
  - intros Hpl. destruct (build_census es st Hb) as (_ & _ & _ & Hfolders).
    rewrite <- Hname. by apply (Hfolders d o).
  - intros (e & [i Hi]%list_elem_of_lookup_1 & Hp).
    destruct (build_entry es st i e Hb Hi) as (_ & _ & _ & _ & Hpar).
    destruct (Hpar k Hp) as (f & Hf & Hpl). by assert (f = d) as <- by congruence.
Qed.

Lemma folder_is_listed_iff_direct_parent_witness :
  @parseZipAsTree sample_host 3 deep_pair = Ok deep_pair_result /\
  lookup_own "a/b" (folderMap deep_pair_result) = Some 5%nat /\
  (placed deep_pair_result 5%nat <-> direct_parent deep_pair "a/b").
Proof.
  split; [by vm_compute|]. split; [by vm_compute|].
  apply (@folder_is_listed_iff_direct_parent sample_host 3 deep_pair); by vm_compute.
Defined.

(** X11: no folder of [folderMap] is empty: a folder is created with a
    first child, and nothing is ever taken out of [children]. *)
Theorem folders_are_not_empty `{Host} (fuel : nat) (es : list Origin.t) (r : State)
    (k : string) (d : ref) :
  parseZipAsTree fuel es = Ok r -> lookup_own k (folderMap r) = Some d ->
  exists o c cs, heap r !! d = Some o /\ children o = Some (c :: cs).
Proof.
  intros Hp Hk. pose proof Hp as (st & Hb & _ & HFM & _)%parse_inv.
  assert (Hin : exists o cs c, heap r !! d = Some o /\ children o = Some cs /\ c ∈ cs).
  { assert (Hkey : k ∈ keys (folderMap st)).
    { rewrite <- HFM. apply lookup_own_is_Some. eauto. }
    apply (build_folder_keys es st k Hb) in Hkey
      as [(e & [i Hi]%list_elem_of_lookup_1 & Hpp)
         |(p & (e & [i Hi]%list_elem_of_lookup_1 & Hpp) & Hq)];
      destruct (parse_entry es fuel r i e Hp Hi) as (entry & _ & _ & Hpar & _).
    - destruct (Hpar k Hpp) as (f & cs & raw & comp & Hf & _ & Hfo & Hin & _).
      assert (f = d) as -> by congruence. by eexists _, cs, entry.
    - destruct (Hpar p Hpp) as (f & _ & _ & _ & _ & _ & _ & _ & Hatt).
      unfold attached in Hatt. rewrite Hq in Hatt.
      destruct Hatt as (f' & fo & cs & Hf' & Hfo & Hcs & Hin).
      assert (f' = d) as -> by congruence. by exists fo, cs, f. }
  destruct Hin as (o & cs & c & Ho & Hcs & Hc). destruct cs as [|c' cs].
  - by apply elem_of_nil in Hc.
  - by exists o, c', cs.
Qed.

Lemma folders_are_not_empty_witness :
  @parseZipAsTree sample_host 3 deep_pair = Ok deep_pair_result /\
  lookup_own "a/b" (folderMap deep_pair_result) = Some 5%nat /\
  exists o c cs, heap deep_pair_result !! 5%nat = Some o /\ children o = Some (c :: cs).
Proof.
  split; [by vm_compute|]. split; [by vm_compute|].
  apply (@folders_are_not_empty sample_host 3 deep_pair deep_pair_result "a/b");
    by vm_compute.
Defined.

(** * The last phase *)

(** X12: the loop over [folderMap] and the sort of [files] only reorder
    and annotate.  Both maps stay as they are, [files] and every
    [children] keep their elements, an object without [children] is not
    touched, and a folder gets its two size strings and nothing else. *)
Theorem last_phase_only_reorders `{Host} (fuel : nat) (es : list Origin.t)
    (st r : State) :
  build es = Ok st -> finalize fuel st = Ok r ->
  folderMap r = folderMap st /\ fileMap r = fileMap st /\
  files r ≡ₚ files st /\ length (heap r) = length (heap st) /\
  forall x o, heap st !! x = Some o ->
    match children o with
    | None => heap r !! x = Some o
    | Some cs =>
        exists cs' raw comp, cs' ≡ₚ cs /\
          heap r !! x = Some (set_compressedSize (prettyBytes (Some comp))
                                (set_fileSize (prettyBytes (Some raw))
                                   (set_children cs' o)))
    end.
Proof.
  intros Hb Hfin. pose proof (build_wf es st Hb) as Hwf.
  destruct (finalize_spec es fuel st r Hwf Hfin) as (HFM & HfM & Hfiles & Hheap).
  split_and!; [done|done|by eapply sort_refs_perm|symmetry; by eapply Forall2_length|].
  intros x o Hx. destruct (children o) as [cs|] eqn:Hc.
  - destruct (finished_folder _ _ _ _ _ _ Hheap Hx Hc) as (sorted & raw & comp & Hs & _ & _ & Hr).
    exists sorted, raw, comp. split; [by eapply sort_refs_perm|done].
  - by eapply finished_leaf.
Qed.

Definition siblings_built : State :=
  Eval vm_compute in
    from_result {| heap := []; files := []; fileMap := []; folderMap := [] |}
      (@build sample_host siblings).

Lemma last_phase_only_reorders_witness :
  @build sample_host siblings = Ok siblings_built /\
  @finalize sample_host 2 siblings_built = Ok siblings_result /\
  folderMap siblings_result = folderMap siblings_built /\
  fileMap siblings_result = fileMap siblings_built /\
  files siblings_result ≡ₚ files siblings_built.
Proof.
  split; [by vm_compute|]. split; [by vm_compute|].
  destruct (@last_phase_only_reorders sample_host 2 siblings siblings_built siblings_result)
    as (HFM & HfM & Hfiles & _); [by vm_compute..|].
  split_and!; [exact HFM|exact HfM|exact Hfiles].
Defined.

(** * [sum] *)

(** Every sum of sizes that are not negative is not negative. *)
Lemma sum_nonneg (prop : ZipEntry -> option Z) (h : list ZipEntry) (fuel : nat) :
  (forall x o, h !! x = Some o -> 0 <= default 0 (prop o)) ->
  forall a v, sum fuel h a prop = Ok v -> 0 <= v.
Proof.
  intros Hpos. induction fuel as [|fuel IH]; intros a v; [done|].
  intros [Hall ->]%sum_S.
  induction a as [|c a IHa]; simpl; [lia|].
  assert (0 <= total (map (item_val fuel h prop) a)).
  { apply IHa. intros r Hr. apply Hall. by right. }
  destruct (Hall c) as [x Hx]; [left|]. unfold item_val at 1. rewrite Hx. simpl.
  apply item_sum_Ok in Hx as (o & Ho & Hx). pose proof (Hpos c o Ho).
  destruct (children o) as [cs|].
  - destruct Hx as (_ & below & Hb & ->). pose proof (IH cs below Hb). lia.
  - destruct Hx as (_ & ->). lia.
Qed.

(** X13: [sum] is additive on the sizes the code gives it.  For the two
    size properties, in a store whose sizes are not negative, and for
    totals below 2^53 (where the additions of the source are exact):
    the sum over an empty array is zero, no sum is negative, the sum
    over a concatenation is the sum of the sums, neither of which exceeds
    it, and the order of the array does not matter. *)
Theorem sum_is_additive (fuel : nat) (h : list ZipEntry) (prop : ZipEntry -> option Z) :
  (prop = originFileSize \/ prop = originCompressedSize) ->
  (forall x o, h !! x = Some o -> 0 <= default 0 (prop o)) ->
  sum (S fuel) h [] prop = Ok 0 /\
  (forall a v, sum fuel h a prop = Ok v -> 0 <= v) /\
  (forall a b v, v < 2 ^ 53 ->
     (sum fuel h (a ++ b) prop = Ok v <->
      exists va vb, sum fuel h a prop = Ok va /\ sum fuel h b prop = Ok vb /\
                    v = va + vb /\ 0 <= va <= v /\ 0 <= vb <= v)) /\
  (forall a b v, v < 2 ^ 53 -> a ≡ₚ b ->
     sum fuel h a prop = Ok v -> sum fuel h b prop = Ok v).
Proof.
  intros _ Hpos. split_and!.
  - reflexivity.
  - apply sum_nonneg, Hpos.
  - intros a b v _. destruct fuel as [|fuel]; [split; [done|by intros (? & ? & ? & _)]|].
    split.
    + intros [Hall ->]%sum_S.
      assert (Ha : sum (S fuel) h a prop = Ok (total (map (item_val fuel h prop) a))).
      { apply sum_S. split; [|done]. intros r Hr. apply Hall, elem_of_app. by left. }
      assert (Hb : sum (S fuel) h b prop = Ok (total (map (item_val fuel h prop) b))).
      { apply sum_S. split; [|done]. intros r Hr. apply Hall, elem_of_app. by right. }
      pose proof (sum_nonneg prop h (S fuel) Hpos _ _ Ha).
      pose proof (sum_nonneg prop h (S fuel) Hpos _ _ Hb).
      rewrite map_app, total_app.
      eexists _, _. split_and!; [exact Ha|exact Hb|lia..].
    + intros (va & vb & [Ha ->]%sum_S & [Hb ->]%sum_S & -> & _). apply sum_S. split.
      * intros r [Hr|Hr]%elem_of_app; auto.
      * by rewrite map_app, total_app.
  - intros a b v _ Hperm Hs. destruct fuel as [|fuel]; [done|].
    apply sum_S in Hs as [Hall ->]. apply sum_S. split.
    + intros r Hr. apply Hall. by rewrite Hperm.
    + apply total_perm, Permutation_map. by symmetry.
Qed.

Lemma sum_is_additive_witness :
  (forall x o, heap mixed_folder_result !! x = Some o ->
     0 <= default 0 (originFileSize o)) /\
  (sum 3 (heap mixed_folder_result) ([6%nat] ++ [7%nat; 4%nat]) originFileSize = Ok 6 <->
   exists va vb,
     sum 3 (heap mixed_folder_result) [6%nat] originFileSize = Ok va /\
     sum 3 (heap mixed_folder_result) [7%nat; 4%nat] originFileSize = Ok vb /\
     6 = va + vb /\ 0 <= va <= 6 /\ 0 <= vb <= 6).
Proof.
  assert (Hpos : forall x o, heap mixed_folder_result !! x = Some o ->
            0 <= default 0 (originFileSize o)).
  { apply Forall_lookup. apply (bool_decide_unpack _). by vm_compute. }
  split; [exact Hpos|].
  destruct (sum_is_additive 3 (heap mixed_folder_result) originFileSize
              (or_introl eq_refl) Hpos) as (_ & _ & Happ & _).
  apply Happ. by vm_compute.
Defined.

(** * [sortFiles] *)

(** X14: [sortFiles] is a consistent comparator whenever [localeCompare]
    is one: of two entries one does not come after the other, the order
    is transitive, and a directory comes strictly before a file whatever
    the names are. *)
Theorem sortFiles_is_consistent `{Host} :
  total_comparator localeCompare -> transitive_comparator localeCompare ->
  total_comparator sortFiles /\ transitive_comparator sortFiles /\
  forall a b, isDirectory a = true -> isDirectory b = false ->
    sortFiles a b < 0 /\ 0 < sortFiles b a.
Proof.
  intros Htot Htr. split_and!.
  - by apply sortFiles_total.
  - by apply sortFiles_trans.
  - intros a b Ha Hb. unfold sortFiles. rewrite Ha, Hb. simpl. lia.
Qed.

Lemma sortFiles_is_consistent_witness :
  total_comparator (@sortFiles sample_host) /\
  transitive_comparator (@sortFiles sample_host) /\
  forall a b, isDirectory a = true -> isDirectory b = false ->
    @sortFiles sample_host a b < 0 /\ 0 < @sortFiles sample_host b a.
Proof.
  apply (@sortFiles_is_consistent sample_host).
  - exact codeUnitCompare_total.
  - exact codeUnitCompare_trans.
Defined.

(** * Archives that list every directory *)

(** Every parent path of a record that has a parent path of its own has
    it among the parent paths of the records.  An archive with a record
    for each of its directories is of this kind, and so is one in which
    every directory holds a file. *)
Definition lists_every_directory (es : list Origin.t) : bool :=
  forallb (fun e => match parent_path (Origin.entryName e) with
                    | Some p => match parent_path p with
                                | Some q => direct_parentb es q
                                | None => true
                                end
                    | None => true
                    end) es.

(** The file records below the path [k]. *)
Definition file_below (k : string) (e : Origin.t) : bool :=
  negb (Origin.isDirectory e) && below k (Origin.entryName e).

Definition subtree_size (es : list Origin.t) (size : Origin.t -> Z) (k : string) : Z :=
  total (map size (filter (fun e => file_below k e = true) es)).

(** Listed at a root or reached from a root. *)
Definition in_tree (r : State) (x : ref) : Prop :=
  x ∈ files r \/ exists root, root ∈ files r /\ reachable (heap r) root x.

Lemma lists_every_directory_true (es : list Origin.t) :
  lists_every_directory es = true <->
  forall p q, direct_parent es p -> parent_path p = Some q -> direct_parent es q.
Proof.
  unfold lists_every_directory. rewrite forallb_forall. split.
  - intros Hall p q (e & He & Hp) Hq. specialize (Hall e (proj1 (list_elem_of_In _ _) He)).
    rewrite Hp, Hq in Hall. by apply direct_parentb_true.
  - intros Hcl e He%list_elem_of_In.
    destruct (parent_path (Origin.entryName e)) as [p|] eqn:Hp; [|done].
    destruct (parent_path p) as [q|] eqn:Hq; [|done].
    apply direct_parentb_true, (Hcl p q); [by exists e|done].
Qed.

(** What a folder covers lies below it. *)
Lemma covers_ancestor (es : list Origin.t) (k : string) (len : nat) :
  forall s, (String.length s <= len)%nat -> coversb es k s = true ->
    exists n, ancestor_path (S n) s = Some k.
Proof.
  induction len as [|len IH]; intros s Hlen; rewrite coversb_unfold.
  - by rewrite parent_path_empty by lia.
  - destruct (parent_path s) as [p|] eqn:Hp; [|done].
    intros [Heq|[_ Hc]%andb_true_iff]%orb_true_iff.
    + apply String.eqb_eq in Heq as ->. exists 0%nat. simpl. by rewrite Hp.
    + apply parent_path_length in Hp as Hshort.
      destruct (IH p ltac:(lia) Hc) as [n Hn]. exists (S n).
      change (ancestor_path (S (S n)) s) with (parent_path s ≫= ancestor_path (S n)).
      by rewrite Hp.
Qed.

Section Listing.
Context (es : list Origin.t).
Hypothesis Hclosed :
  forall p q, direct_parent es p -> parent_path p = Some q -> direct_parent es q.

Lemma closed_ancestors (n : nat) :
  forall p t, direct_parent es p -> ancestor_path n p = Some t -> direct_parent es t.
Proof.
  induction n as [|n IH]; intros p t Hd; simpl.
  - by intros [= <-].
  - destruct (parent_path p) as [q|] eqn:Hq; [|done]. simpl.
    apply IH. by apply (Hclosed p q).
Qed.

Lemma ancestor_covers (k : string) (n : nat) :
  forall s p, parent_path s = Some p -> direct_parent es p ->
    ancestor_path (S n) s = Some k -> coversb es k s = true.
Proof.
  induction n as [|n IH]; intros s p Hp Hd; rewrite coversb_unfold; simpl; rewrite Hp; simpl.
  - intros [= ->]. by rewrite String.eqb_refl.
  - destruct (parent_path p) as [q|] eqn:Hq; [|done]. simpl. intros Hn.
    apply orb_true_iff. right. apply andb_true_iff. split; [by apply direct_parentb_true|].
    apply (IH p q); [done|by apply (Hclosed p q)|]. simpl. by rewrite Hq.
Qed.

Lemma covers_is_below (k : string) (e : Origin.t) :
  e ∈ es -> coversb es k (Origin.entryName e) = below k (Origin.entryName e).
Proof.
  intros He. apply eq_true_iff_eq. rewrite <- ancestor_below. split.
  - by apply (covers_ancestor es k (String.length (Origin.entryName e))).
  - intros [n Hn].
    destruct (parent_path (Origin.entryName e)) as [p|] eqn:Hp.
    + apply (ancestor_covers k n _ p); [done|by exists e|done].
    + simpl in Hn. by rewrite Hp in Hn.
Qed.

Lemma aggregate_is_subtree_size (size : Origin.t -> Z) (k : string) :
  aggregate es size k = subtree_size es size k.
Proof.
  unfold aggregate, subtree_size. do 2 f_equal.
  assert (Hgen : forall l : list Origin.t, (forall e, e ∈ l -> e ∈ es) ->
            filter (fun e => countedb es k e = true) l
            = filter (fun e => file_below k e = true) l).
  { induction l as [|e l IH]; intros Hl; [done|].
    rewrite !filter_cons, IH by (intros e' He'; apply Hl; by right).
    assert (Heq : countedb es k e = file_below k e).
    { unfold countedb, file_below. rewrite covers_is_below; [done|apply Hl; left]. }
    rewrite Heq. by destruct (decide (file_below k e = true)). }
  by apply Hgen.
Qed.

(** Every path has a topmost path above it, or is one. *)
Lemma top_ancestor (len : nat) :
  forall s, (String.length s <= len)%nat ->
    exists n t, ancestor_path n s = Some t /\ parent_path t = None.
Proof.
  induction len as [|len IH]; intros s Hlen.
  - exists 0%nat, s. split; [done|]. apply parent_path_empty. lia.
  - destruct (parent_path s) as [p|] eqn:Hp.
    + apply parent_path_length in Hp as Hshort.
      destruct (IH p ltac:(lia)) as (n & t & Hn & Ht).
      exists (S n), t. split; [|done]. simpl. by rewrite Hp.
    + by exists 0%nat, s.
Qed.
End Listing.

(** X15: in an archive that lists every directory, the size shown for a
    folder is the size of everything below it: the number formatted into
    [fileSize] (and likewise [compressedSize]) of the folder registered
    under [k] is the total over the file records whose entry name starts
    with [k] and a separator. *)
Theorem listed_directories_get_subtree_sizes `{Host} (fuel : nat) (es : list Origin.t)
    (r : State) (k : string) (d : ref) :
  lists_every_directory es = true ->
  parseZipAsTree fuel es = Ok r -> lookup_own k (folderMap r) = Some d ->
  exists cs,
    heap r !! d = Some (folder_node k cs (subtree_size es record_size k)
                          (subtree_size es record_compressed k)).
Proof.
  intros Hcl0 Hp Hk. pose proof (proj1 (lists_every_directory_true es) Hcl0) as Hcl.
  destruct (folder_sizes_closed_form fuel es r k d Hp Hk) as [cs Hd].
  exists cs. by rewrite <- !(aggregate_is_subtree_size es Hcl).
Qed.

Definition nested : list Origin.t :=
  [dir "a/"; dir "a/b/"; file "a/b/c.txt" "c.txt" 5 3; file "a/d.txt" "d.txt" 7 4;
   file "e.txt" "e.txt" 11 6].

Definition nested_result : State := Eval vm_compute in run 4 nested.

Lemma listed_directories_get_subtree_sizes_witness :
  lists_every_directory nested = true /\
  @parseZipAsTree sample_host 4 nested = Ok nested_result /\
  lookup_own "a" (folderMap nested_result) = Some 5%nat /\
  subtree_size nested record_size "a" = 12 /\
  exists cs,
    heap nested_result !! 5%nat
    = Some (@folder_node sample_host "a" cs (subtree_size nested record_size "a")
              (subtree_size nested record_compressed "a")).
Proof.
  split; [reflexivity|]. split; [by vm_compute|]. split; [by vm_compute|].
  split; [reflexivity|].
  apply (@listed_directories_get_subtree_sizes sample_host 4 nested nested_result "a" 5%nat);
    [reflexivity|by vm_compute..].
Defined.

(** X16: in an archive that lists every directory nothing hangs
    nowhere: the object that stands for a record is a root or is reached
    from a root. *)
Theorem listed_directories_reach_every_record `{Host} (fuel : nat) (es : list Origin.t)
    (r : State) (i : nat) (e : Origin.t) :
  lists_every_directory es = true ->
  parseZipAsTree fuel es = Ok r -> es !! i = Some e ->
  exists entry, stands_for r i e entry /\ in_tree r entry.
Proof.
  intros Hcl0 (st & Hb & Hwf & HFM & _ & Hfiles & Hheap)%parse_inv Hi.
  pose proof (proj1 (lists_every_directory_true es) Hcl0) as Hcl.
  pose proof (finished_heap_sim _ _ _ Hheap) as Hsim.
  pose proof (sort_refs_perm _ _ _ Hfiles) as Hperm.
  destruct (build_entry es st i e Hb Hi) as (entry & Hstands & Hplaced & _ & Hpar).
  exists entry. split; [by eapply stands_for_final|].
  assert (Hobj : exists o, heap st !! entry = Some o /\ entryName o = Origin.entryName e).
  { unfold stands_for in Hstands. destruct (Origin.isDirectory e).
    - destruct Hstands as [_ ?]. by eexists.
    - by eexists. }
  destruct Hobj as (o & Ho & Hname).
  pose proof (placed_where es st entry o Hwf Ho Hplaced) as Hwhere. rewrite Hname in Hwhere.
  destruct (parent_path (Origin.entryName e)) as [p|] eqn:Hp;
    [|left; by rewrite Hperm].
  assert (Hdp : direct_parent es p).
  { exists e. split; [by eapply list_elem_of_lookup_2|done]. }
  destruct (top_ancestor (String.length p) p (le_n _)) as (n & t & Hn & Ht).
  destruct (closed_ancestors es Hcl n p t Hdp Hn) as (e' & [j Hj]%list_elem_of_lookup_1 & Hp').
  destruct (build_entry es st j e' Hb Hj) as (_ & _ & _ & _ & Hpar').
  destruct (Hpar' t Hp') as (root & Hroot & Hrplaced).
  destruct (wf_folderMap _ _ Hwf _ _ Hroot) as (_ & ro & Hro & Hrname & _).
  pose proof (placed_where es st root ro Hwf Hro Hrplaced) as Hrwhere.
  rewrite Hrname, Ht in Hrwhere.
  right. exists root. split; [by rewrite Hperm|].
  apply (reachable_sim _ _ _ _ Hsim).
  apply (covers_reachable es st t root Hb Hroot (String.length (entryName o)) entry o);
    [done..|].
  rewrite Hname. apply (ancestor_covers es Hcl t n _ p); [done..|].
  simpl. by rewrite Hp.
Qed.

Lemma listed_directories_reach_every_record_witness :
  lists_every_directory nested = true /\
  @parseZipAsTree sample_host 4 nested = Ok nested_result /\
  exists entry,
    @stands_for sample_host nested_result 2 (file "a/b/c.txt" "c.txt" 5 3) entry /\
    in_tree nested_result entry.
Proof.
  split; [reflexivity|]. split; [by vm_compute|].
  apply (@listed_directories_reach_every_record sample_host 4 nested nested_result 2
           (file "a/b/c.txt" "c.txt" 5 3)); [reflexivity|by vm_compute..].
Defined.

(** * [fileMap] and the tree share their objects *)

(** X17: what [fileMap] holds under a key is a node of the tree, not a
    second copy: the copy of a file record with that path, listed in
    [files] when the path has no separator and otherwise in the
    [children] of the folder registered for its parent path. *)
Theorem fileMap_values_are_tree_nodes `{Host} (fuel : nat) (es : list Origin.t)
    (r : State) (k : string) (x : ref) :
  parseZipAsTree fuel es = Ok r -> lookup_own k (fileMap r) = Some x ->
  (length es <= x)%nat /\
  (exists e, e ∈ es /\ Origin.isDirectory e = false /\ Origin.entryName e = k /\
             heap r !! x = Some (wrap (of_origin e))) /\
  attached r x k.
Proof.
  intros (st & Hb & Hwf & HFM & HfM & Hfiles & Hheap)%parse_inv Hk. rewrite HfM in Hk.
  destruct (wf_fileMap _ _ Hwf _ _ Hk) as (e & He & Hd & Hname & Hx).
  assert (Hge : (length es <= x)%nat).
  { destruct (decide (length es <= x)%nat) as [|Hlt]; [done|].
    destruct (lookup_lt_is_Some_2 es x) as [e' He']; [lia|].
    pose proof (wf_origins _ _ Hwf _ _ He') as Hx'. rewrite Hx in Hx'. done. }
  split_and!; [done| |].
  - exists e. split_and!; [done..|]. by eapply finished_leaf.
  - destruct (build_census es st Hb) as (_ & _ & Hleaves & _).
    destruct (Hleaves x _ Hx eq_refl Hge) as [Hplaced _].
    pose proof (placed_where es st x _ Hwf Hx Hplaced) as Hwhere.
    simpl in Hwhere. rewrite Hname in Hwhere.
    by apply (attached_final fuel st r).
Qed.

Lemma fileMap_values_are_tree_nodes_witness :
  @parseZipAsTree sample_host 2 siblings = Ok siblings_result /\
  lookup_own "x/b.txt" (fileMap siblings_result) = Some 5%nat /\
  attached siblings_result 5%nat "x/b.txt".
Proof.
  split; [by vm_compute|]. split; [by vm_compute|].
  apply (@fileMap_values_are_tree_nodes sample_host 2 siblings siblings_result "x/b.txt");
    by vm_compute.
Defined.

(** * The order of the loop over [folderMap] *)

Section LoopOrder.
Context `{Host} (es : list Origin.t).

Lemma finished_functional (fuel : nat) (h0 : list ZipEntry) (o o1 o2 : ZipEntry) :
  finished fuel h0 o o1 -> finished fuel h0 o o2 -> o1 = o2.
Proof.
  unfold finished. destruct (children o) as [cs|]; [|congruence].
  intros (s1 & r1 & c1 & Hs1 & Hr1 & Hc1 & ->) (s2 & r2 & c2 & Hs2 & Hr2 & Hc2 & ->).
  congruence.
Qed.

Lemma fin_inv_start (fuel : nat) (st : State) : fin_inv fuel st [] st.
Proof.
  split_and!; try done. intros r o0 Hr. exists o0. split_and!; [done| |done].
  intros Hin. by apply elem_of_nil in Hin.
Qed.

Lemma fin_inv_functional (fuel : nat) (st0 : State) (ks ks' : list string)
    (st1 st2 : State) :
  ks ≡ₚ ks' -> fin_inv fuel st0 ks st1 -> fin_inv fuel st0 ks' st2 -> st1 = st2.
Proof.
  intros Hperm (HFM1 & HfM1 & Hf1 & Hlen1 & Hobj1) (HFM2 & HfM2 & Hf2 & Hlen2 & Hobj2).
  assert (Hheap : heap st1 = heap st2).
  { apply list_eq_same_length with (n := length (heap st0)); [done..|].
    intros i o1 o2 Hlt Hi1 Hi2.
    destruct (lookup_lt_is_Some_2 (heap st0) i Hlt) as [o0 Hi0].
    destruct (Hobj1 _ _ Hi0) as (o1' & Hi1' & Hin1 & Hnin1).
    destruct (Hobj2 _ _ Hi0) as (o2' & Hi2' & Hin2 & Hnin2).
    assert (o1' = o1) as -> by congruence. assert (o2' = o2) as -> by congruence.
    destruct (decide (entryName o0 ∈ ks)) as [Hd|Hd].
    - eapply finished_functional; [by apply Hin1|]. apply Hin2. by rewrite <- Hperm.
    - rewrite (Hnin1 Hd). symmetry. apply Hnin2. by rewrite <- Hperm. }
  destruct st1, st2; simpl in *. congruence.
Qed.
End LoopOrder.

(** X18: the order in which the loop visits the keys of [folderMap] does
    not matter.  Visiting them in any other order gives the same store:
    the size of a folder does not depend on whether the folders below it
    have been sorted and sized already. *)
Theorem folder_loop_order_is_irrelevant `{Host} (fuel : nat) (es : list Origin.t)
    (st st1 st2 : State) (ks : list string) :
  build es = Ok st -> ks ≡ₚ own_keys (folderMap st) ->
  finalize_folders fuel st ks = Ok st1 ->
  finalize_folders fuel st (own_keys (folderMap st)) = Ok st2 ->
  st1 = st2.
Proof.
  intros Hb Hperm H1 H2. pose proof (build_wf es st Hb) as Hwf.
  pose proof (own_keys_NoDup _ (wf_folder_keys _ _ Hwf)) as Hnd.
  apply (fin_inv_functional fuel st ks (own_keys (folderMap st))); [done| |].
  - apply (finalize_folders_steps es fuel st ks [] st st1 Hwf (fin_inv_start fuel st));
      [by rewrite Hperm|done].
  - by apply (finalize_folders_steps es fuel st _ [] st st2 Hwf (fin_inv_start fuel st)).
Qed.

Definition nested_built : State :=
  Eval vm_compute in
    from_result {| heap := []; files := []; fileMap := []; folderMap := [] |}
      (@build sample_host nested).

Definition nested_sized : State :=
  Eval vm_compute in
    from_result {| heap := []; files := []; fileMap := []; folderMap := [] |}
      (@finalize_folders sample_host 4 nested_built ["a"; "a/b"]).

Definition nested_sized_bottom_up : State :=
  Eval vm_compute in
    from_result {| heap := []; files := []; fileMap := []; folderMap := [] |}
      (@finalize_folders sample_host 4 nested_built ["a/b"; "a"]).

Lemma folder_loop_order_is_irrelevant_witness :
  @build sample_host nested = Ok nested_built /\
  own_keys (folderMap nested_built) = ["a"; "a/b"] /\
  @finalize_folders sample_host 4 nested_built ["a/b"; "a"] = Ok nested_sized_bottom_up /\
  @finalize_folders sample_host 4 nested_built ["a"; "a/b"] = Ok nested_sized /\
  nested_sized_bottom_up = nested_sized.
Proof.
  split; [by vm_compute|]. split; [by vm_compute|].
  split; [by vm_compute|]. split; [by vm_compute|].
  apply (@folder_loop_order_is_irrelevant sample_host 4 nested nested_built
           nested_sized_bottom_up nested_sized ["a/b"; "a"]);
    [by vm_compute|apply Permutation_swap|by vm_compute..].
Defined.

(** * Several records with one path *)

Lemma lookup_set_prop_ne {V} (k k' : string) (v : V) (m : jsobj V) :
  k <> k' -> lookup_own k' (set_prop k v m) = lookup_own k' m.
Proof.
  intros Hne. unfold set_prop. destruct (String.eqb k "__proto__"); [done|].
  by apply lookup_assign_ne.
Qed.

Lemma lookup_set_prop_eq {V} (k : string) (v : V) (m : jsobj V) :
  k <> "__proto__" -> lookup_own k (set_prop k v m) = Some v.
Proof.
  intros Hne%String.eqb_neq. unfold set_prop. rewrite Hne. apply lookup_assign_eq.
Qed.

Section LastWins.
Context `{Host} (es : list Origin.t).

(** After [i] records: every parent path seen so far is registered, and
    a key of [fileMap] leads to the copy of the last file record with
    that path. *)
Lemma pass1_last_wins (i : nat) :
  forall sti, (i <= length es)%nat ->
    parseFlatItems (initial es) (seq 0 i) = Ok sti ->
    (forall j e p, (j < i)%nat -> es !! j = Some e ->
       parent_path (Origin.entryName e) = Some p ->
       is_Some (lookup_own p (folderMap sti))) /\
    (forall k x, lookup_own k (fileMap sti) = Some x ->
       exists j e, (j < i)%nat /\ es !! j = Some e /\ Origin.isDirectory e = false /\
         Origin.entryName e = k /\ heap sti !! x = Some (wrap (of_origin e)) /\
         forall j' e', (j < j' < i)%nat -> es !! j' = Some e' ->
           Origin.isDirectory e' = false -> Origin.entryName e' <> k).
Proof.
  induction i as [|i IH]; intros sti Hi.
  - simpl. intros [= <-]. split; [intros; lia|]. intros k x Hk. done.
  - rewrite seq_S. simpl. intros Hrun.
    apply parseFlatItems_app in Hrun as (sta & Hpre & Hrun).
    simpl in Hrun. apply rbind_Ok in Hrun as (stb & Hstep & [= <-]).
    assert (Hlt : (i < length es)%nat) by lia.
    pose proof (todo_initial es) as Htodo.
    rewrite (seq_split i (length es) Hlt) in Htodo.
    destruct (parseFlatItems_wf es _ _ _ _ (wf_initial es) Htodo Hpre)
      as (Hwfa & _ & [_ Htodoa] & _).
    destruct (Htodoa i) as [Hok Hnp]; [left|].
    destruct (parseFlatItem_step es _ _ _ Hwfa Hok Hnp Hstep)
      as (Hwfb & Hg & entry & o & Ho & Hcase & _ & _ & Hpar & Hreg).
    destruct (lookup_lt_is_Some_2 es i Hlt) as [ei Hei].
    pose proof (wf_origins _ _ Hwfa _ _ Hei) as Ho'.
    assert (o = of_origin ei) as -> by congruence. simpl in Hpar, Hreg, Hcase.
    destruct (IH sta ltac:(lia) Hpre) as [IHR IHQ].
    destruct Hg as (Hheap & HFM & _).
    assert (Hkeep : forall x e, heap sta !! x = Some (wrap (of_origin e)) ->
              heap stb !! x = Some (wrap (of_origin e))).
    { intros x e Hx. by apply (Hheap _ _ Hx). }
    split.
    + intros j e p Hj He Hp. destruct (decide (j = i)) as [->|Hne].
      * assert (e = ei) as -> by congruence. by apply Hpar.
      * destruct (IHR j e p ltac:(lia) He Hp) as [f Hf]. rewrite (HFM _ _ Hf). eauto.
    + intros k x Hk.
      assert (Hold : lookup_own k (fileMap sta) = Some x ->
                Origin.entryName ei = k -> Origin.isDirectory ei = false -> False).
      { intros Hk' Hname Hd. subst k.
        destruct (IHQ _ x Hk') as (j & e & Hj & He & _ & Hn & Hx & _).
        destruct (pass1_fileMap es i sta ltac:(lia) Hpre (Origin.entryName ei))
          as [Hproto _]; [apply lookup_own_is_Some; eauto|].
        rewrite Hreg in Hk; [|done|done|].
        - destruct Hcase as [(_ & ?)|(-> & _)]; [congruence|].
          injection Hk as <-. apply lookup_lt_Some in Hx. lia.
        - intros p Hp. apply (IHR j e p Hj He). by rewrite Hn. }
      assert (Hext : lookup_own k (fileMap sta) = Some x -> Origin.entryName ei <> k \/
                Origin.isDirectory ei = true ->
                exists j e, (j < S i)%nat /\ es !! j = Some e /\
                  Origin.isDirectory e = false /\ Origin.entryName e = k /\
                  heap stb !! x = Some (wrap (of_origin e)) /\
                  forall j' e', (j < j' < S i)%nat -> es !! j' = Some e' ->
                    Origin.isDirectory e' = false -> Origin.entryName e' <> k).
      { intros Hk' Hi'. destruct (IHQ k x Hk') as (j & e & Hj & He & Hd & Hn & Hx & Hlast).
        exists j, e. split_and!; [lia|done..|by apply Hkeep|].
        intros j' e' Hj' He' Hd'. destruct (decide (j' = i)) as [->|Hne].
        - assert (e' = ei) as -> by congruence. destruct Hi'; congruence.
        - apply (Hlast j' e'); [lia|done..]. }
      destruct (parseFlatItem_fileMap _ _ _ _ Hstep Ho) as [Hsame|(Hd & Hfm & _)].
      * rewrite Hsame in Hk. apply (Hext Hk).
        destruct (decide (Origin.entryName ei = k)) as [Hname|?]; [|by left].
        destruct (Origin.isDirectory ei) eqn:Hd; [by right|].
        by destruct (Hold Hk Hname eq_refl).
      * simpl in Hd, Hfm. rewrite Hfm in Hk.
        destruct (decide (Origin.entryName ei = k)) as [Hname|Hname];
          [|rewrite lookup_set_prop_ne in Hk by done; apply (Hext Hk); by left].
        destruct (decide (k = "__proto__")) as [Hproto|Hproto].
        -- exfalso. rewrite Hname in Hk. unfold set_prop in Hk.
           apply String.eqb_eq in Hproto as Hpb. rewrite Hpb in Hk.
           destruct (pass1_fileMap es i sta ltac:(lia) Hpre k) as [? _];
             [apply lookup_own_is_Some; eauto|done].
        -- rewrite Hname, lookup_set_prop_eq in Hk by done. injection Hk as <-.
           exists i, ei. split_and!; [lia|done..| |intros; lia].
           destruct Hcase as [(_ & ?)|(-> & _ & Hnew)]; [congruence|done].
Qed.

Lemma build_last_wins (st : State) (k : string) (x : ref) :
  build es = Ok st -> lookup_own k (fileMap st) = Some x ->
  exists j e, es !! j = Some e /\ Origin.isDirectory e = false /\
    Origin.entryName e = k /\ heap st !! x = Some (wrap (of_origin e)) /\
    forall j' e', (j < j')%nat -> es !! j' = Some e' ->
      Origin.isDirectory e' = false -> Origin.entryName e' <> k.
Proof.
  intros (st1 & Hp1 & Hp2 & Hwf1 & _ & Htodo2 & _ & Hg2)%build_inv Hk.
  rewrite (folders_pass_fileMap es (folder_values (folderMap st1)) st1 [] st Hwf1) in Hk;
    [|by rewrite app_nil_r| |done].
  - destruct (pass1_last_wins (length es) st1 ltac:(lia) Hp1) as [_ HQ].
    destruct (HQ k x Hk) as (j & e & Hj & He & Hd & Hn & Hx & Hlast).
    exists j, e. split_and!; [done..| |].
    + destruct Hg2 as (Hh & _). by apply (Hh _ _ Hx).
    + intros j' e' Hj' He'. apply (Hlast j' e'); [|done].
      apply lookup_lt_Some in He'. lia.
  - intros y (p & Hp)%folder_values_elem.
    destruct (wf_folderMap _ _ Hwf1 _ _ Hp) as (_ & o & ? & _ & ?). eauto.
Qed.
End LastWins.

(** X19: when several file records have the same path, the last one
    wins in [fileMap]: the object under a key is the copy of the last
    file record of the archive with that path. *)
Theorem fileMap_last_record_wins `{Host} (fuel : nat) (es : list Origin.t) (r : State)
    (k : string) (x : ref) :
  parseZipAsTree fuel es = Ok r -> lookup_own k (fileMap r) = Some x ->
  exists j e, es !! j = Some e /\ Origin.isDirectory e = false /\
    Origin.entryName e = k /\ heap r !! x = Some (wrap (of_origin e)) /\
    forall j' e', (j < j')%nat -> es !! j' = Some e' ->
      Origin.isDirectory e' = false -> Origin.entryName e' <> k.
Proof.
  intros (st & Hb & Hwf & _ & HfM & _ & Hheap)%parse_inv Hk. rewrite HfM in Hk.
  destruct (build_last_wins es st k x Hb Hk) as (j & e & He & Hd & Hn & Hx & Hlast).
  exists j, e. split_and!; [done..| |done]. by eapply finished_leaf.
Qed.

Definition twins_result : State := Eval vm_compute in run 2 twins.

Lemma fileMap_last_record_wins_witness :
  @parseZipAsTree sample_host 2 twins = Ok twins_result /\
  lookup_own "a.txt" (fileMap twins_result) = Some 3%nat /\
  exists j e, twins !! j = Some e /\ Origin.isDirectory e = false /\
    Origin.entryName e = "a.txt" /\
    heap twins_result !! 3%nat = Some (@wrap sample_host (of_origin e)) /\
    forall j' e', (j < j')%nat -> twins !! j' = Some e' ->
      Origin.isDirectory e' = false -> Origin.entryName e' <> "a.txt".
Proof.
  split; [by vm_compute|]. split; [by vm_compute|].
  apply (@fileMap_last_record_wins sample_host 2 twins twins_result "a.txt" 3%nat);
    by vm_compute.
Defined.

(** * What every array holds *)

(** [c] is an entry with the parent path [parent]: the object that
    stands for a record with that parent path, or the folder registered
    under a path that is the parent path of a record and has that parent
    path itself. *)
Definition entry_of `{Host} (es : list Origin.t) (r : State) (parent : option string)
    (c : ref) : Prop :=
  (exists i e, es !! i = Some e /\ parent_path (Origin.entryName e) = parent /\
               stands_for r i e c) \/
  (exists p, direct_parent es p /\ parent_path p = parent /\
             lookup_own p (folderMap r) = Some c).

Section Contents.
Context `{Host} (es : list Origin.t).

(** Beyond the records, an object without [children] is the copy of a
    file record. *)
Lemma build_copy (st : State) (x : ref) (o : ZipEntry) :
  build es = Ok st -> heap st !! x = Some o -> children o = None ->
  (length es <= x)%nat ->
  exists e, e ∈ es /\ Origin.isDirectory e = false /\ o = wrap (of_origin e).
Proof.
  intros Hb Hx Hc Hge. destruct (build_census es st Hb) as (Hcopies & _ & Hleaves & _).
  destruct (Hleaves x o Hx Hc Hge) as [_ Hd].
  assert (Hin : o ∈ copies (length es) (heap st)).
  { unfold copies. apply list_elem_of_filter. split; [done|].
    apply list_elem_of_lookup. exists (x - length es)%nat.
    rewrite lookup_drop. by replace (length es + (x - length es))%nat with x by lia. }
  rewrite Hcopies in Hin. apply list_elem_of_omap in Hin as (e & He & Hcopy).
  unfold copy_of in Hcopy. destruct (Origin.isDirectory e) eqn:Hde; [done|].
  injection Hcopy as <-. by exists e.
Qed.

Lemma copy_is_beyond (st : State) (x : ref) (e : Origin.t) :
  wf es st -> heap st !! x = Some (wrap (of_origin e)) -> (length es <= x)%nat.
Proof.
  intros Hwf Hx. destruct (decide (length es <= x)%nat) as [|Hlt]; [done|].
  destruct (lookup_lt_is_Some_2 es x) as [e' He']; [lia|].
  pose proof (wf_origins _ _ Hwf _ _ He') as Hx'. rewrite Hx in Hx'. done.
Qed.

(** What has been put somewhere is an entry. *)
Lemma placed_is_entry (st : State) (c : ref) (oc : ZipEntry) :
  build es = Ok st -> placed st c -> heap st !! c = Some oc ->
  (exists i e, es !! i = Some e /\ Origin.entryName e = entryName oc /\
               stands_for st i e c) \/
  (direct_parent es (entryName oc) /\ lookup_own (entryName oc) (folderMap st) = Some c).
Proof.
  intros Hb Hpl Hc. pose proof (build_wf es st Hb) as Hwf.
  destruct (build_census es st Hb) as (_ & Hdirs & _ & Hfolders).
  destruct (children oc) as [cs|] eqn:Hcs.
  - right. split; [by apply (Hfolders c oc)|].
    by destruct (wf_folders _ _ Hwf _ _ _ Hc Hcs) as (_ & ? & _).
  - left. destruct (decide (c < length es)%nat) as [Hlt|Hge].
    + destruct (Hdirs c Hpl Hlt) as (e & He & Hd).
      pose proof (wf_origins _ _ Hwf _ _ He) as Ho.
      assert (oc = of_origin e) as -> by congruence.
      exists c, e. split_and!; [done..|]. unfold stands_for. by rewrite Hd.
    + destruct (build_copy st c oc Hb Hc Hcs ltac:(lia)) as (e & [i Hi]%list_elem_of_lookup_1 & Hd & ->).
      exists i, e. split_and!; [done..|]. unfold stands_for. by rewrite Hd.
Qed.

(** And every entry has been put somewhere. *)
Lemma record_is_placed (st : State) (i : nat) (e : Origin.t) (c : ref) :
  build es = Ok st -> es !! i = Some e -> stands_for st i e c ->
  placed st c /\ exists oc, heap st !! c = Some oc /\ entryName oc = Origin.entryName e.
Proof.
  intros Hb Hi Hs. pose proof (build_wf es st Hb) as Hwf.
  unfold stands_for in Hs. destruct (Origin.isDirectory e) eqn:Hd.
  - destruct Hs as [-> Hc]. split; [|by eexists].
    destruct (build_entry es st i e Hb Hi) as (entry & Hs' & Hpl & _).
    unfold stands_for in Hs'. rewrite Hd in Hs'. by destruct Hs' as [-> _].
  - split; [|by eexists].
    destruct (build_census es st Hb) as (_ & _ & Hleaves & _).
    by destruct (Hleaves c _ Hs eq_refl (copy_is_beyond st c e Hwf Hs)).
Qed.

Lemma folder_is_placed (st : State) (p : string) (c : ref) :
  build es = Ok st -> direct_parent es p -> lookup_own p (folderMap st) = Some c ->
  placed st c /\ exists oc, heap st !! c = Some oc /\ entryName oc = p.
Proof.
  intros Hb (e & [i Hi]%list_elem_of_lookup_1 & Hp) Hl.
  destruct (build_entry es st i e Hb Hi) as (_ & _ & _ & _ & Hpar).
  destruct (Hpar p Hp) as (f & Hf & Hpl). assert (f = c) as -> by congruence.
  split; [done|].
  destruct (wf_folderMap _ _ (build_wf es st Hb) _ _ Hl) as (_ & o & ? & ? & _). eauto.
Qed.

Lemma stands_for_back (fuel : nat) (st r : State) (i : nat) (e : Origin.t) (c : ref) :
  Forall2 (finished fuel (heap st)) (heap st) (heap r) ->
  stands_for r i e c -> stands_for st i e c.
Proof.
  intros Hheap. unfold stands_for.
  assert (Hback : forall o, children o = None -> heap r !! c = Some o ->
            heap st !! c = Some o).
  { intros o Hc Hr. destruct (result_object _ _ _ _ _ Hheap Hr) as (o0 & Ho0 & Hsim).
    destruct Hsim as (_ & _ & _ & _ & _ & _ & _ & Hch). rewrite Hc in Hch.
    destruct (children o0); [done|]. by rewrite Ho0, Hch. }
  destruct (Origin.isDirectory e).
  - intros [-> Hc]. split; [done|]. by apply Hback.
  - by apply Hback.
Qed.

(** The entries with a given parent path, in the state the two passes
    leave. *)
Lemma build_entries (st : State) (parent : option string) (c : ref) :
  build es = Ok st ->
  (entry_of es st parent c <->
   placed st c /\ exists oc, heap st !! c = Some oc /\ parent_path (entryName oc) = parent).
Proof.
  intros Hb. split.
  - intros [(i & e & Hi & Hp & Hs)|(p & Hd & Hp & Hl)].
    + destruct (record_is_placed st i e c Hb Hi Hs) as (Hpl & oc & Hoc & Hn).
      split; [done|]. exists oc. by rewrite Hn.
    + destruct (folder_is_placed st p c Hb Hd Hl) as (Hpl & oc & Hoc & Hn).
      split; [done|]. exists oc. by rewrite Hn.
  - intros (Hpl & oc & Hoc & Hp).
    destruct (placed_is_entry st c oc Hb Hpl Hoc) as [(i & e & Hi & Hn & Hs)|(Hd & Hl)].
    + left. exists i, e. by rewrite Hn.
    + right. by exists (entryName oc).
Qed.
End Contents.

(** X20: what every array of the result holds.  [files] holds exactly
    the objects that stand for the records without parent path and the
    folders of the parent paths (of records) that have no parent path
    themselves.  The [children] of the folder registered under [k] hold
    exactly the objects that stand for the records with parent path [k]
    and the folders of the parent paths (of records) whose own parent
    path is [k]. *)
Theorem arrays_hold_exactly_their_entries `{Host} (fuel : nat) (es : list Origin.t)
    (r : State) :
  parseZipAsTree fuel es = Ok r ->
  (forall c, c ∈ files r <-> entry_of es r None c) /\
  (forall k d o cs, lookup_own k (folderMap r) = Some d ->
     heap r !! d = Some o -> children o = Some cs ->
     forall c, c ∈ cs <-> entry_of es r (Some k) c).
Proof.
  intros (st & Hb & Hwf & HFM & _ & Hfiles & Hheap)%parse_inv.
  pose proof (sort_refs_perm _ _ _ Hfiles) as Hperm.
  assert (Hentry : forall parent c, entry_of es r parent c <-> entry_of es st parent c).
  { intros parent c. unfold entry_of. rewrite HFM. split;
      (intros [(i & e & Hi & Hp & Hs)|?]; [left|by right]); exists i, e;
      (split_and!; [done..|]).
    - by eapply stands_for_back.
    - by eapply stands_for_final. }
  split.
  - intros c. rewrite Hentry, (build_entries es st None c Hb), Hperm. split.
    + intros Hc. split; [by left|]. destruct (wf_files _ _ Hwf c Hc) as (oc & ? & ?). eauto.
    + intros (Hpl & oc & Hoc & Hp).
      pose proof (placed_where es st c oc Hwf Hoc Hpl) as Hw. by rewrite Hp in Hw.
  - intros k d o cs Hk Hd Hcs c. rewrite HFM in Hk.
    destruct (result_folder _ _ _ _ _ _ Hheap Hd Hcs) as (o0 & cs0 & Ho0 & Hcs0 & Hpc & _).
    destruct (wf_folderMap _ _ Hwf _ _ Hk) as (_ & o1 & Ho1 & Hname & _).
    assert (o1 = o0) as -> by congruence.
    rewrite Hentry, (build_entries es st (Some k) c Hb), Hpc. split.
    + intros Hc. split; [right; by exists d, o0, cs0|].
      destruct (wf_folders _ _ Hwf _ _ _ Ho0 Hcs0) as (_ & _ & _ & Hch).
      destruct (Hch c Hc) as (oc & Hoc & Hp). exists oc. by rewrite <- Hname.
    + intros (Hpl & oc & Hoc & Hp).
      pose proof (placed_where es st c oc Hwf Hoc Hpl) as Hw. rewrite Hp in Hw.
      destruct Hw as (f & fo & cs' & Hf & Hfo & Hcs' & Hin).
      assert (f = d) as -> by congruence. assert (fo = o0) as -> by congruence.
      by assert (cs' = cs0) as -> by congruence.
Qed.

Lemma arrays_hold_exactly_their_entries_witness :
  @parseZipAsTree sample_host 4 nested = Ok nested_result /\
  (forall c, c ∈ files nested_result <-> @entry_of sample_host nested nested_result None c).
Proof.
  split; [by vm_compute|].
  apply (@arrays_hold_exactly_their_entries sample_host 4 nested nested_result).
  by vm_compute.
Defined.

(** * The sizes of a folder, for any archive *)

(** What [coversb] computes: [k] lies some levels above [s], and every
    path strictly between them is the parent path of a record. *)
Lemma coversb_true (es : list Origin.t) (k : string) (len : nat) :
  forall s, (String.length s <= len)%nat ->
    (coversb es k s = true <->
     exists n, ancestor_path (S n) s = Some k /\
       forall m, (m < n)%nat ->
         exists q, ancestor_path (S m) s = Some q /\ direct_parent es q).
Proof.
  induction len as [|len IH]; intros s Hlen; rewrite coversb_unfold.
  - rewrite parent_path_empty by lia. split; [done|].
    intros (n & Hn & _). simpl in Hn. by rewrite parent_path_empty in Hn by lia.
  - destruct (parent_path s) as [p|] eqn:Hp.
    + apply parent_path_length in Hp as Hshort.
      assert (Hup : forall m, ancestor_path (S (S m)) s = ancestor_path (S m) p).
      { intros m. change (ancestor_path (S (S m)) s)
          with (parent_path s ≫= ancestor_path (S m)). by rewrite Hp. }
      assert (Hone : ancestor_path 1 s = Some p) by (simpl; by rewrite Hp).
      rewrite orb_true_iff, andb_true_iff, direct_parentb_true, (IH p) by lia.
      split.
      * intros [Heq|[Hd (n & Hn & Hall)]].
        -- apply String.eqb_eq in Heq as ->. exists 0%nat. split; [done|]. intros; lia.
        -- exists (S n). split; [by rewrite Hup|].
           intros [|m] Hm; [by exists p|]. rewrite Hup. apply Hall. lia.
      * intros ([|n] & Hn & Hall).
        -- left. rewrite Hone in Hn. injection Hn as ->. apply String.eqb_refl.
        -- right. destruct (Hall 0%nat ltac:(lia)) as (q & Hq & Hd).
           rewrite Hone in Hq. injection Hq as <-. split; [done|].
           exists n. split; [by rewrite <- Hup|].
           intros m Hm. rewrite <- Hup. apply Hall. lia.
    + split; [done|]. intros (n & Hn & _). simpl in Hn. by rewrite Hp in Hn.
Qed.

Lemma counted_is_below (es : list Origin.t) (k : string) (e : Origin.t) :
  countedb es k e = true -> file_below k e = true.
Proof.
  unfold countedb, file_below. intros [Hf Hc]%andb_true_iff. rewrite Hf. simpl.
  apply ancestor_below.
  by apply (covers_ancestor es k (String.length (Origin.entryName e))).
Qed.

Lemma total_filter_le {A} (f : A -> Z) (P Q : A -> bool) (l : list A) :
  (forall x, x ∈ l -> 0 <= f x) -> (forall x, P x = true -> Q x = true) ->
  total (map f (filter (fun x => P x = true) l))
  <= total (map f (filter (fun x => Q x = true) l)).
Proof.
  intros Hpos Hsub. induction l as [|x l IH]; [done|].
  assert (IH' : total (map f (filter (fun x => P x = true) l))
                <= total (map f (filter (fun x => Q x = true) l))).
  { apply IH. intros y Hy. apply Hpos. by right. }
  assert (0 <= f x) by (apply Hpos; left).
  rewrite !filter_cons.
  destruct (decide (P x = true)) as [HP|HP].
  - rewrite decide_True by (by apply Hsub). simpl. lia.
  - destruct (decide (Q x = true)); simpl; lia.
Qed.

(** X21: the two sizes of a folder, read off the records of any
    archive.  The number formatted into [fileSize] of the folder
    registered under [k] is the total size of the file records that [k]
    covers, and likewise for [compressedSize]; [k] covers a record when
    [k] lies above its entry name and every path strictly between the two
    is the parent path of some record. *)
Theorem folder_sizes_from_records `{Host} (fuel : nat) (es : list Origin.t) (r : State)
    (k : string) (d : ref) :
  parseZipAsTree fuel es = Ok r -> lookup_own k (folderMap r) = Some d ->
  (exists cs,
     heap r !! d = Some (folder_node k cs (aggregate es record_size k)
                           (aggregate es record_compressed k))) /\
  (forall e, countedb es k e = true <->
     Origin.isDirectory e = false /\
     exists n, ancestor_path (S n) (Origin.entryName e) = Some k /\
       forall m, (m < n)%nat ->
         exists q, ancestor_path (S m) (Origin.entryName e) = Some q /\
                   direct_parent es q).
Proof.
  intros Hp Hk. split; [by apply (folder_sizes_closed_form fuel es r k d)|].
  intros e. unfold countedb.
  rewrite andb_true_iff, negb_true_iff.
  by rewrite (coversb_true es k (String.length (Origin.entryName e))).
Qed.

Definition sparse : list Origin.t :=
  [file "a/x.txt" "x.txt" 1 1; file "a/b/c/d.txt" "d.txt" 10 4].

Definition sparse_result : State := Eval vm_compute in run 3 sparse.

Lemma folder_sizes_from_records_witness :
  @parseZipAsTree sample_host 3 sparse = Ok sparse_result /\
  lookup_own "a" (folderMap sparse_result) = Some 3%nat /\
  aggregate sparse record_size "a" = 1 /\
  exists cs,
    heap sparse_result !! 3%nat
    = Some (@folder_node sample_host "a" cs (aggregate sparse record_size "a")
              (aggregate sparse record_compressed "a")).
Proof.
  split; [by vm_compute|]. split; [by vm_compute|]. split; [reflexivity|].
  apply (@folder_sizes_from_records sample_host 3 sparse sparse_result "a" 3%nat);
    by vm_compute.
Defined.

(** X22: a folder never shows more than what lies below it.  When no
    record has a negative size, the number formatted into [fileSize] of
    the folder registered under [k] is at most the total size of the
    file records whose entry name starts with [k] and a separator, and
    likewise for [compressedSize]. *)
Theorem folder_size_is_at_most_subtree_size `{Host} (fuel : nat) (es : list Origin.t)
    (r : State) (k : string) (d : ref) :
  (forall e, e ∈ es -> 0 <= record_size e /\ 0 <= record_compressed e) ->
  parseZipAsTree fuel es = Ok r -> lookup_own k (folderMap r) = Some d ->
  exists cs raw comp,
    heap r !! d = Some (folder_node k cs raw comp) /\
    raw <= subtree_size es record_size k /\
    comp <= subtree_size es record_compressed k.
Proof.
  intros Hpos Hp Hk. destruct (folder_sizes_closed_form fuel es r k d Hp Hk) as [cs Hd].
  exists cs, (aggregate es record_size k), (aggregate es record_compressed k).
  split; [done|]. unfold aggregate, subtree_size.
  split; apply total_filter_le; try apply counted_is_below; intros e He; by apply Hpos.
Qed.

Lemma folder_size_is_at_most_subtree_size_witness :
  @parseZipAsTree sample_host 3 sparse = Ok sparse_result /\
  subtree_size sparse record_size "a" = 11 /\
  exists cs raw comp,
    heap sparse_result !! 3%nat = Some (@folder_node sample_host "a" cs raw comp) /\
    raw <= subtree_size sparse record_size "a" /\
    comp <= subtree_size sparse record_compressed "a".
Proof.
  split; [by vm_compute|]. split; [reflexivity|].
  apply (@folder_size_is_at_most_subtree_size sample_host 3 sparse sparse_result "a" 3%nat);
    [|by vm_compute..].
  intros e He. repeat (apply elem_of_cons in He as [->|He]; [by vm_compute|]).
  by apply elem_of_nil in He.
Defined.

(** * Reordering the records, continued *)

(** ** Two sorted arrays with the same elements *)

(** Neither of the two comes after the other. *)
Definition tied {A} (cmp : A -> A -> Z) (a b : A) : Prop :=
  cmp a b <= 0 /\ cmp b a <= 0.

Section Ties.
Context {A : Type} (cmp : A -> A -> Z).
Hypothesis Htot : total_comparator cmp.
Hypothesis Htr : transitive_comparator cmp.

Lemma cmp_refl (a : A) : cmp a a <= 0.
Proof. destruct (Z.leb_spec (cmp a a) 0) as [|Hgt]; [done|]. by apply Htot. Qed.

Lemma tied_refl (a : A) : tied cmp a a.
Proof. split; apply cmp_refl. Qed.

Lemma tied_sym (a b : A) : tied cmp a b -> tied cmp b a.
Proof. by intros [? ?]. Qed.

Lemma tied_trans (a b c : A) : tied cmp a b -> tied cmp b c -> tied cmp a c.
Proof. intros [? ?] [? ?]. split; by eapply Htr. Qed.

(** In an ordered array every element comes no later than the ones
    behind it. *)
Lemma ordered_strongly (l : list A) :
  ordered cmp l -> StronglySorted (fun a b => cmp a b <= 0) l.
Proof. apply Sorted_StronglySorted. intros a b c. apply Htr. Qed.

Lemma strongly_sorted_middle (l1 l2 : list A) (x : A) :
  StronglySorted (fun a b => cmp a b <= 0) (l1 ++ x :: l2) ->
  StronglySorted (fun a b => cmp a b <= 0) (l1 ++ l2) /\
  Forall (fun y => cmp y x <= 0) l1.
Proof.
  induction l1 as [|y l1 IH]; simpl; intros Hs.
  - apply StronglySorted_inv in Hs as [Hs _]. by split.
  - apply StronglySorted_inv in Hs as [Hs Hall]. destruct (IH Hs) as [Hs' Hl1].
    split.
    + constructor; [done|]. rewrite Forall_app in Hall |- *.
      destruct Hall as [? Hall]. split; [done|]. by apply Forall_cons in Hall as [_ ?].
    + constructor; [|done]. rewrite Forall_app in Hall. destruct Hall as [_ Hall].
      by apply Forall_cons in Hall as [? _].
Qed.

(** Moving one element of a class of tied elements to the other end. *)
Lemma tied_shift (x : A) (k : list A) :
  forall a b, tied cmp x a -> tied cmp x b -> (forall y, y ∈ k -> tied cmp x y) ->
    Forall2 (tied cmp) (a :: k) (k ++ [b]).
Proof.
  induction k as [|y k IH]; intros a b Ha Hb Hk; simpl.
  - constructor; [|constructor]. eapply tied_trans; [apply tied_sym, Ha|done].
  - assert (Hy : tied cmp x y) by (apply Hk; left). constructor.
    + eapply tied_trans; [apply tied_sym, Ha|done].
    + apply IH; [done..|]. intros z Hz. apply Hk. by right.
Qed.

Lemma Forall2_tied_refl (l : list A) : Forall2 (tied cmp) l l.
Proof. induction l; constructor; [apply tied_refl|done]. Qed.

Lemma Forall2_tied_trans (l1 l2 l3 : list A) :
  Forall2 (tied cmp) l1 l2 -> Forall2 (tied cmp) l2 l3 -> Forall2 (tied cmp) l1 l3.
Proof.
  intros H12. revert l3. induction H12 as [|a b l1 l2 Hab H12 IH]; intros l3 H23.
  - by inversion H23.
  - inversion H23 as [|b' c l2' l3' Hbc H23']; subst. constructor; [|by apply IH].
    by eapply tied_trans.
Qed.

(** Two ordered arrays with the same elements agree position by
    position, up to elements that are tied. *)
Lemma sorted_perm_tied (l : list A) :
  forall l', ordered cmp l -> ordered cmp l' -> l ≡ₚ l' -> Forall2 (tied cmp) l l'.
Proof.
  induction l as [|x t IH]; intros l' Hl Hl' Hperm.
  - apply Permutation_nil_l in Hperm. subst l'. constructor.
  - symmetry in Hperm.
    destruct (Permutation_cons_inv_r _ _ _ Hperm) as (k1 & k2 & -> & Ht).
    pose proof (ordered_strongly _ Hl') as Hs'.
    destruct (strongly_sorted_middle k1 k2 x Hs') as [Hs'' Hk1].
    pose proof (ordered_strongly _ Hl) as Hs.
    apply StronglySorted_inv in Hs as [_ Hxt].
    assert (Hclass : forall y, y ∈ k1 -> tied cmp x y).
    { intros y Hy. split.
      - rewrite Forall_forall in Hxt. apply Hxt. rewrite Ht. apply elem_of_app. by left.
      - rewrite Forall_forall in Hk1. by apply Hk1. }
    apply (Forall2_tied_trans _ (x :: k1 ++ k2)).
    + constructor; [apply tied_refl|]. apply IH; [|by apply StronglySorted_Sorted|done].
      by apply Sorted_inv in Hl as [? _].
    + change (x :: k1 ++ k2) with ((x :: k1) ++ k2).
      replace (k1 ++ x :: k2) with ((k1 ++ [x]) ++ k2) by (by rewrite <- app_assoc).
      apply Forall2_app; [|apply Forall2_tied_refl].
      apply (tied_shift x); [apply tied_refl|apply tied_refl|done].
Qed.

(** When tied elements are equal, the two arrays are equal. *)
Lemma tied_arrays_equal (l l' : list A) :
  Forall2 (tied cmp) l l' -> l ≡ₚ l' ->
  (forall a b, a ∈ l -> b ∈ l -> tied cmp a b -> a = b) -> l = l'.
Proof.
  intros HF Hperm Heq.
  assert (Hgen : forall l1 l2, Forall2 (tied cmp) l1 l2 ->
            (forall a, a ∈ l1 -> a ∈ l) -> (forall b, b ∈ l2 -> b ∈ l) -> l1 = l2).
  { induction 1 as [|a b l1 l2 Hab H12 IH]; intros H1 H2; [done|].
    f_equal.
    - apply Heq; [apply H1; left|apply H2; left|done].
    - apply IH; intros c Hc; [apply H1|apply H2]; by right. }
  apply Hgen; [done|done|]. intros b Hb. by rewrite Hperm.
Qed.
End Ties.

(** ** What an array shows *)

(** A node without the references it holds: the properties of the
    object, with [children] emptied when it has them. *)
Definition shallow (o : ZipEntry) : ZipEntry :=
  match children o with
  | Some _ => set_children [] o
  | None => o
  end.

(** The nodes an array of references lists, in its order. *)
Definition shown (r : State) (rs : list ref) : list ZipEntry :=
  omap (fun x => shallow <$> heap r !! x) rs.

(** The parent paths of the records, each once. *)
Definition parent_keys (es : list Origin.t) : list string :=
  remove_dups (omap (fun e => parent_path (Origin.entryName e)) es).

(** The nodes with a given parent path, read off the records: the
    directory records as they are, the copies of the file records, and
    the folders of the parent paths of records. *)
Definition entries_shown `{Host} (es : list Origin.t) (parent : option string)
    : list ZipEntry :=
  map of_origin
    (filter (fun e => parent_path (Origin.entryName e) = parent /\
                      Origin.isDirectory e = true) es) ++
  map (fun e => wrap (of_origin e))
    (filter (fun e => parent_path (Origin.entryName e) = parent /\
                      Origin.isDirectory e = false) es) ++
  map (fun p => folder_node p [] (aggregate es record_size p)
                  (aggregate es record_compressed p))
    (filter (fun p => parent_path p = parent) (parent_keys es)).

Lemma parent_keys_elem (es : list Origin.t) (p : string) :
  p ∈ parent_keys es <-> direct_parent es p.
Proof.
  unfold parent_keys, direct_parent. rewrite elem_of_remove_dups, list_elem_of_omap.
  done.
Qed.

Lemma parent_keys_perm (es es' : list Origin.t) :
  es ≡ₚ es' -> parent_keys es ≡ₚ parent_keys es'.
Proof.
  intros Hperm. apply NoDup_Permutation; [apply NoDup_remove_dups..|].
  intros p. rewrite !parent_keys_elem. unfold direct_parent. by setoid_rewrite Hperm.
Qed.

Lemma entries_shown_perm `{Host} (es es' : list Origin.t) (parent : option string) :
  es ≡ₚ es' -> entries_shown es parent ≡ₚ entries_shown es' parent.
Proof.
  intros Hperm. unfold entries_shown. repeat apply Permutation_app.
  - apply Permutation_map. by rewrite Hperm.
  - apply Permutation_map. by rewrite Hperm.
  - rewrite (map_ext _ (fun p => folder_node p [] (aggregate es' record_size p)
                                   (aggregate es' record_compressed p))).
    + apply Permutation_map. by rewrite (parent_keys_perm es es' Hperm).
    + intros p. by rewrite (aggregate_perm es es' record_size p Hperm),
                           (aggregate_perm es es' record_compressed p Hperm).
Qed.

Lemma shown_app (r : State) (a b : list ref) : shown r (a ++ b) = shown r a ++ shown r b.
Proof. apply omap_app. Qed.

Lemma shown_cons (r : State) (x : ref) (o : ZipEntry) (rs : list ref) :
  heap r !! x = Some o -> shown r (x :: rs) = shallow o :: shown r rs.
Proof. intros Hx. unfold shown. rewrite omap_cons_list, Hx. done. Qed.

Lemma shown_perm (r : State) (a b : list ref) : a ≡ₚ b -> shown r a ≡ₚ shown r b.
Proof. intros Hperm. unfold shown. by rewrite Hperm. Qed.

Lemma shown_length (r : State) (rs : list ref) :
  (forall x, x ∈ rs -> is_Some (heap r !! x)) -> length (shown r rs) = length rs.
Proof.
  induction rs as [|x rs IH]; intros Hall; [done|].
  unfold shown. rewrite omap_cons_list. destruct (Hall x) as [o Ho]; [left|].
  rewrite Ho. simpl. f_equal. apply IH. intros y Hy. apply Hall. by right.
Qed.

(** The elements of a list that pass a test, through their positions. *)
Lemma omap_filter_positions {A B} (P : A -> Prop) `{!forall a, Decision (P a)}
    (g : A -> B) (f : nat -> option B) (q : nat -> bool) (l : list A) :
  forall start,
    (forall i a, l !! i = Some a ->
       (q (start + i)%nat = true <-> P a) /\ (P a -> f (start + i)%nat = Some (g a))) ->
    omap f (filter (fun x => q x = true) (seq start (length l))) = map g (filter P l).
Proof.
  induction l as [|a l IH]; intros start Hl; [done|].
  change (seq start (length (a :: l))) with (start :: seq (S start) (length l)).
  destruct (Hl 0%nat a eq_refl) as [Hq Hf]. rewrite Nat.add_0_r in Hq, Hf.
  assert (Htl : omap f (filter (fun x => q x = true) (seq (S start) (length l)))
                = map g (filter P l)).
  { apply IH. intros i b Hi. replace (S start + i)%nat with (start + S i)%nat by lia.
    by apply (Hl (S i)). }
  rewrite !filter_cons. destruct (decide (P a)) as [Ha|Ha].
  - rewrite decide_True by (by apply Hq). rewrite omap_cons_list, (Hf Ha). simpl.
    by rewrite Htl.
  - rewrite decide_False by (by rewrite Hq). done.
Qed.

Lemma shallow_leaf (o : ZipEntry) : children o = None -> shallow o = o.
Proof. unfold shallow. by intros ->. Qed.

Section Shown.
Context `{Host} (es : list Origin.t).

(** The copies of the file records with a given parent path. *)
Lemma copies_with_parent (parent : option string) (l : list Origin.t) :
  filter (fun o => parent_path (entryName o) = parent) (omap copy_of l)
  = map (fun e => wrap (of_origin e))
      (filter (fun e => parent_path (Origin.entryName e) = parent /\
                        Origin.isDirectory e = false) l).
Proof.
  induction l as [|e l IH]; [done|].
  rewrite omap_cons_list, filter_app, IH, filter_cons. unfold copy_of.
  destruct (Origin.isDirectory e) eqn:Hd.
  - change (option_list None) with (@nil ZipEntry). rewrite filter_nil.
    by rewrite decide_False by (intros [_ ?]; congruence).
  - change (option_list (Some (wrap (of_origin e)))) with [wrap (of_origin e)].
    rewrite filter_cons, filter_nil.
    change (entryName (wrap (of_origin e))) with (Origin.entryName e).
    destruct (decide (parent_path (Origin.entryName e) = parent)) as [Hp|Hp].
    + by rewrite decide_True by done.
    + by rewrite decide_False by (by intros [? _]).
Qed.

(** The folders of the parent paths of records, as an array shows them. *)
Lemma shown_folders (fuel : nat) (r : State) (ks : list string) :
  parseZipAsTree fuel es = Ok r ->
  (forall p, p ∈ ks -> direct_parent es p) ->
  shown r (omap (fun p => lookup_own p (folderMap r)) ks)
  = map (fun p => folder_node p [] (aggregate es record_size p)
                    (aggregate es record_compressed p)) ks.
Proof.
  intros Hp. pose proof Hp as (st & Hb & _ & HFM & _)%parse_inv.
  induction ks as [|p ks IH]; intros Hall; [done|].
  assert (Hkey : p ∈ keys (folderMap r)).
  { rewrite HFM. apply (build_folder_keys es st p Hb). left. apply Hall. left. }
  apply lookup_own_is_Some in Hkey as [d Hd].
  destruct (folder_sizes_closed_form fuel es r p d Hp Hd) as [cs Hcs].
  rewrite omap_cons_list, Hd.
  change (option_list (Some d) ++ omap (fun p => lookup_own p (folderMap r)) ks)
    with (d :: omap (fun p => lookup_own p (folderMap r)) ks).
  rewrite (shown_cons r d _ _ Hcs). simpl. f_equal. apply IH.
  intros q Hq. apply Hall. by right.
Qed.

(** An array that holds, each once, the references that have been put
    somewhere and whose path has the parent path [parent], shows the
    nodes read off the records. *)
Lemma array_shown (fuel : nat) (st r : State) (parent : option string) (arr : list ref) :
  build es = Ok st -> parseZipAsTree fuel es = Ok r ->
  NoDup arr ->
  (forall x, x ∈ arr <->
     placed st x /\
     exists oc, heap st !! x = Some oc /\ parent_path (entryName oc) = parent) ->
  shown r arr ≡ₚ entries_shown es parent.
Proof.
  intros Hb Hp Hnd Harr.
  pose proof Hp as (st' & Hb' & Hwf & HFM & _ & _ & Hheap)%parse_inv.
  assert (st' = st) as -> by congruence.
  destruct (build_census es st Hb) as (Hcopies & _ & Hleaves & _).
  pose proof (origins_length es st Hwf) as Hlen.
  set (n := length es) in *.
  set (qa := fun i => match es !! i with
                      | Some e => bool_decide (parent_path (Origin.entryName e) = parent /\
                                               Origin.isDirectory e = true)
                      | None => false
                      end).
  set (qb := fun x => match heap st !! x with
                      | Some o => bool_decide (parent_path (entryName o) = parent /\
                                               isDirectory o = false)
                      | None => false
                      end).
  set (ks := filter (fun p => parent_path p = parent) (parent_keys es)).
  set (A := filter (fun i => qa i = true) (seq 0 n)).
  set (B := filter (fun x => qb x = true) (seq n (length (drop n (heap st))))).
  set (C := omap (fun p => lookup_own p (folderMap r)) ks).
  assert (Hks : forall p, p ∈ ks -> direct_parent es p).
  { intros p [_ Hp']%list_elem_of_filter. by apply parent_keys_elem. }
  assert (HA : forall x, x ∈ A <->
            exists e, es !! x = Some e /\ parent_path (Origin.entryName e) = parent /\
                      Origin.isDirectory e = true).
  { intros x. unfold A. rewrite list_elem_of_filter, elem_of_seq. unfold qa. split.
    - intros [Hq _]. destruct (es !! x) as [e|]; [|done].
      apply bool_decide_eq_true in Hq. by exists e.
    - intros (e & He & Hq). rewrite He. split; [by apply bool_decide_eq_true|].
      apply lookup_lt_Some in He. unfold n. lia. }
  assert (HB : forall x, x ∈ B <->
            (n <= x)%nat /\
            exists o, heap st !! x = Some o /\ parent_path (entryName o) = parent /\
                      isDirectory o = false).
  { intros x. unfold B. rewrite list_elem_of_filter, elem_of_seq, length_drop. unfold qb.
    split.
    - intros [Hq [Hge _]]. split; [done|]. destruct (heap st !! x) as [o|]; [|done].
      apply bool_decide_eq_true in Hq. by exists o.
    - intros (Hge & o & Ho & Hq). rewrite Ho. split; [by apply bool_decide_eq_true|].
      apply lookup_lt_Some in Ho. lia. }
  assert (HC : forall x, x ∈ C <->
            exists p, direct_parent es p /\ parent_path p = parent /\
                      lookup_own p (folderMap st) = Some x).
  { intros x. unfold C, ks. rewrite list_elem_of_omap, HFM. split.
    - intros (p & [Hpp Hk%parent_keys_elem]%list_elem_of_filter & Hl). by exists p.
    - intros (p & Hd & Hpp & Hl). exists p. split; [|done].
      apply list_elem_of_filter. split; [done|]. by apply parent_keys_elem. }
  assert (Hfolder : forall x p, lookup_own p (folderMap st) = Some x ->
            (n <= x)%nat /\ exists o, heap st !! x = Some o /\ entryName o = p /\
                                      isDirectory o = true /\ is_Some (children o)).
  { intros x p Hl. destruct (wf_folderMap _ _ Hwf _ _ Hl) as (_ & o & Ho & Hn & [cs Hcs]).
    destruct (wf_folders _ _ Hwf _ _ _ Ho Hcs) as (Hs & _). split.
    - destruct (decide (n <= x)%nat) as [|Hlt]; [done|].
      destruct (lookup_lt_is_Some_2 es x) as [e He]; [unfold n in *; lia|].
      pose proof (wf_origins _ _ Hwf _ _ He). assert (o = of_origin e) as -> by congruence.
      done.
    - exists o. split_and!; [done..|by rewrite Hs|eauto]. }
  assert (Hperm : arr ≡ₚ A ++ B ++ C).
  { apply NoDup_Permutation; [done| |].
    - apply NoDup_app. split_and!.
      + apply NoDup_filter, NoDup_seq.
      + intros x (e & He & _)%HA [(Hge & _)%HB|(p & _ & _ & Hl)%HC]%elem_of_app.
        * apply lookup_lt_Some in He. unfold n in *. lia.
        * destruct (Hfolder x p Hl) as [Hge _]. apply lookup_lt_Some in He.
          unfold n in *. lia.
      + apply NoDup_app. split_and!.
        * apply NoDup_filter, NoDup_seq.
        * intros x (_ & o & Ho & _ & Hd)%HB (p & _ & _ & Hl)%HC.
          destruct (Hfolder x p Hl) as (_ & o' & Ho' & _ & Hd' & _).
          assert (o' = o) as -> by congruence. congruence.
        * apply NoDup_omap_inj; [apply NoDup_filter, NoDup_remove_dups|].
          intros p p' x _ _ Hl Hl'. rewrite HFM in Hl, Hl'.
          destruct (Hfolder x p Hl) as (_ & o & Ho & <- & _).
          destruct (Hfolder x p' Hl') as (_ & o' & Ho' & <- & _). congruence.
    - intros x. rewrite Harr, !elem_of_app, HA, HB, HC. split.
      + intros (Hpl & oc & Hoc & Hpar).
        destruct (placed_is_entry es st x oc Hb Hpl Hoc)
          as [(i & e & Hi & Hn & Hs)|(Hd & Hl)].
        * unfold stands_for in Hs. destruct (Origin.isDirectory e) eqn:Hde.
          -- destruct Hs as [-> _]. left. exists e. by rewrite Hn.
          -- right. left. split; [by eapply copy_is_beyond|].
             exists oc. split_and!; [done..|]. rewrite Hoc in Hs. by injection Hs as ->.
        * right. right. by exists (entryName oc).
      + intros [(e & He & Hpar & Hd)|[(Hge & o & Ho & Hpar & Hd)|(p & Hd & Hpar & Hl)]].
        * destruct (record_is_placed es st x e x Hb He) as (Hpl & oc & Hoc & Hn).
          { unfold stands_for. rewrite Hd. split; [done|]. by apply (wf_origins _ _ Hwf). }
          split; [done|]. exists oc. by rewrite Hn.
        * assert (Hc : children o = None).
          { destruct (children o) as [cs|] eqn:Hcs; [|done].
            destruct (wf_folders _ _ Hwf _ _ _ Ho Hcs) as (Hs & _).
            rewrite Hs in Hd. done. }
          destruct (Hleaves x o Ho Hc Hge) as [Hpl _]. split; [done|]. by exists o.
        * destruct (folder_is_placed es st p x Hb Hd Hl) as (Hpl & oc & Hoc & Hn).
          split; [done|]. exists oc. by rewrite Hn. }
  rewrite (shown_perm r _ _ Hperm), !shown_app. unfold entries_shown.
  assert (HsA : shown r A
            = map of_origin (filter (fun e => parent_path (Origin.entryName e) = parent /\
                                              Origin.isDirectory e = true) es)).
  { apply (omap_filter_positions _ of_origin _ qa es 0%nat).
    intros i e He. simpl. unfold qa. rewrite He. split; [apply bool_decide_eq_true|].
    intros _. pose proof (wf_origins _ _ Hwf _ _ He) as Ho.
    by rewrite (finished_leaf _ _ _ _ _ Hheap Ho eq_refl). }
  assert (HsB : shown r B
            = map (fun e => wrap (of_origin e))
                (filter (fun e => parent_path (Origin.entryName e) = parent /\
                                  Origin.isDirectory e = false) es)).
  { rewrite <- copies_with_parent, <- Hcopies. unfold copies.
    rewrite list_filter_filter, <- (map_id (filter _ (drop n (heap st)))).
    apply (omap_filter_positions _ id _ qb (drop n (heap st)) n).
    intros i o Ho. rewrite lookup_drop in Ho. unfold qb. rewrite Ho.
    split; [apply bool_decide_eq_true|]. intros [_ Hd].
    assert (Hc : children o = None).
    { destruct (children o) as [cs|] eqn:Hcs; [|done].
      destruct (wf_folders _ _ Hwf _ _ _ Ho Hcs) as (Hs & _). rewrite Hs in Hd. done. }
    rewrite (finished_leaf _ _ _ _ _ Hheap Ho Hc). simpl. by rewrite shallow_leaf. }
  rewrite HsA, HsB. unfold C. by rewrite (shown_folders fuel r ks Hp Hks).
Qed.
End Shown.

Lemma shallow_fields (o : ZipEntry) :
  isDirectory (shallow o) = isDirectory o /\ name (shallow o) = name o.
Proof. unfold shallow. by destruct (children o). Qed.

Lemma Sorted_Forall2 {A B} (R : A -> B -> Prop) (cmp : A -> A -> Z) (cmp' : B -> B -> Z)
    (l : list A) (l' : list B) :
  (forall a a' b b', R a a' -> R b b' -> cmp a b = cmp' a' b') ->
  Forall2 R l l' -> ordered cmp l -> ordered cmp' l'.
Proof.
  intros Hcmp. induction 1 as [|a a' l l' Haa' Hl IH]; intros Hs; [constructor|].
  apply Sorted_inv in Hs as [Hs Hhd]. constructor; [by apply IH|].
  destruct Hl as [|b b' l l' Hbb' Hl]; constructor.
  apply HdRel_inv in Hhd. by rewrite <- (Hcmp a a' b b').
Qed.

(** The two arrays hold the same nodes; when [localeCompare] is a
    consistent comparator they agree position by position up to nodes
    that are tied, and they are equal when tied nodes are equal. *)
Definition same_entries `{Host} (l l' : list ZipEntry) : Prop :=
  l ≡ₚ l' /\
  (total_comparator localeCompare -> transitive_comparator localeCompare ->
   Forall2 (tied sortFiles) l l' /\
   ((forall a b, a ∈ l -> b ∈ l -> tied sortFiles a b -> a = b) -> l = l')).

Section Arrays.
Context `{Host} (es : list Origin.t).

(** A sorted array shows its nodes in order. *)
Lemma shown_ordered (h : list ZipEntry) (r : State) (rs sorted : list ref) :
  heap_sim h (heap r) -> total_comparator localeCompare ->
  sort_refs h rs = Ok sorted -> ordered sortFiles (shown r sorted).
Proof.
  intros Hsim Htot Hs.
  destruct (sort_refs_ordered h rs sorted Htot Hs) as (objs & Hobjs & Hord).
  apply (Sorted_Forall2
           (fun o o' => isDirectory o' = isDirectory o /\ name o' = name o)
           sortFiles sortFiles objs); [| |done].
  - intros a a' b b' [Hd Hn] [Hd' Hn']. unfold sortFiles. by rewrite Hd, Hn, Hd', Hn'.
  - clear Hord Hs. induction Hobjs as [|x o l objs Hx Hl IH]; [constructor|].
    destruct (Forall2_lookup_l _ _ _ _ _ Hsim Hx) as (o' & Hx' & Hs).
    rewrite (shown_cons r x o' l Hx'). constructor; [|done].
    destruct (shallow_fields o') as [-> ->]. by destruct Hs as (? & ? & _).
Qed.

(** What [files] shows. *)
Lemma roots_shown (fuel : nat) (r : State) :
  parseZipAsTree fuel es = Ok r ->
  shown r (files r) ≡ₚ entries_shown es None /\
  length (shown r (files r)) = length (files r) /\
  (total_comparator localeCompare -> ordered sortFiles (shown r (files r))).
Proof.
  intros Hp. pose proof Hp as (st & Hb & Hwf & HFM & _ & Hfiles & Hheap)%parse_inv.
  pose proof (finished_heap_sim _ _ _ Hheap) as Hsim.
  pose proof (sort_refs_perm _ _ _ Hfiles) as Hperm.
  split_and!.
  - rewrite (shown_perm r _ _ Hperm).
    apply (array_shown es fuel st r None (files st) Hb Hp); [apply Hwf|].
    intros x. split.
    + intros Hx. split; [by left|]. destruct (wf_files _ _ Hwf x Hx) as (oc & ? & ?). eauto.
    + intros (Hpl & oc & Hoc & Hpar).
      pose proof (placed_where es st x oc Hwf Hoc Hpl) as Hw. by rewrite Hpar in Hw.
  - apply shown_length. intros x Hx. rewrite Hperm in Hx.
    destruct (wf_files _ _ Hwf x Hx) as (oc & Hoc & _).
    apply lookup_lt_is_Some. rewrite <- (Forall2_length _ _ _ Hheap).
    by eapply lookup_lt_Some.
  - intros Htot. by eapply shown_ordered.
Qed.

(** What the [children] of a folder show. *)
Lemma children_shown (fuel : nat) (r : State) (k : string) (d : ref) (o : ZipEntry)
    (cs : list ref) :
  parseZipAsTree fuel es = Ok r -> lookup_own k (folderMap r) = Some d ->
  heap r !! d = Some o -> children o = Some cs ->
  shown r cs ≡ₚ entries_shown es (Some k) /\
  length (shown r cs) = length cs /\
  (total_comparator localeCompare -> ordered sortFiles (shown r cs)).
Proof.
  intros Hp Hk Hd Hcs.
  pose proof Hp as (st & Hb & Hwf & HFM & _ & _ & Hheap)%parse_inv.
  pose proof (finished_heap_sim _ _ _ Hheap) as Hsim.
  rewrite HFM in Hk.
  destruct (wf_folderMap _ _ Hwf _ _ Hk) as (_ & o0 & Ho0 & Hname & [cs0 Hcs0]).
  destruct (finished_folder _ _ _ _ _ _ Hheap Ho0 Hcs0)
    as (sorted & raw & comp & Hsort & _ & _ & Hr).
  assert (cs = sorted) as -> by (rewrite Hd in Hr; injection Hr as ->; simpl in Hcs; congruence).
  pose proof (sort_refs_perm _ _ _ Hsort) as Hperm.
  destruct (wf_folders _ _ Hwf _ _ _ Ho0 Hcs0) as (_ & _ & Hnd & Hch).
  split_and!.
  - rewrite (shown_perm r _ _ Hperm).
    apply (array_shown es fuel st r (Some k) cs0 Hb Hp Hnd).
    intros x. split.
    + intros Hx. split; [right; by exists d, o0, cs0|].
      destruct (Hch x Hx) as (oc & Hoc & Hpar). exists oc. by rewrite <- Hname.
    + intros (Hpl & oc & Hoc & Hpar).
      pose proof (placed_where es st x oc Hwf Hoc Hpl) as Hw. rewrite Hpar in Hw.
      destruct Hw as (f & fo & cs' & Hf & Hfo & Hcs' & Hin).
      assert (f = d) as -> by congruence. assert (fo = o0) as -> by congruence.
      by assert (cs' = cs0) as -> by congruence.
  - apply shown_length. intros x Hx. rewrite Hperm in Hx.
    destruct (Hch x Hx) as (oc & Hoc & _).
    apply lookup_lt_is_Some. rewrite <- (Forall2_length _ _ _ Hheap).
    by eapply lookup_lt_Some.
  - intros Htot. by eapply shown_ordered.
Qed.
End Arrays.

Lemma same_entries_sorted `{Host} (l l' : list ZipEntry) :
  l ≡ₚ l' ->
  (total_comparator localeCompare -> ordered sortFiles l) ->
  (total_comparator localeCompare -> ordered sortFiles l') ->
  same_entries l l'.
Proof.
  intros Hperm Hl Hl'. split; [done|]. intros Htot Htr.
  assert (HF : Forall2 (tied sortFiles) l l').
  { apply sorted_perm_tied; [by apply sortFiles_total|by apply sortFiles_trans|auto..]. }
  split; [done|]. intros Heq. by apply (tied_arrays_equal sortFiles).
Qed.

(** C4, as the code has it: two runs on the same records in different
    orders register the same set of directory paths in [folderMap], and
    under each of them a folder with the same name, the same path and the
    same two aggregate sizes.  The [children] of the two folders show the
    same nodes (each array of references resolves in its store), and so
    do the two [files].  When [localeCompare] is a consistent comparator
    the arrays agree position by position up to nodes that are tied, and
    they are equal when no two different nodes of the array are tied.  A
    key that both [fileMap]s have leads to equal nodes when only one file
    record has that path, and the two [fileMap]s have the same keys
    without separator.  (Which object a key of [fileMap] leads to when
    several file records have one path, and the order of siblings that
    are tied, follow the order of the records.) *)
Theorem permuted_input_same_tree `{Host} (fuel fuel' : nat)
    (es es' : list Origin.t) (r r' : State) :
  es ≡ₚ es' ->
  parseZipAsTree fuel es = Ok r -> parseZipAsTree fuel' es' = Ok r' ->
  (forall k, k ∈ keys (folderMap r) <-> k ∈ keys (folderMap r')) /\
  (forall k d d',
     lookup_own k (folderMap r) = Some d -> lookup_own k (folderMap r') = Some d' ->
     exists cs cs' raw comp,
       heap r !! d = Some (folder_node k cs raw comp) /\
       heap r' !! d' = Some (folder_node k cs' raw comp) /\
       length (shown r cs) = length cs /\ length (shown r' cs') = length cs' /\
       same_entries (shown r cs) (shown r' cs')) /\
  (length (shown r (files r)) = length (files r) /\
   length (shown r' (files r')) = length (files r') /\
   same_entries (shown r (files r)) (shown r' (files r'))) /\
  (forall k x x',
     lookup_own k (fileMap r) = Some x -> lookup_own k (fileMap r') = Some x' ->
     (forall e1 e2, e1 ∈ es -> e2 ∈ es ->
        Origin.isDirectory e1 = false -> Origin.isDirectory e2 = false ->
        Origin.entryName e1 = k -> Origin.entryName e2 = k -> e1 = e2) ->
     exists e, heap r !! x = Some (wrap (of_origin e)) /\
               heap r' !! x' = Some (wrap (of_origin e))) /\
  (forall k, parent_path k = None ->
     (k ∈ keys (fileMap r) <-> k ∈ keys (fileMap r'))).
Proof.
  intros Hperm Hp Hp'.
  assert (Hroot : forall fuel1 fuel2 es1 es2 r1 r2 k,
            es1 ≡ₚ es2 -> parseZipAsTree fuel1 es1 = Ok r1 ->
            parseZipAsTree fuel2 es2 = Ok r2 -> parent_path k = None ->
            k ∈ keys (fileMap r1) -> k ∈ keys (fileMap r2)).
  { intros fuel1 fuel2 es1 es2 r1 r2 k Hperm12 Hp1 Hp2 Hk Hin.
    pose proof Hp1 as (st1 & Hb1 & _ & _ & HfM1 & _)%parse_inv. rewrite HfM1 in Hin.
    destruct (build_fileMap es1 st1 k Hb1 Hin) as (Hproto & i & e & Hi & Hd & Hn & _).
    assert (He : e ∈ es2).
    { rewrite <- Hperm12. by eapply list_elem_of_lookup_2. }
    apply list_elem_of_lookup_1 in He as [j Hj].
    destruct (parse_entry es2 fuel2 r2 j e Hp2 Hj) as (_ & _ & _ & _ & Hreg).
    rewrite <- Hn. apply Hreg; [done|by rewrite Hn|left; by rewrite Hn]. }
  split_and!.
  - intros k.
    pose proof Hp as (st & Hb & _ & HFM & _)%parse_inv.
    pose proof Hp' as (st' & Hb' & _ & HFM' & _)%parse_inv.
    rewrite HFM, HFM', (build_folder_keys es st k Hb), (build_folder_keys es' st' k Hb').
    unfold direct_parent. by setoid_rewrite Hperm.
  - intros k d d' Hk Hk'.
    destruct (folder_sizes_closed_form fuel es r k d Hp Hk) as [cs Hd].
    destruct (folder_sizes_closed_form fuel' es' r' k d' Hp' Hk') as [cs' Hd'].
    destruct (children_shown es fuel r k d _ cs Hp Hk Hd eq_refl) as (Hs & Hlen & Hord).
    destruct (children_shown es' fuel' r' k d' _ cs' Hp' Hk' Hd' eq_refl)
      as (Hs' & Hlen' & Hord').
    exists cs, cs', (aggregate es record_size k), (aggregate es record_compressed k).
    split_and!; [done| |done|done|].
    + by rewrite (aggregate_perm es es' record_size k Hperm),
                 (aggregate_perm es es' record_compressed k Hperm).
    + apply same_entries_sorted; [|done..].
      by rewrite Hs, Hs', (entries_shown_perm es es' (Some k) Hperm).
  - by destruct (roots_shown es fuel r Hp) as (_ & ? & _).
  - by destruct (roots_shown es' fuel' r' Hp') as (_ & ? & _).
  - destruct (roots_shown es fuel r Hp) as (Hs & _ & Hord).
    destruct (roots_shown es' fuel' r' Hp') as (Hs' & _ & Hord').
    apply same_entries_sorted; [|done..].
    by rewrite Hs, Hs', (entries_shown_perm es es' None Hperm).
  - intros k x x' Hk Hk' Huniq.
    pose proof Hp as (st & Hb & Hwf & _ & HfM & _ & Hheap)%parse_inv.
    pose proof Hp' as (st' & Hb' & Hwf' & _ & HfM' & _ & Hheap')%parse_inv.
    rewrite HfM in Hk. rewrite HfM' in Hk'.
    destruct (wf_fileMap _ _ Hwf _ _ Hk) as (e & He & Hd & Hn & Hx).
    destruct (wf_fileMap _ _ Hwf' _ _ Hk') as (e' & He' & Hd' & Hn' & Hx').
    rewrite <- Hperm in He'. assert (e' = e) as -> by (by apply Huniq).
    exists e. split; by eapply finished_leaf.
  - intros k Hk. split.
    + by apply (Hroot fuel fuel' es es' r r' k).
    + by apply (Hroot fuel' fuel es' es r' r k).
Qed.

Definition nested_reversed : State := Eval vm_compute in run 4 (reverse nested).

Lemma permuted_input_same_tree_witness :
  nested ≡ₚ reverse nested /\
  @parseZipAsTree sample_host 4 nested = Ok nested_result /\
  @parseZipAsTree sample_host 4 (reverse nested) = Ok nested_reversed /\
  (forall k, k ∈ keys (folderMap nested_result) <-> k ∈ keys (folderMap nested_reversed)) /\
  (forall k d d',
     lookup_own k (folderMap nested_result) = Some d ->
     lookup_own k (folderMap nested_reversed) = Some d' ->
     exists cs cs' raw comp,
       heap nested_result !! d = Some (@folder_node sample_host k cs raw comp) /\
       heap nested_reversed !! d' = Some (@folder_node sample_host k cs' raw comp) /\
       length (shown nested_result cs) = length cs /\
       length (shown nested_reversed cs') = length cs' /\
       @same_entries sample_host (shown nested_result cs) (shown nested_reversed cs')) /\
  (length (shown nested_result (files nested_result)) = length (files nested_result) /\
   length (shown nested_reversed (files nested_reversed)) = length (files nested_reversed) /\
   @same_entries sample_host (shown nested_result (files nested_result))
     (shown nested_reversed (files nested_reversed))) /\
  shown nested_result (files nested_result) = shown nested_reversed (files nested_reversed).
Proof.
  split; [symmetry; apply reverse_Permutation|].
  split; [by vm_compute|]. split; [by vm_compute|].
  destruct (@permuted_input_same_tree sample_host 4 4 nested (reverse nested)
              nested_result nested_reversed) as (Hkeys & Hfolders & Hroots & _);
    [symmetry; apply reverse_Permutation|by vm_compute..|].
  split; [exact Hkeys|]. split; [exact Hfolders|]. split; [exact Hroots|].
  destruct Hroots as (_ & _ & _ & Hsame).
  destruct (Hsame codeUnitCompare_total codeUnitCompare_trans) as [_ Heq].
  apply Heq. intros a b Ha Hb [Hab Hba].
  vm_compute in Ha, Hb.
  repeat (apply elem_of_cons in Ha as [->|Ha]);
    repeat (apply elem_of_cons in Hb as [->|Hb]);
    try (by apply elem_of_nil in Ha); try (by apply elem_of_nil in Hb);
    try reflexivity; vm_compute in Hab, Hba; congruence.
Defined.
